(** * CodeOptimizer training programs: a shallow embedding and its properties

    The repository's [dataset/training_codes] directory holds small,
    independent C programs.  Each one is embedded below as Rocq functions
    that follow the C text statement by statement:

    - [int] is a 32-bit two's-complement integer, carried as a [Z] with the
      wrap-around of every addition, subtraction and multiplication written
      out ([Int32.add], [Int32.sub], [Int32.mul]);
    - an array is a [list]; a read or a write outside of it is a [Fault];
    - a C string is the array of its characters followed by [NUL], and
      [strlen] scans it;
    - a [for] loop whose bound is a run-time value is a [Fixpoint] on a
      fuel argument that yields [Timeout] when the fuel is used up, so that
      "the function returns v" is always proved as "with enough fuel the
      result is [Done v]";
    - the recursion of [fibonacci], the fixed-bound loop that sums it and
      the remainder loop of [gcd] are defined by well-founded recursion and
      are total;
    - [double] arithmetic is a parameter of [polynomial], instantiated with
      the rationals and with IEEE binary64 numbers (Rocq's primitive
      floats, whose operations are specified by [SpecFloat]);
    - [string_search] carries a record of the candidate offsets it enters
      and of the characters it compares, to state what it does not do;
    - the text written by [printf] and the exit code are what a [main]
      function returns. *)

From Equations Require Import Equations.
From Stdlib Require Import ZArith Lia List Permutation.
From Stdlib Require Import Ascii String DecimalString.
From Stdlib Require Import QArith Qround Qabs Qpower Qfield.
From Stdlib Require Import PrimFloat FloatOps SpecFloat FloatAxioms.
Import ListNotations.

Local Open Scope Z_scope.

(* ===================================================================== *)
(** * Part I: the embedding                                               *)
(* ===================================================================== *)

(** ** The C type [int] *)

Module Int32.

Definition INT_MIN : Z := -2147483648.
Definition INT_MAX : Z := 2147483647.
Definition modulus : Z := 4294967296.

Definition in_range (z : Z) : Prop := INT_MIN <= z <= INT_MAX.

(** The representative of [z] modulo 2^32 that lies in
    [INT_MIN .. INT_MAX]. *)
Definition wrap (z : Z) : Z := (z - INT_MIN) mod modulus + INT_MIN.

Definition add (a b : Z) : Z := wrap (a + b).
Definition sub (a b : Z) : Z := wrap (a - b).
Definition mul (a b : Z) : Z := wrap (a * b).

(** C99 [a % b]: the remainder has the sign of the dividend, which is
    [Z.rem].  Its absolute value is below that of [b], so no wrap-around
    arises.  Every use in the sources is guarded by [b != 0]. *)
Definition rem (a b : Z) : Z := Z.rem a b.

Lemma wrap_in_range (z : Z) : in_range (wrap z).
Proof.
  unfold in_range, wrap, INT_MIN, INT_MAX, modulus.
  pose proof (Z.mod_pos_bound (z - -2147483648) 4294967296). lia.
Qed.

Lemma wrap_small (z : Z) : in_range z -> wrap z = z.
Proof.
  unfold in_range, wrap, INT_MIN, INT_MAX, modulus. intros Hz.
  rewrite Z.mod_small by lia. lia.
Qed.

End Int32.

(** ** Results of running a function *)

Inductive outcome (A : Type) : Type :=
| Done (a : A)   (* the function returned [a] *)
| Fault          (* an array was accessed outside of its bounds *)
| Timeout.       (* the fuel given to a loop was used up *)

Arguments Done {A} a.
Arguments Fault {A}.
Arguments Timeout {A}.

Definition bind {A B : Type} (m : outcome A) (k : A -> outcome B)
  : outcome B :=
  match m with
  | Done a => k a
  | Fault => Fault
  | Timeout => Timeout
  end.

Notation "x <- m ;; k" := (bind m (fun x => k))
  (at level 61, m at next level, right associativity).
Notation "' p <- m ;; k" := (bind m (fun x => let p := x in k))
  (at level 61, p pattern, m at next level, right associativity).

(** [arr[i]] for an array held as a list. *)
Definition array_read {A : Type} (arr : list A) (i : Z) : outcome A :=
  if i <? 0 then Fault
  else match nth_error arr (Z.to_nat i) with
       | Some x => Done x
       | None => Fault
       end.

(** [arr[i] = v]. *)
Definition array_write {A : Type} (arr : list A) (i : Z) (v : A)
  : outcome (list A) :=
  if i <? 0 then Fault
  else if (Z.to_nat i <? List.length arr)%nat
       then Done (firstn (Z.to_nat i) arr ++ v :: skipn (S (Z.to_nat i)) arr)
       else Fault.

(** ** Formatted output *)

(** The newline character of the C string literals. *)
Definition nl : string := String (ascii_of_nat 10) EmptyString.

(** [printf("%d", z)]. *)
Definition print_int (z : Z) : string := NilZero.string_of_int (Z.to_int z).

(** ** gcd_algorithm.c *)

Module GcdAlgorithm.

(** One pass through the body of the [while] loop:
    [temp = b; b = a % b; a = temp;] on the pair [(a, b)]. *)
Definition gcd_body (s : Z * Z) : Z * Z :=
  let (a, b) := s in
  let temp := b in
  (temp, Int32.rem a b).

(** [while (b != 0) { ... } return a;] *)
Equations? gcd (a b : Z) : Z by wf (Z.abs_nat b) lt :=
  gcd a b with Z.eq_dec b 0 => {
    | left _ := a ;
    | right Hb := gcd b (Int32.rem a b) }.
Proof.
  unfold Int32.rem.
  pose proof (Z.rem_bound_abs a b Hb). lia.
Qed.

(** The same loop run pass by pass, for at most [fuel] evaluations of its
    condition. *)
Fixpoint gcd_while (fuel : nat) (a b : Z) : outcome Z :=
  match fuel with
  | O => Timeout
  | S fuel' =>
      if negb (b =? 0) then
        let (a', b') := gcd_body (a, b) in gcd_while fuel' a' b'
      else Done a
  end.

(** [printf("GCD of %d and %d is %d\n", a, b, gcd(a, b)); return 0;] *)
Definition main : string * Z :=
  let a := 48 in
  let b := 18 in
  (String.append "GCD of "
     (String.append (print_int a)
        (String.append " and "
           (String.append (print_int b)
              (String.append " is "
                 (String.append (print_int (gcd a b)) nl))))),
   0).

End GcdAlgorithm.

(** ** fibonacci_recursive.c *)

Module FibonacciRecursive.

(* The literals inside [Int32.wrap] are kept folded while the recursive
   definitions are elaborated. *)
#[local] Opaque Int32.wrap.
#[local] Obligation Tactic := idtac.

(** [if (n <= 1) return n; return fibonacci(n-1) + fibonacci(n-2);] *)
Equations? fibonacci (n : Z) : Z by wf (Z.to_nat n) lt :=
  fibonacci n with Z_le_dec n 1 => {
    | left _ := n ;
    | right Hn :=
        Int32.add (fibonacci (Int32.sub n 1)) (fibonacci (Int32.sub n 2)) }.
Proof.
  all: unfold Int32.sub.
  - destruct (Z_le_dec (n - 1) Int32.INT_MAX) as [Hle | Hgt].
    + rewrite Int32.wrap_small by (unfold Int32.in_range, Int32.INT_MIN; lia).
      lia.
    + pose proof (Int32.wrap_in_range (n - 1)) as [_ Hw]. lia.
  - destruct (Z_le_dec (n - 2) Int32.INT_MAX) as [Hle | Hgt].
    + rewrite Int32.wrap_small by (unfold Int32.in_range, Int32.INT_MIN; lia).
      lia.
    + pose proof (Int32.wrap_in_range (n - 2)) as [_ Hw]. lia.
Qed.

(** [for (int i = 0; i < 20; i++) { result += fibonacci(i); }], entered
    with the current [i] and [result]; returns the final [result]. *)
Equations? main_loop (i result : Z) : Z by wf (Z.to_nat (20 - i)) lt :=
  main_loop i result with Z_lt_dec i 20 => {
    | left Hi := main_loop (Int32.add i 1) (Int32.add result (fibonacci i)) ;
    | right _ := result }.
Proof.
  unfold Int32.add.
  destruct (Z_le_dec Int32.INT_MIN (i + 1)) as [Hle | Hgt].
  - rewrite Int32.wrap_small by (unfold Int32.in_range, Int32.INT_MAX; lia).
    lia.
  - pose proof (Int32.wrap_in_range (i + 1)) as [Hw _]. lia.
Qed.

#[local] Transparent Int32.wrap.

(** [int result = 0; for ...; printf("Result: %d\n", result); return 0;] *)
Definition main : string * Z :=
  let result := 0 in
  let result := main_loop 0 result in
  (String.append "Result: " (String.append (print_int result) nl), 0).

End FibonacciRecursive.

(** ** array_operations.c *)

Module ArrayOperations.

(** [for (int i = 1; i < n; i++) { if (arr[i] > max) { max = arr[i]; } }
    return max;], entered with the current [i] and [max]. *)
Fixpoint find_max_loop (fuel : nat) (arr : list Z) (n i max : Z)
  : outcome Z :=
  match fuel with
  | O => Timeout
  | S fuel' =>
      if i <? n then
        ai <- array_read arr i ;;
        max <- (if ai >? max then array_read arr i else Done max) ;;
        find_max_loop fuel' arr n (Int32.add i 1) max
      else Done max
  end.

(** [int max = arr[0]; for ...; return max;] *)
Definition find_max (fuel : nat) (arr : list Z) (n : Z) : outcome Z :=
  max <- array_read arr 0 ;;
  find_max_loop fuel arr n 1 max.

(** [int arr[] = {...}; int n = sizeof(arr) / sizeof(arr[0]);
    printf("Maximum element: %d\n", find_max(arr, n)); return 0;] *)
Definition main (fuel : nat) : outcome (string * Z) :=
  let arr := [3; 5; 7; 2; 8; 6; 4; 10; 12; 1] in
  let n := Z.of_nat (List.length arr) in
  r <- find_max fuel arr n ;;
  Done (String.append "Maximum element: " (String.append (print_int r) nl),
        0).

End ArrayOperations.

(** ** new1.c *)

Module New1.

(** [for (int i = 0; i < size; i++) { sum += arr[i] * 1; } return sum;],
    entered with the current [i] and [sum]. *)
Fixpoint sum_loop (fuel : nat) (arr : list Z) (size i sum : Z)
  : outcome Z :=
  match fuel with
  | O => Timeout
  | S fuel' =>
      if i <? size then
        ai <- array_read arr i ;;
        sum_loop fuel' arr size (Int32.add i 1)
                 (Int32.add sum (Int32.mul ai 1))
      else Done sum
  end.

(** [int sum = 0; for ...; return sum;] *)
Definition sum_array_unoptimized (fuel : nat) (arr : list Z) (size : Z)
  : outcome Z :=
  sum_loop fuel arr size 0 0.

(** [int data[] = {1, 2, 3, 4, 5}; int size = sizeof(data) / sizeof(data[0]);
    int result = sum_array_unoptimized(data, size);
    printf("Sum (Unoptimized): %d\n", result); return 0;] *)
Definition main (fuel : nat) : outcome (string * Z) :=
  let data := [1; 2; 3; 4; 5] in
  let size := Z.of_nat (List.length data) in
  result <- sum_array_unoptimized fuel data size ;;
  Done (String.append "Sum (Unoptimized): "
          (String.append (print_int result) nl),
        0).

End New1.

(** ** new2.c *)

Module New2.

(** [for (; i < size - 1; i += 2) { sum += arr[i] + arr[i + 1]; }],
    entered with the current [i] and [sum]; both are live after the loop. *)
Fixpoint unrolled_loop (fuel : nat) (arr : list Z) (size i sum : Z)
  : outcome (Z * Z) :=
  match fuel with
  | O => Timeout
  | S fuel' =>
      if i <? Int32.sub size 1 then
        a0 <- array_read arr i ;;
        a1 <- array_read arr (Int32.add i 1) ;;
        unrolled_loop fuel' arr size (Int32.add i 2)
                      (Int32.add sum (Int32.add a0 a1))
      else Done (i, sum)
  end.

(** [for (; i < size; i++) { sum += arr[i]; } return sum;] *)
Fixpoint leftover_loop (fuel : nat) (arr : list Z) (size i sum : Z)
  : outcome Z :=
  match fuel with
  | O => Timeout
  | S fuel' =>
      if i <? size then
        ai <- array_read arr i ;;
        leftover_loop fuel' arr size (Int32.add i 1) (Int32.add sum ai)
      else Done sum
  end.

(** [int sum = 0; int i = 0; for ...; for ...; return sum;] *)
Definition sum_array_optimized (fuel : nat) (arr : list Z) (size : Z)
  : outcome Z :=
  let sum := 0 in
  let i := 0 in
  '(i, sum) <- unrolled_loop fuel arr size i sum ;;
  leftover_loop fuel arr size i sum.

(** [int data[] = {1, 2, 3, 4, 5}; int size = sizeof(data) / sizeof(data[0]);
    int result = sum_array_optimized(data, size);
    printf("Sum (Optimized): %d\n", result); return 0;] *)
Definition main (fuel : nat) : outcome (string * Z) :=
  let data := [1; 2; 3; 4; 5] in
  let size := Z.of_nat (List.length data) in
  result <- sum_array_optimized fuel data size ;;
  Done (String.append "Sum (Optimized): "
          (String.append (print_int result) nl),
        0).

End New2.

(** ** polynomial_eval.c *)

Module PolynomialEval.

(** The arithmetic of [double] is a parameter of the evaluation loop: the
    loop is run over the rationals, and over IEEE binary64 numbers to check
    that no operation rounds on the input of [main]. *)
Section Over.

Variable R : Type.
Variables (zero one : R) (plus mult : R -> R -> R).

(** [for (int i = 0; i <= degree; i++) { result += coeffs[i] * power;
    power *= x; } return result;], entered with the current [i], [result]
    and [power]. *)
Fixpoint polynomial_loop (fuel : nat) (x : R) (coeffs : list R)
    (degree i : Z) (result power : R) : outcome R :=
  match fuel with
  | O => Timeout
  | S fuel' =>
      if i <=? degree then
        ci <- array_read coeffs i ;;
        polynomial_loop fuel' x coeffs degree (Int32.add i 1)
                        (plus result (mult ci power)) (mult power x)
      else Done result
  end.

(** [double result = 0.0; double power = 1.0; for ...; return result;] *)
Definition polynomial_over (fuel : nat) (x : R) (coeffs : list R)
    (degree : Z) : outcome R :=
  polynomial_loop fuel x coeffs degree 0 zero one.

End Over.

(** [polynomial] with exact rational arithmetic in place of [double]. *)
Definition polynomial : nat -> Q -> list Q -> Z -> outcome Q :=
  polynomial_over Q 0%Q 1%Q Qplus Qmult.

(** [polynomial] with IEEE binary64 arithmetic, round to nearest even. *)
Definition polynomial_binary64
  : nat -> float -> list float -> Z -> outcome float :=
  polynomial_over float 0%float 1%float PrimFloat.add PrimFloat.mul.

(** The integer nearest to [q], ties to even. *)
Definition round_half_even (q : Q) : Z :=
  let f := Qfloor q in
  match Qcompare (q - inject_Z f) (1 # 2) with
  | Lt => f
  | Gt => f + 1
  | Eq => if Z.even f then f else f + 1
  end.

(** [printf("%.2f", q)]: sign, integer part, point, two decimals. *)
Definition print_fixed2 (q : Q) : string :=
  let h := round_half_even (Qabs q * 100) in
  String.append (if Qlt_le_dec q 0 then "-" else "")
    (String.append (print_int (h / 100))
       (String.append "."
          (String.append (print_int (h / 10 mod 10))
                         (print_int (h mod 10))))).

(** [double coeffs[] = {1.0, 2.0, 3.0, 4.0}; double x = 2.5;
    printf("Result: %.2f\n", polynomial(x, coeffs, 3)); return 0;] *)
Definition main (fuel : nat) : outcome (string * Z) :=
  let coeffs := [1.0; 2.0; 3.0; 4.0]%Q in
  let x := 2.5%Q in
  r <- polynomial fuel x coeffs 3 ;;
  Done (String.append "Result: " (String.append (print_fixed2 r) nl), 0).

End PolynomialEval.

(** ** string_search.c *)

Module StringSearch.

(** The terminator of a C string. *)
Definition NUL : ascii := Ascii.zero.

(** A string literal as the [char] array it initialises: its characters,
    then [NUL]. *)
Definition c_string (s : string) : list ascii :=
  list_ascii_of_string s ++ [NUL].

(** [strlen] of <string.h>: the number of characters before the first
    [NUL]; running off the array is a [Fault]. *)
Fixpoint strlen (s : list ascii) : outcome Z :=
  match s with
  | [] => Fault
  | c :: s' =>
      if Ascii.eqb c NUL then Done 0
      else n <- strlen s' ;; Done (n + 1)
  end.

(** What the search does, recorded as it runs (ghost state, not part of the
    C program): [Candidate i] when the body of the outer loop is entered
    with offset [i], [Compare i j] when [text[i + j] != pattern[j]] is
    evaluated. *)
Inductive event : Type :=
| Candidate (i : Z)
| Compare (i j : Z).

(** [for (j = 0; j < pattern_len; j++) { if (text[i + j] != pattern[j])
    break; }], entered with the current [j]; returns the final [j]. *)
Fixpoint match_loop (fuel : nat) (text pattern : list ascii)
    (pattern_len i j : Z) (trace : list event)
  : outcome (Z * list event) :=
  match fuel with
  | O => Timeout
  | S fuel' =>
      if j <? pattern_len then
        t <- array_read text (Int32.add i j) ;;
        p <- array_read pattern j ;;
        let trace := trace ++ [Compare i j] in
        if negb (Ascii.eqb t p) then Done (j, trace)
        else match_loop fuel' text pattern pattern_len i (Int32.add j 1)
                        trace
      else Done (j, trace)
  end.

(** [for (int i = 0; i <= text_len - pattern_len; i++) { int j; for ...;
    if (j == pattern_len) return i; } return -1;], entered with the
    current [i]. *)
Fixpoint search_loop (fuel : nat) (text pattern : list ascii)
    (text_len pattern_len i : Z) (trace : list event)
  : outcome (Z * list event) :=
  match fuel with
  | O => Timeout
  | S fuel' =>
      if i <=? Int32.sub text_len pattern_len then
        '(j, trace) <- match_loop fuel' text pattern pattern_len i 0
                                  (trace ++ [Candidate i]) ;;
        if j =? pattern_len then Done (i, trace)
        else search_loop fuel' text pattern text_len pattern_len
                         (Int32.add i 1) trace
      else Done (-1, trace)
  end.

(** [string_search] together with the record of its run.
    [int text_len = strlen(text); int pattern_len = strlen(pattern);] convert
    a [size_t] to [int]. *)
Definition string_search_traced (fuel : nat) (text pattern : list ascii)
  : outcome (Z * list event) :=
  n <- strlen text ;;
  let text_len := Int32.wrap n in
  m <- strlen pattern ;;
  let pattern_len := Int32.wrap m in
  search_loop fuel text pattern text_len pattern_len 0 [].

Definition string_search (fuel : nat) (text pattern : list ascii)
  : outcome Z :=
  '(result, _) <- string_search_traced fuel text pattern ;;
  Done result.

(** [char text[] = "ABABDABACDABABCABCABCABCABC"; char pattern[] = "ABABCAB";
    int result = string_search(text, pattern);
    printf("Pattern found at index: %d\n", result); return 0;] *)
Definition main (fuel : nat) : outcome (string * Z) :=
  let text := c_string "ABABDABACDABABCABCABCABCABC" in
  let pattern := c_string "ABABCAB" in
  result <- string_search fuel text pattern ;;
  Done (String.append "Pattern found at index: "
          (String.append (print_int result) nl),
        0).

End StringSearch.

(** ** embedded_systems.c, optimization_examples.c, tree_traversal.c *)

(** The three files hold the same [main], up to the name in their
    comments. *)
Module SumOfSquares.

#[local] Opaque Int32.wrap.
#[local] Obligation Tactic := idtac.

(** [for (int i = 0; i < 100; i++) { data[i] = i * 2; }], entered with the
    current [i]; returns the array. *)
Equations? fill_loop (data : list Z) (i : Z) : outcome (list Z)
  by wf (Z.to_nat (100 - i)) lt :=
  fill_loop data i with Z_lt_dec i 100 => {
    | left Hi :=
        data' <- array_write data i (Int32.mul i 2) ;;
        fill_loop data' (Int32.add i 1) ;
    | right _ := Done data }.
Proof.
  unfold Int32.add.
  destruct (Z_le_dec Int32.INT_MIN (i + 1)) as [Hle | Hgt].
  - rewrite Int32.wrap_small by (unfold Int32.in_range, Int32.INT_MAX; lia).
    lia.
  - pose proof (Int32.wrap_in_range (i + 1)) as [Hw _]. lia.
Qed.

(** [for (int i = 0; i < 100; i++) { result += data[i] * data[i]; }],
    entered with the current [i] and [result]; returns [result]. *)
Equations? square_loop (data : list Z) (i result : Z) : outcome Z
  by wf (Z.to_nat (100 - i)) lt :=
  square_loop data i result with Z_lt_dec i 100 => {
    | left Hi :=
        d1 <- array_read data i ;;
        d2 <- array_read data i ;;
        square_loop data (Int32.add i 1)
                    (Int32.add result (Int32.mul d1 d2)) ;
    | right _ := Done result }.
Proof.
  unfold Int32.add.
  destruct (Z_le_dec Int32.INT_MIN (i + 1)) as [Hle | Hgt].
  - rewrite Int32.wrap_small by (unfold Int32.in_range, Int32.INT_MAX; lia).
    lia.
  - pose proof (Int32.wrap_in_range (i + 1)) as [Hw _]. lia.
Qed.

#[local] Transparent Int32.wrap.

(** [int data[100]; for ...; int result = 0; for ...;
    printf("Result: %d\n", result); return 0;], where [data] stands for
    what the 100 elements of the array hold before they are assigned. *)
Definition main (data : list Z) : outcome (string * Z) :=
  data <- fill_loop data 0 ;;
  let result := 0 in
  result <- square_loop data 0 result ;;
  Done (String.append "Result: " (String.append (print_int result) nl), 0).

End SumOfSquares.

(** ** Reference notions for the statements of Part II *)

(** The arithmetic sum of a sequence, over [Z]. *)
Definition list_sum (l : list Z) : Z := fold_right Z.add 0 l.

(** The Fibonacci numbers over [Z], two at a time:
    [fib_pair k = (F k, F (k+1))]. *)
Fixpoint fib_pair (k : nat) : Z * Z :=
  match k with
  | O => (0, 1)
  | S k' => let (x, y) := fib_pair k' in (y, x + y)
  end.

(** The sum of [fibonacci i] for [i = 0, ..., 19], over [Z]. *)
Definition fib_sum_0_19 : Z :=
  list_sum
    (map (fun i => FibonacciRecursive.fibonacci (Z.of_nat i)) (seq 0 20)).

(** The pattern, of length [P], matches the text at offset [i] character
    for character: [text[i + j] = pattern[j]] for every [j] below [P]. *)
Definition matches_at (text pattern : list ascii) (P i : Z) : Prop :=
  forall j : Z,
    0 <= j < P ->
    nth_error text (Z.to_nat (i + j)) = nth_error pattern (Z.to_nat j).

(** [i] is a candidate offset, [0 <= i <= T - P], at which the pattern
    matches [text[i..i+P)]. *)
Definition occurs_at (text pattern : list ascii) (T P i : Z) : Prop :=
  0 <= i <= T - P /\ matches_at text pattern P i.

(** The two arrays of [StringSearch.main]. *)
Definition main_text : list ascii :=
  StringSearch.c_string "ABABDABACDABABCABCABCABCABC".
Definition main_pattern : list ascii := StringSearch.c_string "ABABCAB".

(** Two arrays whose lengths are beyond [INT_MAX]: a text of [2^31 + 1]
    characters and a pattern of [2^32] characters, each followed by its
    terminator. *)
Definition long_text : list ascii :=
  repeat "A"%char (Z.to_nat (2 ^ 31 + 1)) ++ [StringSearch.NUL].
Definition long_pattern : list ascii :=
  repeat "A"%char (Z.to_nat (2 ^ 32)) ++ [StringSearch.NUL].

(** [c0 * p + c1 * (p * x) + c2 * (p * x * x) + ...]: with [p = 1], the
    value at [x] of the polynomial whose coefficients are [coeffs], lowest
    degree first. *)
Fixpoint poly_value (x : Q) (coeffs : list Q) (p : Q) : Q :=
  match coeffs with
  | [] => 0%Q
  | c :: coeffs' => (c * p + poly_value x coeffs' (p * x))%Q
  end.

(** The number of character comparisons recorded in a trace. *)
Definition comparisons (trace : list StringSearch.event) : Z :=
  Z.of_nat
    (List.length
       (filter (fun e => match e with
                         | StringSearch.Compare _ _ => true
                         | StringSearch.Candidate _ => false
                         end) trace)).

(** The Fibonacci recurrence run forwards in [int] arithmetic, two values
    at a time; the addition is the one of [fibonacci],
    [fibonacci(n-1) + fibonacci(n-2)]. *)
Fixpoint fib_int_pair (k : nat) : Z * Z :=
  match k with
  | O => (0, 1)
  | S k' => let (x, y) := fib_int_pair k' in (y, Int32.add y x)
  end.

(** The terms of the evaluation in binary64 arithmetic, lowest degree
    first: [c0 * p0, c1 * p1, c2 * p2, ...] where [p0 = power] and each
    further power is the one before it times [x], every product rounded
    to nearest even. *)
Fixpoint terms_binary64 (x : float) (coeffs : list float) (power : float)
  : list float :=
  match coeffs with
  | [] => []
  | c :: coeffs' =>
      PrimFloat.mul c power
        :: terms_binary64 x coeffs' (PrimFloat.mul power x)
  end.

(** The sum of a sequence in binary64 arithmetic, added up from the left
    starting with [0.0]: [((0.0 + t0) + t1) + t2 ...]. *)
Definition sum_binary64 (l : list float) : float :=
  fold_left PrimFloat.add l 0%float.

(** The binary64 number nearest to [1.1]. *)
Definition near_1_1 : float := 0x1.199999999999ap+0%float.

(** Horner's nested form [c0 + x * (c1 + x * (c2 + ...))] in binary64
    arithmetic. *)
Definition horner_binary64 (x : float) (coeffs : list float) : float :=
  fold_right (fun c acc => PrimFloat.add c (PrimFloat.mul x acc))
             0%float coeffs.

(** The offsets [lo, lo + 1, ..., lo + n - 1]. *)
Definition offsets (lo : Z) (n : nat) : list Z :=
  map (fun k => lo + Z.of_nat k) (seq 0 n).

(** The candidate offsets recorded in a trace, in the order in which the
    outer loop entered them. *)
Definition candidates (trace : list StringSearch.event) : list Z :=
  flat_map (fun e => match e with
                     | StringSearch.Candidate i => [i]
                     | StringSearch.Compare _ _ => []
                     end) trace.

(** Every recorded step stays inside a text of [T] and a pattern of [P]
    characters: a candidate offset leaves room for the pattern, and a
    comparison reads [text[i + j]] and [pattern[j]] below the two
    terminators. *)
Definition trace_in_bounds (T P : Z) (trace : list StringSearch.event)
  : Prop :=
  Forall (fun e => match e with
                   | StringSearch.Candidate i => 0 <= i <= T - P
                   | StringSearch.Compare i j =>
                       0 <= i /\ 0 <= j < P /\ i + j < T
                   end) trace.

(** The value of a finite binary64 number, [(-1)^sign * mantissa * 2^exponent],
    as a rational; infinities and NaN have none. *)
Definition SF_value (f : spec_float) : option Q :=
  match f with
  | S754_zero _ => Some 0%Q
  | S754_finite sg m e =>
      Some (inject_Z (cond_Zopp sg (Z.pos m)) * 2 ^ e)%Q
  | _ => None
  end.

Definition binary64_value (f : float) : option Q := SF_value (Prim2SF f).

(** The binary64 number [f] is finite and its value is [z / 2^s]. *)
Definition is_dyadic (f : float) (z s : Z) : Prop :=
  exists v : Q,
    binary64_value f = Some v /\ (v == inject_Z z / inject_Z (2 ^ s))%Q.

(** The evaluation loop over the integers, for operands that are multiples
    of [2^(-q)]: with [x = zx / 2^q] and the coefficients [zcs[k] / 2^q],
    and entered with [result = R / 2^s] and [power = P / 2^s], each pass
    takes the numerators [R] and [P] to those of the next [result] and
    [power], over the denominator [2^(s + q)].  From [R = 0] and [P = 1]
    it ends with the sum of [zcs[k] * zx^k * 2^(q * (n - k))] for
    [k = 0 .. n], which is [2^(q * (n + 1))] times the value of the
    polynomial. *)
Fixpoint scaled_eval (q zx : Z) (zcs : list Z) (R P : Z) : Z :=
  match zcs with
  | [] => R
  | c :: zcs' => scaled_eval q zx zcs' (R * 2 ^ q + c * P) (P * zx)
  end.

(** The number of binary digits of [z]. *)
Definition bit_length (z : Z) : Z := Z.log2 (Z.abs z) + 1.

(** The binary64 representation of [z / 2^s] for [z] of at most 53 bits:
    the mantissa is [|z|] shifted to 53 bits. *)
Definition dyadic_SF (z s : Z) : spec_float :=
  if z =? 0 then S754_zero false
  else S754_finite (z <? 0)
         (Z.to_pos (Z.abs z * 2 ^ (53 - bit_length z)))
         (bit_length z - 53 - s).

(** [0, 2, 4, ..., 198]: the numbers [i * 2] for [i] from [0] to [99],
    over [Z]. *)
Definition doubles : list Z := map (fun i => Z.of_nat i * 2) (seq 0 100).

(** The squares of the elements of a sequence, over [Z]. *)
Definition squares (l : list Z) : list Z := map (fun d => d * d) l.

(** The operands of [PolynomialEval.main]. *)
Definition main_coeffs : list Q := [1.0; 2.0; 3.0; 4.0]%Q.
Definition main_x : Q := 2.5%Q.

(* ===================================================================== *)
(** * Part II: properties                                                 *)
(* ===================================================================== *)

(** ** Arithmetic on [int] and reads from arrays *)

Section IntFacts.

Import Int32.

Lemma in_range_0 : in_range 0.
Proof. unfold in_range, INT_MIN, INT_MAX. lia. Qed.

Lemma wrap_add_l (a b : Z) : wrap (wrap a + b) = wrap (a + b).
Proof.
  unfold wrap.
  replace ((a - INT_MIN) mod modulus + INT_MIN + b - INT_MIN)
    with ((a - INT_MIN) mod modulus + b) by lia.
  rewrite Z.add_mod_idemp_l by (unfold modulus; lia).
  do 2 f_equal. lia.
Qed.

(** Stepping a loop counter that is below an [int] bound. *)
Lemma add_small (i k bound : Z) :
  0 <= i -> 0 <= k -> i + k <= bound -> bound <= INT_MAX -> add i k = i + k.
Proof.
  intros. apply wrap_small. unfold in_range, INT_MIN. lia.
Qed.

Lemma sub_small (a b : Z) :
  0 <= a <= INT_MAX -> 0 <= b <= INT_MAX -> sub a b = a - b.
Proof.
  intros. apply wrap_small. unfold in_range, INT_MIN, INT_MAX in *. lia.
Qed.

End IntFacts.

Section IndexFacts.

Context {A : Type}.

Lemma array_read_Done (arr : list A) (i : Z) (x : A) :
  array_read arr i = Done x <-> 0 <= i /\ nth_error arr (Z.to_nat i) = Some x.
Proof.
  unfold array_read. destruct (Z.ltb_spec i 0) as [Hi | Hi].
  - split; [discriminate | lia].
  - destruct (nth_error arr (Z.to_nat i)) as [y |].
    + split; [intros [= ->]; auto | intros [_ [= ->]]; reflexivity].
    + split; [discriminate | intros [_ [=]]].
Qed.

(** An in-bounds read succeeds. *)
Lemma array_read_in_bounds (arr : list A) (k : Z) :
  0 <= k < Z.of_nat (List.length arr) ->
  exists x, array_read arr k = Done x /\ nth_error arr (Z.to_nat k) = Some x.
Proof.
  intros Hk.
  destruct (nth_error arr (Z.to_nat k)) as [x |] eqn:E.
  - exists x. split; [| reflexivity].
    apply array_read_Done. split; [lia | exact E].
  - apply nth_error_None in E. lia.
Qed.

(** It yields the head of the remaining suffix. *)
Lemma array_read_skipn (arr : list A) (i : Z) :
  0 <= i < Z.of_nat (List.length arr) ->
  exists x, array_read arr i = Done x /\
            skipn (Z.to_nat i) arr = x :: skipn (Z.to_nat (i + 1)) arr.
Proof.
  intros Hi.
  destruct (nth_error arr (Z.to_nat i)) as [x |] eqn:E.
  - exists x. split; [apply array_read_Done; split; [lia | exact E] |].
    replace (Z.to_nat (i + 1)) with (S (Z.to_nat i)) by lia.
    clear Hi. revert arr E.
    induction (Z.to_nat i) as [| k IH]; intros [| y l] E;
      try discriminate.
    + injection E as ->. reflexivity.
    + apply (IH l E).
  - apply nth_error_None in E. lia.
Qed.

Lemma skipn_all_Z (arr : list A) (i : Z) :
  Z.of_nat (List.length arr) <= i -> skipn (Z.to_nat i) arr = [].
Proof. intros Hi. apply skipn_all2. lia. Qed.

End IndexFacts.

(** ** gcd_algorithm.c *)

Section GcdProperties.

Import GcdAlgorithm.

Lemma gcd_zero (a : Z) : gcd a 0 = a.
Proof. simp gcd. reflexivity. Qed.

Lemma gcd_step (a b : Z) : b <> 0 -> gcd a b = gcd b (Int32.rem a b).
Proof.
  intros Hb. rewrite gcd_equation_1.
  destruct (Z.eq_dec b 0) as [E | E]; [contradiction | reflexivity].
Qed.


(** On non-negative operands [a % b] lies in [0 .. b-1]. *)
Lemma rem_nonneg_bound (a b : Z) :
  0 <= a -> 0 < b -> 0 <= Int32.rem a b < b.
Proof.
  intros Ha Hb. unfold Int32.rem.
  rewrite Z.rem_mod_nonneg by lia. apply Z.mod_pos_bound; lia.
Qed.

(** Induction that follows the loop: to show [P a b] for non-negative
    operands, the exit case [b = 0] and the step from [(b, a % b)] back to
    [(a, b)] suffice. *)
Lemma gcd_loop_ind (P : Z -> Z -> Prop) :
  (forall a, 0 <= a -> P a 0) ->
  (forall a b, 0 <= a -> 0 < b -> P b (Int32.rem a b) -> P a b) ->
  forall a b, 0 <= a -> 0 <= b -> P a b.
Proof.
  intros Hexit Hstep a b Ha Hb. revert a Ha.
  generalize Hb.
  pattern b. apply Z_lt_induction; [| exact Hb].
  clear b Hb. intros b IH Hb a Ha.
  destruct (Z.eq_dec b 0) as [-> | Hb0].
  - apply Hexit; assumption.
  - pose proof (rem_nonneg_bound a b Ha ltac:(lia)) as Hr.
    apply Hstep; try lia.
    apply IH; lia.
Qed.

(** For non-negative operands the loop computes the gcd of the Standard
    Library. *)
Lemma gcd_is_Zgcd (a b : Z) : 0 <= a -> 0 <= b -> gcd a b = Z.gcd a b.
Proof.
  intros Ha Hb. revert a b Ha Hb. apply gcd_loop_ind.
  - intros a Ha. rewrite gcd_zero, Z.gcd_0_r, Z.abs_eq; auto.
  - intros a b Ha Hb IH.
    rewrite gcd_step by lia. rewrite IH. unfold Int32.rem.
    rewrite Z.rem_mod_nonneg by lia.
    rewrite Z.gcd_comm, Z.gcd_mod by lia. apply Z.gcd_comm.
Qed.

(** The values stay within the operands, hence within [int]. *)
Lemma gcd_range (a b : Z) :
  0 <= a -> 0 <= b -> 0 <= gcd a b <= Z.max a b.
Proof.
  intros Ha Hb. revert a b Ha Hb. apply gcd_loop_ind.
  - intros a Ha. rewrite gcd_zero. lia.
  - intros a b Ha Hb IH.
    rewrite gcd_step by lia.
    pose proof (rem_nonneg_bound a b Ha Hb). lia.
Qed.

(** C9, as the claim states it, at the input [(0, 0)]: [gcd(0, 0)] is [0],
    while [1] divides both operands and is greater, so the result is not
    the greatest common divisor. *)
Lemma gcd_0_0_not_greatest :
  gcd 0 0 = 0 /\
  (1 | 0) /\
  ~ (forall d : Z, (d | 0) -> (d | 0) -> d <= gcd 0 0).
Proof.
  split; [apply gcd_zero |].
  split; [apply Z.divide_0_r |].
  intros Hmax.
  specialize (Hmax 1 (Z.divide_0_r 1) (Z.divide_0_r 1)).
  rewrite gcd_zero in Hmax. lia.
Qed.

(** C9 (amended): for every pair of non-negative integers [(a, b)] other
    than [(0, 0)], [gcd a b] divides both [a] and [b] and is the greatest
    integer that does; [gcd 0 0] is [0]; and [gcd 48 18 = 6]. *)
Theorem gcd_greatest_common_divisor (a b : Z) :
  0 <= a -> 0 <= b -> a <> 0 \/ b <> 0 ->
  (gcd a b | a) /\ (gcd a b | b) /\
  (forall d : Z, (d | a) -> (d | b) -> d <= gcd a b) /\
  gcd 0 0 = 0 /\
  gcd 48 18 = 6.
Proof.
  intros Ha Hb Hnz.
  rewrite gcd_is_Zgcd by assumption.
  split; [apply Z.gcd_divide_l |].
  split; [apply Z.gcd_divide_r |].
  split; [| split; reflexivity].
  intros d Hda Hdb.
  assert (Hpos : 0 < Z.gcd a b).
  { pose proof (Z.gcd_nonneg a b).
    destruct (Z.eq_dec (Z.gcd a b) 0) as [E | E]; [| lia].
    apply Z.gcd_eq_0 in E. lia. }
  apply Z.divide_pos_le; [exact Hpos |].
  apply Z.gcd_greatest; assumption.
Qed.

Lemma gcd_greatest_common_divisor_witness :
  (0 <= 48 /\ 0 <= 18 /\ (48 <> 0 \/ 18 <> 0)) /\
  (gcd 48 18 | 48) /\ (gcd 48 18 | 18) /\
  (forall d : Z, (d | 48) -> (d | 18) -> d <= gcd 48 18) /\
  gcd 0 0 = 0 /\
  gcd 48 18 = 6.
Proof.
  split; [lia |].
  apply (gcd_greatest_common_divisor 48 18); lia.
Defined.

(** C10: for non-negative [a] and [b], a pass of the loop with [b <> 0]
    replaces [b] by [a % b], which is non-negative and strictly below [b];
    so the loop leaves after at most [b] passes: run with any fuel above
    [b] it returns, and what it returns is the value of [gcd], the total
    function defined by well-founded recursion on [b]. *)
Theorem gcd_loop_terminates (a b : Z) :
  0 <= a -> 0 <= b ->
  (b <> 0 -> 0 <= Int32.rem a b < b) /\
  forall fuel : nat,
    (Z.to_nat b < fuel)%nat -> gcd_while fuel a b = Done (gcd a b).
Proof.
  intros Ha Hb. split.
  - intros Hb0. apply rem_nonneg_bound; lia.
  - revert a b Ha Hb.
    apply (gcd_loop_ind (fun a b => forall fuel : nat,
             (Z.to_nat b < fuel)%nat -> gcd_while fuel a b = Done (gcd a b))).
    + intros a _ [| fuel] Hf; [lia |]. simpl. now rewrite gcd_zero.
    + intros a b Ha Hb IH [| fuel] Hf; [lia |].
      pose proof (rem_nonneg_bound a b Ha Hb) as Hr.
      cbn [gcd_while gcd_body].
      destruct (Z.eqb_spec b 0) as [E | _]; [lia |]. cbn [negb].
      rewrite IH by lia. now rewrite <- gcd_step by lia.
Qed.

Lemma gcd_loop_terminates_witness :
  (0 <= 48 /\ 0 <= 18 /\ 18 <> 0 /\ (Z.to_nat 18 < 19)%nat) /\
  0 <= Int32.rem 48 18 < 18 /\
  gcd_while 19 48 18 = Done (gcd 48 18).
Proof.
  assert (H1 : 0 <= 48) by lia.
  assert (H2 : 0 <= 18) by lia.
  assert (H3 : 18 <> 0) by lia.
  assert (H4 : (Z.to_nat 18 < 19)%nat) by (vm_compute; lia).
  split; [repeat split; assumption |].
  split.
  - exact (proj1 (gcd_loop_terminates 48 18 H1 H2) H3).
  - exact (proj2 (gcd_loop_terminates 48 18 H1 H2) 19%nat H4).
Defined.

End GcdProperties.

(** ** fibonacci_recursive.c *)

Section FibonacciProperties.

Import FibonacciRecursive.

Lemma fibonacci_base (n : Z) : n <= 1 -> fibonacci n = n.
Proof.
  intros Hn. rewrite fibonacci_equation_1.
  destruct (Z_le_dec n 1); [reflexivity | contradiction].
Qed.

(** The recursive case, in [int] arithmetic. *)
Lemma fibonacci_rec (n : Z) :
  1 < n ->
  fibonacci n =
  Int32.add (fibonacci (Int32.sub n 1)) (fibonacci (Int32.sub n 2)).
Proof.
  intros Hn. rewrite fibonacci_equation_1.
  destruct (Z_le_dec n 1); [lia | reflexivity].
Qed.

Lemma fib_pair_order (k : nat) :
  0 <= fst (fib_pair k) <= snd (fib_pair k).
Proof.
  induction k as [| k IH]; simpl; [lia |].
  destruct (fib_pair k) as [x y]; simpl in *. lia.
Qed.

Lemma fib_pair_mono (j k : nat) :
  (j <= k)%nat -> snd (fib_pair j) <= snd (fib_pair k).
Proof.
  induction 1 as [| k Hle IH]; [lia |].
  pose proof (fib_pair_order k) as Ho. simpl.
  destruct (fib_pair k) as [x y]; simpl in *. lia.
Qed.

(** Up to [F 46] the numbers fit in an [int], and [fibonacci] computes
    them without wrap-around. *)
Lemma fibonacci_fib_pair (k : nat) :
  (S k <= 46)%nat ->
  fibonacci (Z.of_nat k) = fst (fib_pair k) /\
  fibonacci (Z.of_nat (S k)) = snd (fib_pair k).
Proof.
  induction k as [| k IH]; intros Hk.
  - change (Z.of_nat 0) with 0. change (Z.of_nat 1) with 1.
    split; rewrite fibonacci_base by lia; reflexivity.
  - destruct IH as [IH0 IH1]; [lia |].
    pose proof (fib_pair_order k) as Ho.
    pose proof (fib_pair_order (S k)) as Ho'.
    pose proof (fib_pair_mono (S k) 45 ltac:(lia)) as Hm.
    change (snd (fib_pair 45)) with 1836311903 in Hm.
    simpl fib_pair in *. destruct (fib_pair k) as [x y]. simpl fst in *.
    simpl snd in *. split; [exact IH1 |].
    rewrite fibonacci_rec by lia.
    unfold Int32.sub.
    rewrite !Int32.wrap_small
      by (unfold Int32.in_range, Int32.INT_MIN, Int32.INT_MAX; lia).
    replace (Z.of_nat (S (S k)) - 1) with (Z.of_nat (S k)) by lia.
    replace (Z.of_nat (S (S k)) - 2) with (Z.of_nat k) by lia.
    rewrite IH0, IH1. unfold Int32.add.
    rewrite Int32.wrap_small
      by (unfold Int32.in_range, Int32.INT_MIN, Int32.INT_MAX; lia).
    lia.
Qed.

(** The loop of [main], run from [i = 0] and [result = 0]. *)
Lemma main_loop_value : main_loop 0 0 = 10945.
Proof. vm_compute. reflexivity. Qed.

Lemma fib_sum_0_19_value : fib_sum_0_19 = 10945.
Proof. vm_compute. reflexivity. Qed.

(** C2, as the claim states it: the loop of [main] ends with [10945], not
    with [6764] (which is the sum over [0..18]). *)
Lemma fibonacci_sum_not_6764 :
  main_loop 0 0 = 10945 /\ main_loop 0 0 <> 6764.
Proof. rewrite main_loop_value. split; [reflexivity | discriminate]. Qed.

(** The recurrence without wrap-around, up to [F 46]. *)
Lemma fibonacci_rec_exact (n : Z) :
  2 <= n <= 46 -> fibonacci n = fibonacci (n - 1) + fibonacci (n - 2).
Proof.
  intros Hn.
  destruct (fibonacci_fib_pair (Z.to_nat (n - 2)) ltac:(lia)) as [E0 E1].
  destruct (fibonacci_fib_pair (Z.to_nat (n - 1)) ltac:(lia)) as [_ E2].
  replace (S (Z.to_nat (n - 2))) with (Z.to_nat (n - 1)) in E1 by lia.
  replace (S (Z.to_nat (n - 1))) with (Z.to_nat n) in E2 by lia.
  rewrite !Z2Nat.id in * by lia.
  rewrite E0, E1, E2.
  replace (Z.to_nat (n - 1)) with (S (Z.to_nat (n - 2))) by lia.
  simpl. destruct (fib_pair (Z.to_nat (n - 2))) as [x y]. simpl. lia.
Qed.

(** C2 (amended): [fibonacci 0 = 0], [fibonacci 1 = 1] and, for every
    [int] [n >= 2], [fibonacci n = fibonacci (n-1) + fibonacci (n-2)] in
    [int] arithmetic (without wrap-around up to [n = 46]); the value the
    loop of [main] computes, the sum of [fibonacci i] for [i] in [0..19],
    is [10945], and [main] prints it. *)
Theorem fibonacci_sum_is_10945 (n : Z) :
  2 <= n <= Int32.INT_MAX ->
  fibonacci 0 = 0 /\
  fibonacci 1 = 1 /\
  fibonacci n = Int32.add (fibonacci (n - 1)) (fibonacci (n - 2)) /\
  (n <= 46 -> fibonacci n = fibonacci (n - 1) + fibonacci (n - 2)) /\
  main_loop 0 0 = fib_sum_0_19 /\
  main_loop 0 0 = 10945 /\
  main = (String.append "Result: 10945" nl, 0).
Proof.
  intros Hn.
  split; [apply fibonacci_base; lia |].
  split; [apply fibonacci_base; lia |].
  split; [| split; [| split; [| split]]].
  - rewrite fibonacci_rec by lia.
    rewrite (sub_small n 1), (sub_small n 2)
      by (unfold Int32.INT_MAX in *; lia).
    reflexivity.
  - intros H46. apply fibonacci_rec_exact. lia.
  - now rewrite main_loop_value, fib_sum_0_19_value.
  - exact main_loop_value.
  - unfold main. rewrite main_loop_value. reflexivity.
Qed.

Lemma fibonacci_sum_is_10945_witness :
  (2 <= 19 <= Int32.INT_MAX /\ 19 <= 46) /\
  fibonacci 0 = 0 /\
  fibonacci 1 = 1 /\
  fibonacci 19 = Int32.add (fibonacci (19 - 1)) (fibonacci (19 - 2)) /\
  fibonacci 19 = fibonacci (19 - 1) + fibonacci (19 - 2) /\
  main_loop 0 0 = fib_sum_0_19 /\
  main_loop 0 0 = 10945 /\
  main = (String.append "Result: 10945" nl, 0).
Proof.
  assert (H1 : 2 <= 19 <= Int32.INT_MAX)
    by (vm_compute; split; discriminate).
  assert (H2 : 19 <= 46) by (vm_compute; discriminate).
  destruct (fibonacci_sum_is_10945 19 H1) as (F0 & F1 & Fw & Fe & S1 & S2 & M).
  exact (conj (conj H1 H2)
           (conj F0 (conj F1 (conj Fw (conj (Fe H2) (conj S1 (conj S2 M))))))).
Defined.

End FibonacciProperties.

(** ** array_operations.c *)

Section FindMaxProperties.

Import ArrayOperations.

Lemma fold_left_max_ge (l : list Z) (m : Z) :
  m <= fold_left Z.max l m /\ forall x, In x l -> x <= fold_left Z.max l m.
Proof.
  revert m. induction l as [| y l IH]; intros m; simpl.
  - split; [lia | contradiction].
  - destruct (IH (Z.max m y)) as [H1 H2]. split; [lia |].
    intros x [-> | Hx]; [lia | auto].
Qed.

Lemma fold_left_max_In (l : list Z) (m : Z) :
  fold_left Z.max l m = m \/ In (fold_left Z.max l m) l.
Proof.
  revert m. induction l as [| y l IH]; intros m; simpl; [auto |].
  destruct (IH (Z.max m y)) as [E | HIn]; [| auto].
  rewrite E. destruct (Z.max_spec m y) as [[_ ->] | [_ ->]]; auto.
Qed.

(** The loop, entered at [i] with running maximum [max], folds [Z.max]
    over the elements from [i] on. *)
Lemma find_max_loop_spec (arr : list Z) (fuel : nat) :
  Z.of_nat (List.length arr) <= Int32.INT_MAX ->
  forall i max : Z,
    0 <= i <= Z.of_nat (List.length arr) ->
    (Z.to_nat (Z.of_nat (List.length arr) - i) < fuel)%nat ->
    find_max_loop fuel arr (Z.of_nat (List.length arr)) i max =
    Done (fold_left Z.max (skipn (Z.to_nat i) arr) max).
Proof.
  intros Hlen. induction fuel as [| fuel IH]; intros i max Hi Hf; [lia |].
  cbn [find_max_loop].
  destruct (Z.ltb_spec i (Z.of_nat (List.length arr))) as [Hlt | Hge].
  - destruct (array_read_skipn arr i ltac:(lia)) as (x & Hx & Hsk).
    rewrite Hx. cbn [bind].
    assert (Hmax : (if x >? max then Done x else Done max)
                   = Done (Z.max max x)).
    { destruct (Z.gtb_spec x max); f_equal; lia. }
    rewrite Hmax. cbn [bind].
    rewrite (add_small i 1 (Z.of_nat (List.length arr))) by lia.
    rewrite IH by lia. rewrite Hsk. reflexivity.
  - rewrite skipn_all_Z by lia. reflexivity.
Qed.

(** C8: for every non-empty [int] array [arr] (with its length [n] an
    [int]) and enough fuel, [find_max] returns an element of [arr] that no
    element exceeds; on the array of [main], with [n = 10], it returns
    [12]. *)
Theorem find_max_greatest (arr : list Z) (fuel : nat) :
  arr <> [] ->
  Z.of_nat (List.length arr) <= Int32.INT_MAX ->
  (List.length arr <= fuel)%nat ->
  (exists m : Z,
      find_max fuel arr (Z.of_nat (List.length arr)) = Done m /\
      In m arr /\
      forall x : Z, In x arr -> x <= m) /\
  find_max 10 [3; 5; 7; 2; 8; 6; 4; 10; 12; 1] 10 = Done 12.
Proof.
  intros Hne Hlen Hf. split; [| reflexivity].
  destruct arr as [| a arr]; [contradiction |].
  exists (fold_left Z.max arr a).
  split; [| split].
  - unfold find_max. cbn [array_read Z.ltb Z.compare Z.to_nat nth_error bind].
    rewrite find_max_loop_spec; try assumption.
    + reflexivity.
    + cbn [List.length]. lia.
    + cbn [List.length] in *. lia.
  - destruct (fold_left_max_In arr a) as [-> | H]; [left | right]; auto.
  - destruct (fold_left_max_ge arr a) as [H1 H2].
    intros x [<- | Hx]; auto.
Qed.

Lemma find_max_greatest_witness :
  ([3; 5; 7; 2; 8; 6; 4; 10; 12; 1] <> [] /\
   Z.of_nat (List.length [3; 5; 7; 2; 8; 6; 4; 10; 12; 1])
     <= Int32.INT_MAX /\
   (List.length [3; 5; 7; 2; 8; 6; 4; 10; 12; 1] <= 10)%nat) /\
  (exists m : Z,
      find_max 10 [3; 5; 7; 2; 8; 6; 4; 10; 12; 1]
        (Z.of_nat (List.length [3; 5; 7; 2; 8; 6; 4; 10; 12; 1])) = Done m /\
      In m [3; 5; 7; 2; 8; 6; 4; 10; 12; 1] /\
      forall x : Z, In x [3; 5; 7; 2; 8; 6; 4; 10; 12; 1] -> x <= m) /\
  find_max 10 [3; 5; 7; 2; 8; 6; 4; 10; 12; 1] 10 = Done 12.
Proof.
  split.
  - split; [discriminate | split; [vm_compute; discriminate | simpl; lia]].
  - apply (find_max_greatest [3; 5; 7; 2; 8; 6; 4; 10; 12; 1] 10).
    + discriminate.
    + vm_compute; discriminate.
    + simpl; lia.
Defined.

End FindMaxProperties.

(** ** new1.c and new2.c *)

Section SumArrayProperties.

Import New1 New2.

(** [sum_loop], entered at [i] with the [int] [sum], adds the elements from
    [i] on, modulo 2^32. *)
Lemma sum_loop_spec (arr : list Z) (fuel : nat) :
  Z.of_nat (List.length arr) <= Int32.INT_MAX ->
  forall i sum : Z,
    0 <= i <= Z.of_nat (List.length arr) ->
    Int32.in_range sum ->
    (Z.to_nat (Z.of_nat (List.length arr) - i) < fuel)%nat ->
    sum_loop fuel arr (Z.of_nat (List.length arr)) i sum =
    Done (Int32.wrap (sum + list_sum (skipn (Z.to_nat i) arr))).
Proof.
  intros Hlen. induction fuel as [| fuel IH]; intros i sum Hi Hs Hf; [lia |].
  cbn [sum_loop].
  destruct (Z.ltb_spec i (Z.of_nat (List.length arr))) as [Hlt | Hge].
  - destruct (array_read_skipn arr i ltac:(lia)) as (x & Hx & Hsk).
    rewrite Hx, Hsk. cbn [bind].
    rewrite (add_small i 1 (Z.of_nat (List.length arr))) by lia.
    rewrite IH; [| lia | apply Int32.wrap_in_range | lia].
    unfold Int32.add, Int32.mul. f_equal.
    rewrite Z.mul_1_r, wrap_add_l, (Z.add_comm sum), <- Z.add_assoc,
      wrap_add_l.
    cbn [list_sum fold_right]. f_equal. unfold list_sum. lia.
  - rewrite skipn_all_Z by lia. cbn [list_sum fold_right].
    rewrite Z.add_0_r, Int32.wrap_small; [reflexivity | assumption].
Qed.

Lemma leftover_loop_spec (arr : list Z) (fuel : nat) :
  Z.of_nat (List.length arr) <= Int32.INT_MAX ->
  forall i sum : Z,
    0 <= i <= Z.of_nat (List.length arr) ->
    Int32.in_range sum ->
    (Z.to_nat (Z.of_nat (List.length arr) - i) < fuel)%nat ->
    leftover_loop fuel arr (Z.of_nat (List.length arr)) i sum =
    Done (Int32.wrap (sum + list_sum (skipn (Z.to_nat i) arr))).
Proof.
  intros Hlen. induction fuel as [| fuel IH]; intros i sum Hi Hs Hf; [lia |].
  cbn [leftover_loop].
  destruct (Z.ltb_spec i (Z.of_nat (List.length arr))) as [Hlt | Hge].
  - destruct (array_read_skipn arr i ltac:(lia)) as (x & Hx & Hsk).
    rewrite Hx, Hsk. cbn [bind].
    rewrite (add_small i 1 (Z.of_nat (List.length arr))) by lia.
    rewrite IH; [| lia | apply Int32.wrap_in_range | lia].
    unfold Int32.add. f_equal.
    rewrite wrap_add_l. cbn [list_sum fold_right]. f_equal.
    unfold list_sum. lia.
  - rewrite skipn_all_Z by lia. cbn [list_sum fold_right].
    rewrite Z.add_0_r, Int32.wrap_small; [reflexivity | assumption].
Qed.

(** The unrolled loop followed by the leftover loop, entered at [i] with
    the [int] [sum]: two elements per pass, the same total modulo 2^32. *)
Lemma unrolled_then_leftover_spec (arr : list Z) (fuel2 fuel1 : nat) :
  Z.of_nat (List.length arr) <= Int32.INT_MAX ->
  forall i sum : Z,
    0 <= i <= Z.of_nat (List.length arr) ->
    Int32.in_range sum ->
    (Z.to_nat (Z.of_nat (List.length arr) - i) < fuel1)%nat ->
    (Z.to_nat (Z.of_nat (List.length arr) - i) < fuel2)%nat ->
    ('(i', sum') <-
       unrolled_loop fuel1 arr (Z.of_nat (List.length arr)) i sum ;;
     leftover_loop fuel2 arr (Z.of_nat (List.length arr)) i' sum') =
    Done (Int32.wrap (sum + list_sum (skipn (Z.to_nat i) arr))).
Proof.
  intros Hlen.
  induction fuel1 as [| fuel1 IH]; intros i sum Hi Hs Hf1 Hf2; [lia |].
  cbn [unrolled_loop].
  rewrite sub_small by (unfold Int32.INT_MAX in *; lia).
  destruct (Z.ltb_spec i (Z.of_nat (List.length arr) - 1)) as [Hlt | Hge].
  - destruct (array_read_skipn arr i ltac:(lia)) as (x & Hx & Hsk).
    destruct (array_read_skipn arr (i + 1) ltac:(lia)) as (y & Hy & Hsk').
    rewrite (add_small i 1 (Z.of_nat (List.length arr))) by lia.
    rewrite (add_small i 2 (Z.of_nat (List.length arr))) by lia.
    rewrite Hx. cbn [bind]. rewrite Hy. cbn [bind].
    rewrite IH; [| lia | apply Int32.wrap_in_range | lia | lia].
    rewrite Hsk, Hsk'. replace (i + 1 + 1) with (i + 2) by lia.
    unfold Int32.add. f_equal.
    rewrite wrap_add_l, (Z.add_comm sum), <- Z.add_assoc, wrap_add_l.
    cbn [list_sum fold_right]. f_equal. unfold list_sum. lia.
  - cbn [bind]. apply leftover_loop_spec; assumption.
Qed.

(** C4, as the claim states it, at the input [{INT_MAX, 1}]: both
    functions return [INT_MIN], whatever the fuel they finish with, while
    the arithmetic sum of the elements is [2^31]. *)
Lemma sum_array_wraps_around :
  sum_array_unoptimized 3 [2147483647; 1] 2 = Done (-2147483648) /\
  sum_array_optimized 3 [2147483647; 1] 2 = Done (-2147483648) /\
  list_sum [2147483647; 1] = 2147483648 /\
  (forall fuel : nat,
      sum_array_unoptimized fuel [2147483647; 1] 2
        <> Done (list_sum [2147483647; 1]) /\
      sum_array_optimized fuel [2147483647; 1] 2
        <> Done (list_sum [2147483647; 1])).
Proof.
  repeat split; try reflexivity.
  - destruct fuel as [| [| [| fuel]]]; vm_compute; discriminate.
  - destruct fuel as [| [| fuel]]; vm_compute; discriminate.
Qed.

(** C4 (amended): for every [int] sequence [arr] of any length [size]
    (0 and odd lengths included) and enough fuel, [sum_array_unoptimized]
    and [sum_array_optimized] return the same value, the arithmetic sum of
    the elements reduced modulo 2^32 into the range of [int]; that is the
    arithmetic sum itself whenever the sum is within the range of [int].
    Both return [15] on [{1, 2, 3, 4, 5}]. *)
Theorem sum_array_agree (arr : list Z) (fuel : nat) :
  Z.of_nat (List.length arr) <= Int32.INT_MAX ->
  (List.length arr < fuel)%nat ->
  sum_array_unoptimized fuel arr (Z.of_nat (List.length arr)) =
    Done (Int32.wrap (list_sum arr)) /\
  sum_array_optimized fuel arr (Z.of_nat (List.length arr)) =
    Done (Int32.wrap (list_sum arr)) /\
  (Int32.in_range (list_sum arr) ->
   sum_array_unoptimized fuel arr (Z.of_nat (List.length arr)) =
     Done (list_sum arr) /\
   sum_array_optimized fuel arr (Z.of_nat (List.length arr)) =
     Done (list_sum arr)) /\
  sum_array_unoptimized 6 [1; 2; 3; 4; 5] 5 = Done 15 /\
  sum_array_optimized 6 [1; 2; 3; 4; 5] 5 = Done 15.
Proof.
  intros Hlen Hf.
  assert (Hu : sum_array_unoptimized fuel arr (Z.of_nat (List.length arr))
               = Done (Int32.wrap (list_sum arr))).
  { unfold sum_array_unoptimized.
    rewrite sum_loop_spec; try assumption; try lia.
    - reflexivity.
    - apply in_range_0. }
  assert (Ho : sum_array_optimized fuel arr (Z.of_nat (List.length arr))
               = Done (Int32.wrap (list_sum arr))).
  { unfold sum_array_optimized.
    rewrite unrolled_then_leftover_spec; try assumption; try lia.
    - reflexivity.
    - apply in_range_0. }
  split; [exact Hu |]. split; [exact Ho |].
  split; [| split; reflexivity].
  intros Hr. rewrite Hu, Ho, Int32.wrap_small by assumption. auto.
Qed.

Lemma sum_array_agree_witness :
  (Z.of_nat (List.length [1; 2; 3; 4; 5]) <= Int32.INT_MAX /\
   (List.length [1; 2; 3; 4; 5] < 6)%nat /\
   Int32.in_range (list_sum [1; 2; 3; 4; 5])) /\
  sum_array_unoptimized 6 [1; 2; 3; 4; 5] 5 = Done (list_sum [1; 2; 3; 4; 5])
  /\
  sum_array_optimized 6 [1; 2; 3; 4; 5] 5 = Done (list_sum [1; 2; 3; 4; 5]).
Proof.
  assert (H1 : Z.of_nat (List.length [1; 2; 3; 4; 5]) <= Int32.INT_MAX)
    by (vm_compute; discriminate).
  assert (H2 : (List.length [1; 2; 3; 4; 5] < 6)%nat) by (simpl; lia).
  assert (H3 : Int32.in_range (list_sum [1; 2; 3; 4; 5]))
    by (vm_compute; split; discriminate).
  split; [repeat split; assumption |].
  exact (proj1 (proj2 (proj2 (sum_array_agree [1; 2; 3; 4; 5] 6 H1 H2))) H3).
Defined.

End SumArrayProperties.

(** ** string_search.c *)

Section StringSearchProperties.

Import StringSearch.

Lemma strlen_bound (s : list ascii) (n : Z) :
  strlen s = Done n -> 0 <= n < Z.of_nat (List.length s).
Proof.
  revert n. induction s as [| c s IH]; intros n H; simpl in H.
  - discriminate.
  - destruct (Ascii.eqb c NUL).
    + injection H as <-. simpl. lia.
    + destruct (strlen s) as [m | |]; try discriminate.
      simpl in H. injection H as <-.
      specialize (IH m eq_refl). simpl List.length. lia.
Qed.

(** More fuel does not change a result. *)
Lemma match_loop_fuel (text pattern : list ascii) (P i : Z) (f f' : nat) :
  (f <= f')%nat ->
  forall j trace r,
    match_loop f text pattern P i j trace = Done r ->
    match_loop f' text pattern P i j trace = Done r.
Proof.
  revert f'. induction f as [| f IH]; intros f' Hle j trace r H;
    [discriminate |].
  destruct f' as [| f']; [lia |].
  cbn [match_loop] in *.
  destruct (j <? P); [| exact H].
  destruct (array_read text (Int32.add i j)) as [t | |]; try discriminate.
  destruct (array_read pattern j) as [p | |]; try discriminate.
  cbn [bind] in *.
  destruct (negb (Ascii.eqb t p)); [exact H |].
  apply IH; [lia | exact H].
Qed.

Lemma search_loop_fuel (text pattern : list ascii) (T P : Z) (f f' : nat) :
  (f <= f')%nat ->
  forall i trace r,
    search_loop f text pattern T P i trace = Done r ->
    search_loop f' text pattern T P i trace = Done r.
Proof.
  revert f'. induction f as [| f IH]; intros f' Hle i trace r H;
    [discriminate |].
  destruct f' as [| f']; [lia |].
  cbn [search_loop] in *.
  destruct (i <=? Int32.sub T P); [| exact H].
  destruct (match_loop f text pattern P i 0 (trace ++ [Candidate i]))
    as [[j tr] | |] eqn:E; try discriminate.
  rewrite (match_loop_fuel text pattern P i f f' ltac:(lia) _ _ _ E).
  cbn [bind] in *.
  destruct (j =? P); [exact H |].
  apply IH; [lia | exact H].
Qed.

Lemma string_search_fuel (text pattern : list ascii) (f f' : nat) (r : Z) :
  (f <= f')%nat ->
  string_search f text pattern = Done r ->
  string_search f' text pattern = Done r.
Proof.
  intros Hle. unfold string_search, string_search_traced.
  destruct (strlen text) as [n | |]; try discriminate.
  destruct (strlen pattern) as [m | |]; try discriminate.
  cbn [bind].
  destruct (search_loop f text pattern (Int32.wrap n) (Int32.wrap m) 0 [])
    as [[r0 tr] | |] eqn:E; try discriminate.
  rewrite (search_loop_fuel _ _ _ _ f f' Hle _ _ _ E). auto.
Qed.

Section Search.

(** A text of length [T] and a pattern of length [P], both lengths
    representable as [int]. *)
Variables (text pattern : list ascii) (T P : Z).
Hypothesis text_length : strlen text = Done T.
Hypothesis pattern_length : strlen pattern = Done P.
Hypothesis text_fits : T <= Int32.INT_MAX.
Hypothesis pattern_fits : P <= Int32.INT_MAX.

(** The inner loop at a candidate offset [i]: it returns, and it ends with
    [j = P] exactly when the pattern matches at [i]. *)
Lemma match_loop_spec (i : Z) (fuel : nat) :
  0 <= i <= T - P ->
  forall (j : Z) (trace : list event),
    0 <= j <= P ->
    (Z.to_nat (P - j) < fuel)%nat ->
    (forall j', 0 <= j' < j ->
       nth_error text (Z.to_nat (i + j')) = nth_error pattern (Z.to_nat j')) ->
    exists j1 trace1,
      match_loop fuel text pattern P i j trace = Done (j1, trace1) /\
      (j1 = P <-> matches_at text pattern P i).
Proof.
  intros Hi.
  pose proof (strlen_bound _ _ text_length) as HT.
  pose proof (strlen_bound _ _ pattern_length) as HP.
  induction fuel as [| fuel IH]; intros j trace Hj Hf Hpre; [lia |].
  cbn [match_loop].
  destruct (Z.ltb_spec j P) as [Hlt | Hge].
  - rewrite (add_small i j T) by lia.
    destruct (array_read_in_bounds text (i + j) ltac:(lia)) as (t & Ht & Et).
    destruct (array_read_in_bounds pattern j ltac:(lia)) as (p & Hp & Ep).
    rewrite Ht, Hp. cbn [bind].
    destruct (Ascii.eqb_spec t p) as [-> | Hne]; cbn [negb].
    + rewrite (add_small j 1 P) by lia.
      apply IH; [lia | lia |].
      intros j' Hj'. destruct (Z.eq_dec j' j) as [-> | Hd].
      * now rewrite Et, Ep.
      * apply Hpre. lia.
    + exists j, (trace ++ [Compare i j]). split; [reflexivity |].
      split; [lia |].
      intros Hm. specialize (Hm j ltac:(lia)).
      rewrite Et, Ep in Hm. congruence.
  - exists j, trace. split; [reflexivity |].
    split; [| lia]. intros _ j' Hj'. apply Hpre. lia.
Qed.

(** The outer loop, entered at [i] when no smaller offset is an
    occurrence: it returns the first occurrence, or [-1] when there is
    none. *)
Lemma search_loop_spec (fuel : nat) :
  0 < P ->
  forall (i : Z) (trace : list event),
    0 <= i ->
    (0 < fuel)%nat ->
    T - i + 2 <= Z.of_nat fuel ->
    (forall i', occurs_at text pattern T P i' -> i <= i') ->
    exists r trace1,
      search_loop fuel text pattern T P i trace = Done (r, trace1) /\
      ((occurs_at text pattern T P r /\
        forall i', occurs_at text pattern T P i' -> r <= i') \/
       (r = -1 /\ forall i', ~ occurs_at text pattern T P i')).
Proof.
  intros HPpos.
  pose proof (strlen_bound _ _ text_length) as HT.
  induction fuel as [| fuel IH]; intros i trace Hi Hf0 Hf Hbelow; [lia |].
  cbn [search_loop].
  rewrite sub_small by lia.
  destruct (Z.leb_spec i (T - P)) as [Hle | Hgt].
  - destruct (match_loop_spec i fuel ltac:(lia) 0 (trace ++ [Candidate i])
                ltac:(lia) ltac:(lia) ltac:(intros; lia))
      as (j1 & trace1 & Hrun & Hiff).
    rewrite Hrun. cbn [bind].
    destruct (Z.eqb_spec j1 P) as [Heq | Hneq].
    + exists i, trace1. split; [reflexivity |]. left.
      split; [| exact Hbelow].
      split; [lia | apply Hiff, Heq].
    + rewrite (add_small i 1 T) by lia.
      apply IH; try lia.
      intros i' Hocc. specialize (Hbelow i' Hocc).
      destruct (Z.eq_dec i' i) as [-> | Hd]; [| lia].
      exfalso. apply Hneq, Hiff, Hocc.
  - exists (-1), trace. split; [reflexivity |]. right.
    split; [reflexivity |].
    intros i' Hocc. specialize (Hbelow i' Hocc).
    destruct Hocc as [Hr _]. lia.
Qed.

(** When the pattern is longer than the text the condition of the outer
    loop fails at once. *)
Lemma search_loop_pattern_longer (fuel : nat) :
  T < P ->
  search_loop (S fuel) text pattern T P 0 [] = Done (-1, []).
Proof.
  intros Hlong.
  pose proof (strlen_bound _ _ text_length) as HT.
  cbn [search_loop]. rewrite sub_small by lia.
  destruct (Z.leb_spec 0 (T - P)); [lia | reflexivity].
Qed.

(** With an empty pattern the first candidate offset is returned before any
    character is compared. *)
Lemma search_loop_pattern_empty (fuel : nat) :
  P = 0 ->
  search_loop (S (S fuel)) text pattern T P 0 [] = Done (0, [Candidate 0]).
Proof.
  intros ->.
  pose proof (strlen_bound _ _ text_length) as HT.
  cbn [search_loop match_loop]. rewrite sub_small by lia.
  destruct (Z.leb_spec 0 (T - 0)); [| lia].
  reflexivity.
Qed.

(** The conversions of the two lengths to [int] keep their values. *)
Lemma string_search_traced_unfold (fuel : nat) :
  string_search_traced fuel text pattern =
  search_loop fuel text pattern T P 0 [].
Proof.
  pose proof (strlen_bound _ _ text_length) as HT.
  pose proof (strlen_bound _ _ pattern_length) as HP.
  unfold string_search_traced.
  rewrite text_length, pattern_length. cbn [bind].
  rewrite !Int32.wrap_small
    by (unfold Int32.in_range, Int32.INT_MIN; lia).
  reflexivity.
Qed.

Lemma comparisons_app (tr1 tr2 : list event) :
  comparisons (tr1 ++ tr2) = comparisons tr1 + comparisons tr2.
Proof.
  unfold comparisons. rewrite filter_app, length_app. lia.
Qed.

(** The inner loop compares each of the characters [j .. P-1] of the
    pattern at most once. *)
Lemma match_loop_comparisons (i : Z) (fuel : nat) :
  forall (j : Z) (trace : list event) (j1 : Z) (trace1 : list event),
    0 <= j <= P ->
    match_loop fuel text pattern P i j trace = Done (j1, trace1) ->
    comparisons trace1 <= comparisons trace + (P - j).
Proof.
  induction fuel as [| fuel IH]; intros j trace j1 trace1 Hj Hrun;
    [discriminate |].
  cbn [match_loop] in Hrun.
  destruct (Z.ltb_spec j P) as [Hlt | Hge].
  - destruct (array_read text (Int32.add i j)) as [t | |];
      try discriminate.
    destruct (array_read pattern j) as [p | |]; try discriminate.
    cbn [bind] in Hrun.
    destruct (negb (Ascii.eqb t p)).
    + injection Hrun as <- <-. rewrite comparisons_app.
      change (comparisons [Compare i j]) with 1. lia.
    + rewrite (add_small j 1 P) in Hrun by lia.
      apply IH in Hrun; [| lia].
      rewrite comparisons_app in Hrun.
      change (comparisons [Compare i j]) with 1 in Hrun. lia.
  - injection Hrun as <- <-. lia.
Qed.

(** The outer loop spends at most [P] comparisons on each of the candidate
    offsets [i .. T-P]. *)
Lemma search_loop_comparisons (fuel : nat) :
  0 < P ->
  forall (i : Z) (trace : list event) (r : Z) (trace1 : list event),
    0 <= i ->
    search_loop fuel text pattern T P i trace = Done (r, trace1) ->
    comparisons trace1 <= comparisons trace + Z.max 0 (T - P + 1 - i) * P.
Proof.
  intros HP0.
  pose proof (strlen_bound _ _ text_length) as HT.
  induction fuel as [| fuel IH]; intros i trace r trace1 Hi Hrun;
    [discriminate |].
  cbn [search_loop] in Hrun.
  rewrite sub_small in Hrun by lia.
  destruct (Z.leb_spec i (T - P)) as [Hle | Hgt].
  - destruct (match_loop fuel text pattern P i 0 (trace ++ [Candidate i]))
      as [[j1 tr] | |] eqn:Hm; try discriminate.
    cbn [bind] in Hrun.
    apply match_loop_comparisons in Hm; [| lia].
    rewrite comparisons_app in Hm.
    change (comparisons [Candidate i]) with 0 in Hm.
    destruct (j1 =? P).
    + injection Hrun as <- <-. nia.
    + rewrite (add_small i 1 T) in Hrun by lia.
      apply IH in Hrun; [| lia]. nia.
  - injection Hrun as <- <-. nia.
Qed.

End Search.

(** In the text of [main] the pattern occurs at offset [10], and at offset
    [15] it does not: [text[15..22)] is "ABCABCA". *)
Example main_pattern_occurs_at_10 :
  occurs_at main_text main_pattern 27 7 10 /\
  ~ occurs_at main_text main_pattern 27 7 15.
Proof.
  split.
  - split; [lia |]. intros j Hj.
    assert (Hcases : j = 0 \/ j = 1 \/ j = 2 \/ j = 3 \/ j = 4 \/ j = 5
                     \/ j = 6) by lia.
    repeat destruct Hcases as [-> | Hcases]; try subst j; reflexivity.
  - intros [_ Hm]. specialize (Hm 2 ltac:(lia)). discriminate Hm.
Qed.

(** C1, as the claim states it: on the arrays of [main] the search returns
    [10], the first offset at which "ABABCAB" occurs, and [main] prints
    [10]; with no amount of fuel is the result [15]. *)
Lemma string_search_main_not_15 :
  string_search 29 main_text main_pattern = Done 10 /\
  main 29 = Done (String.append "Pattern found at index: 10" nl, 0) /\
  (forall fuel : nat, string_search fuel main_text main_pattern <> Done 15)
  /\
  (forall fuel : nat,
      main fuel <> Done (String.append "Pattern found at index: 15" nl, 0)).
Proof.
  assert (H10 : string_search 29 main_text main_pattern = Done 10)
    by (vm_compute; reflexivity).
  assert (Hnot : forall fuel : nat,
             string_search fuel main_text main_pattern <> Done 15).
  { intros fuel H15.
    apply (string_search_fuel _ _ fuel (fuel + 29)) in H15; [| lia].
    apply (string_search_fuel _ _ 29 (fuel + 29)) in H10; [| lia].
    rewrite H10 in H15. discriminate H15. }
  split; [exact H10 |].
  split; [vm_compute; reflexivity |].
  split; [exact Hnot |].
  intros fuel Hmain.
  change (main fuel) with
    (result <- string_search fuel main_text main_pattern ;;
     Done (String.append "Pattern found at index: "
             (String.append (print_int result) nl), 0)) in Hmain.
  remember (string_search fuel main_text main_pattern) as run eqn:E.
  destruct run as [r | |]; try discriminate Hmain.
  symmetry in E.
  apply (string_search_fuel _ _ fuel (fuel + 29)) in E; [| lia].
  apply (string_search_fuel _ _ 29 (fuel + 29)) in H10; [| lia].
  rewrite H10 in E. injection E as <-.
  vm_compute in Hmain. discriminate Hmain.
Qed.

(** C1 (amended): [string_search] applied to the text
    "ABABDABACDABABCABCABCABCABC" and the pattern "ABABCAB" returns the
    index [10], and the program prints that value as its result. *)
Theorem string_search_main_result (fuel : nat) :
  (28 < fuel)%nat ->
  string_search fuel main_text main_pattern = Done 10 /\
  main fuel = Done (String.append "Pattern found at index: 10" nl, 0).
Proof.
  intros Hf.
  assert (H : string_search fuel main_text main_pattern = Done 10).
  { apply (string_search_fuel _ _ 29 fuel); [lia |].
    vm_compute. reflexivity. }
  split; [exact H |].
  unfold main. fold main_text main_pattern. rewrite H. reflexivity.
Qed.

Lemma string_search_main_result_witness :
  (28 < 29)%nat /\
  string_search 29 main_text main_pattern = Done 10 /\
  main 29 = Done (String.append "Pattern found at index: 10" nl, 0).
Proof.
  split; [lia |].
  apply (string_search_main_result 29). lia.
Defined.

(** [strlen] of a run of [n] equal characters closed by [NUL] is [n]. *)
Lemma strlen_repeat (c : ascii) (n : nat) (rest : list ascii) :
  Ascii.eqb c NUL = false ->
  strlen (repeat c n ++ NUL :: rest) = Done (Z.of_nat n).
Proof.
  intros Hc. induction n as [| n IH].
  - reflexivity.
  - cbn [repeat app strlen]. rewrite Hc, IH. cbn [bind].
    f_equal. lia.
Qed.

Lemma strlen_long_text : strlen long_text = Done (2 ^ 31 + 1).
Proof.
  unfold long_text. rewrite strlen_repeat by reflexivity.
  rewrite Z2Nat.id by lia. reflexivity.
Qed.

Lemma strlen_long_pattern : strlen long_pattern = Done (2 ^ 32).
Proof.
  unfold long_pattern. rewrite strlen_repeat by reflexivity.
  rewrite Z2Nat.id by lia. reflexivity.
Qed.

(** The conversion of [strlen(text)] to [int] makes the length of
    [long_text] negative, so that the outer loop is not entered. *)
Lemma search_loop_long_text (pattern : list ascii) (P : Z) (fuel : nat) :
  strlen pattern = Done P ->
  0 <= P <= 1 ->
  string_search_traced (S fuel) long_text pattern = Done (-1, []).
Proof.
  intros HP Hrange.
  unfold string_search_traced.
  rewrite strlen_long_text, HP. cbn [bind search_loop].
  change (Int32.wrap (2 ^ 31 + 1)) with (-2147483647).
  rewrite (Int32.wrap_small P)
    by (unfold Int32.in_range, Int32.INT_MIN, Int32.INT_MAX; lia).
  assert (E : Int32.sub (-2147483647) P = -2147483647 - P).
  { unfold Int32.sub. apply Int32.wrap_small.
    unfold Int32.in_range, Int32.INT_MIN, Int32.INT_MAX. lia. }
  rewrite E.
  destruct (Z.leb_spec 0 (-2147483647 - P)); [lia | reflexivity].
Qed.

(** C5, as the claim states it, for every text: in a text of [2^31 + 1]
    characters ['A'] the pattern ["A"] occurs at offset [0], yet
    [text_len], an [int], is negative and [string_search] returns [-1]
    without entering its loop. *)
Lemma string_search_long_text_not_found :
  strlen long_text = Done (2 ^ 31 + 1) /\
  strlen (c_string "A") = Done 1 /\
  occurs_at long_text (c_string "A") (2 ^ 31 + 1) 1 0 /\
  (forall fuel : nat,
      (0 < fuel)%nat ->
      string_search fuel long_text (c_string "A") = Done (-1)).
Proof.
  split; [exact strlen_long_text |].
  split; [reflexivity |].
  split.
  - split; [lia |].
    intros j Hj. assert (j = 0) as -> by lia.
    change (Z.to_nat (0 + 0)) with 0%nat.
    change (Z.to_nat 0) with 0%nat.
    unfold long_text.
    destruct (Z.to_nat (2 ^ 31 + 1)) as [| n] eqn:E; [lia |].
    reflexivity.
  - intros [| fuel] Hf; [lia |].
    unfold string_search.
    rewrite (search_loop_long_text (c_string "A") 1) by (reflexivity || lia).
    reflexivity.
Qed.

(** C5 (amended): for every text, of length [T], and every non-empty
    pattern, of length [P] ([T] and [P] representable as [int], that is
    at most [INT_MAX]), [string_search] returns, given enough fuel, the
    smallest offset at which the pattern matches [text[i..i+P)] character
    for character; if there is no such offset it returns [-1]. *)
Theorem string_search_first_occurrence
    (text pattern : list ascii) (T P : Z) (fuel : nat) :
  strlen text = Done T ->
  strlen pattern = Done P ->
  T <= Int32.INT_MAX ->
  P <= Int32.INT_MAX ->
  0 < P ->
  (Z.to_nat T + 1 < fuel)%nat ->
  exists r : Z,
    string_search fuel text pattern = Done r /\
    ((occurs_at text pattern T P r /\
      forall i, occurs_at text pattern T P i -> r <= i) \/
     (r = -1 /\ forall i, ~ occurs_at text pattern T P i)).
Proof.
  intros HT HP HfT HfP Hpos Hf.
  pose proof (strlen_bound _ _ HT) as HTb.
  destruct (search_loop_spec text pattern T P HT HP HfT HfP fuel Hpos 0 [])
    as (r & trace & Hrun & Hspec); try lia.
  { intros i' [Hr _]. lia. }
  exists r. split; [| exact Hspec].
  unfold string_search.
  rewrite (string_search_traced_unfold text pattern T P HT HP HfT HfP).
  rewrite Hrun. reflexivity.
Qed.

Lemma string_search_first_occurrence_witness :
  (strlen main_text = Done 27 /\
   strlen main_pattern = Done 7 /\
   27 <= Int32.INT_MAX /\
   7 <= Int32.INT_MAX /\
   0 < 7 /\
   (Z.to_nat 27 + 1 < 29)%nat) /\
  exists r : Z,
    string_search 29 main_text main_pattern = Done r /\
    ((occurs_at main_text main_pattern 27 7 r /\
      forall i, occurs_at main_text main_pattern 27 7 i -> r <= i) \/
     (r = -1 /\ forall i, ~ occurs_at main_text main_pattern 27 7 i)).
Proof.
  assert (H1 : strlen main_text = Done 27) by reflexivity.
  assert (H2 : strlen main_pattern = Done 7) by reflexivity.
  assert (H3 : 27 <= Int32.INT_MAX) by (vm_compute; discriminate).
  assert (H4 : 7 <= Int32.INT_MAX) by (vm_compute; discriminate).
  assert (H5 : 0 < 7) by reflexivity.
  assert (H6 : (Z.to_nat 27 + 1 < 29)%nat) by (vm_compute; lia).
  split; [repeat split; assumption |].
  exact (string_search_first_occurrence
           main_text main_pattern 27 7 29 H1 H2 H3 H4 H5 H6).
Defined.

(** C6, as the claim states it, for every text and pattern: against the
    empty text, a pattern of [2^32] characters has [pattern_len = 0] after
    the conversion to [int]; [text_len - pattern_len] is [0], not
    negative, the body of the outer loop is entered with the candidate
    offset [0], and [string_search] returns [0], not [-1]. *)
Lemma string_search_long_pattern_found :
  strlen (c_string "") = Done 0 /\
  strlen long_pattern = Done (2 ^ 32) /\
  0 < 2 ^ 32 /\
  Int32.sub (Int32.wrap 0) (Int32.wrap (2 ^ 32)) = 0 /\
  (forall fuel : nat,
      (1 < fuel)%nat ->
      string_search_traced fuel (c_string "") long_pattern
        = Done (0, [Candidate 0]) /\
      string_search fuel (c_string "") long_pattern = Done 0).
Proof.
  split; [reflexivity |].
  split; [exact strlen_long_pattern |].
  split; [reflexivity |].
  split; [reflexivity |].
  intros [| [| fuel]] Hf; try lia.
  assert (Hrun : string_search_traced (S (S fuel)) (c_string "") long_pattern
                 = Done (0, [Candidate 0])).
  { unfold string_search_traced.
    rewrite strlen_long_pattern.
    change (strlen (c_string "")) with (Done 0).
    cbn [bind].
    change (Int32.wrap (2 ^ 32)) with 0.
    change (Int32.wrap 0) with 0.
    reflexivity. }
  split; [exact Hrun |].
  unfold string_search. rewrite Hrun. reflexivity.
Qed.

(** C6 (amended): for every text of length [T] and pattern of length [P]
    with [P > T] (both representable as [int], that is at most
    [INT_MAX]), [text_len - pattern_len] is negative, the body of the
    candidate-offset loop is never entered, no character is compared, and
    [string_search] returns [-1]. *)
Theorem string_search_pattern_longer
    (text pattern : list ascii) (T P : Z) (fuel : nat) :
  strlen text = Done T ->
  strlen pattern = Done P ->
  T <= Int32.INT_MAX ->
  P <= Int32.INT_MAX ->
  T < P ->
  (0 < fuel)%nat ->
  Int32.sub (Int32.wrap T) (Int32.wrap P) < 0 /\
  string_search_traced fuel text pattern = Done (-1, []) /\
  string_search fuel text pattern = Done (-1).
Proof.
  intros HT HP HfT HfP Hlong Hf.
  pose proof (strlen_bound _ _ HT) as HTb.
  assert (Hrun : string_search_traced fuel text pattern = Done (-1, [])).
  { rewrite (string_search_traced_unfold text pattern T P HT HP HfT HfP).
    destruct fuel as [| fuel]; [lia |].
    apply (search_loop_pattern_longer text pattern T P HT HfT HfP).
    exact Hlong. }
  split; [| split; [exact Hrun |]].
  - rewrite !Int32.wrap_small
      by (unfold Int32.in_range, Int32.INT_MIN; lia).
    rewrite sub_small by lia. lia.
  - unfold string_search. rewrite Hrun. reflexivity.
Qed.

Lemma string_search_pattern_longer_witness :
  (strlen (c_string "AB") = Done 2 /\
   strlen (c_string "ABC") = Done 3 /\
   2 <= Int32.INT_MAX /\
   3 <= Int32.INT_MAX /\
   2 < 3 /\
   (0 < 1)%nat) /\
  Int32.sub (Int32.wrap 2) (Int32.wrap 3) < 0 /\
  string_search_traced 1 (c_string "AB") (c_string "ABC") = Done (-1, []) /\
  string_search 1 (c_string "AB") (c_string "ABC") = Done (-1).
Proof.
  assert (H1 : strlen (c_string "AB") = Done 2) by reflexivity.
  assert (H2 : strlen (c_string "ABC") = Done 3) by reflexivity.
  assert (H3 : 2 <= Int32.INT_MAX) by (vm_compute; discriminate).
  assert (H4 : 3 <= Int32.INT_MAX) by (vm_compute; discriminate).
  assert (H5 : 2 < 3) by reflexivity.
  assert (H6 : (0 < 1)%nat) by lia.
  split; [repeat split; assumption |].
  exact (string_search_pattern_longer
           (c_string "AB") (c_string "ABC") 2 3 1 H1 H2 H3 H4 H5 H6).
Defined.

(** C7, as the claim states it, for every text: on a text of [2^31 + 1]
    characters [text_len], an [int], is negative, the outer loop is not
    entered, and [string_search] with the empty pattern returns [-1], not
    [0]. *)
Lemma string_search_long_text_empty_pattern :
  strlen long_text = Done (2 ^ 31 + 1) /\
  strlen (c_string "") = Done 0 /\
  (forall fuel : nat,
      (0 < fuel)%nat ->
      string_search fuel long_text (c_string "") = Done (-1) /\
      string_search fuel long_text (c_string "") <> Done 0).
Proof.
  split; [exact strlen_long_text |].
  split; [reflexivity |].
  intros [| fuel] Hf; [lia |].
  unfold string_search.
  rewrite (search_loop_long_text (c_string "") 0) by (reflexivity || lia).
  split; [reflexivity | discriminate].
Qed.

(** C7 (amended): for every text (the empty text included) whose length
    is representable as [int], that is at most [INT_MAX],
    [string_search] with an empty pattern returns [0]. *)
Theorem string_search_empty_pattern
    (text pattern : list ascii) (T : Z) (fuel : nat) :
  strlen text = Done T ->
  strlen pattern = Done 0 ->
  T <= Int32.INT_MAX ->
  (1 < fuel)%nat ->
  string_search fuel text pattern = Done 0.
Proof.
  intros HT HP HfT Hf.
  unfold string_search.
  rewrite (string_search_traced_unfold text pattern T 0 HT HP HfT)
    by (unfold Int32.INT_MAX; lia).
  destruct fuel as [| [| fuel]]; try lia.
  assert (H0 : 0 <= Int32.INT_MAX) by (unfold Int32.INT_MAX; lia).
  erewrite search_loop_pattern_empty; eauto.
Qed.

Lemma string_search_empty_pattern_witness :
  (strlen main_text = Done 27 /\
   strlen (c_string "") = Done 0 /\
   27 <= Int32.INT_MAX /\
   (1 < 2)%nat) /\
  string_search 2 main_text (c_string "") = Done 0.
Proof.
  assert (H1 : strlen main_text = Done 27) by reflexivity.
  assert (H2 : strlen (c_string "") = Done 0) by reflexivity.
  assert (H3 : 27 <= Int32.INT_MAX) by (vm_compute; discriminate).
  assert (H4 : (1 < 2)%nat) by lia.
  split; [repeat split; assumption |].
  exact (string_search_empty_pattern
           main_text (c_string "") 27 2 H1 H2 H3 H4).
Defined.

(** X1: for every text of length [T] and pattern of length [P] (both
    representable as [int]), [string_search], given enough fuel, returns
    after at most [(T - P + 1) * P] character comparisons, and after none
    when [T < P]. *)
Theorem string_search_comparisons
    (text pattern : list ascii) (T P : Z) (fuel : nat) :
  strlen text = Done T ->
  strlen pattern = Done P ->
  T <= Int32.INT_MAX ->
  P <= Int32.INT_MAX ->
  (Z.to_nat T + 1 < fuel)%nat ->
  exists (r : Z) (trace : list event),
    string_search_traced fuel text pattern = Done (r, trace) /\
    comparisons trace <= Z.max 0 (T - P + 1) * P.
Proof.
  intros HT HP HfT HfP Hf.
  pose proof (strlen_bound _ _ HT) as HTb.
  pose proof (strlen_bound _ _ HP) as HPb.
  rewrite (string_search_traced_unfold text pattern T P HT HP HfT HfP).
  destruct (Z.eq_dec P 0) as [HP0 | HP0].
  - destruct fuel as [| [| fuel]]; try lia.
    exists 0, [Candidate 0]. split.
    + eapply search_loop_pattern_empty; eauto.
    + subst P. change (comparisons [Candidate 0]) with 0. lia.
  - destruct (search_loop_spec text pattern T P HT HP HfT HfP fuel
                ltac:(lia) 0 [])
      as (r & trace & Hrun & _); try lia.
    { intros i' [Hr _]. lia. }
    exists r, trace. split; [exact Hrun |].
    eapply search_loop_comparisons in Hrun; eauto; try lia.
    change (comparisons []) with 0 in Hrun.
    rewrite Z.sub_0_r in Hrun. lia.
Qed.

Lemma string_search_comparisons_witness :
  (strlen main_text = Done 27 /\
   strlen main_pattern = Done 7 /\
   27 <= Int32.INT_MAX /\
   7 <= Int32.INT_MAX /\
   (Z.to_nat 27 + 1 < 29)%nat) /\
  exists (r : Z) (trace : list event),
    string_search_traced 29 main_text main_pattern = Done (r, trace) /\
    comparisons trace <= Z.max 0 (27 - 7 + 1) * 7.
Proof.
  assert (H1 : strlen main_text = Done 27) by reflexivity.
  assert (H2 : strlen main_pattern = Done 7) by reflexivity.
  assert (H3 : 27 <= Int32.INT_MAX) by (vm_compute; discriminate).
  assert (H4 : 7 <= Int32.INT_MAX) by (vm_compute; discriminate).
  assert (H5 : (Z.to_nat 27 + 1 < 29)%nat) by (vm_compute; lia).
  split; [repeat split; assumption |].
  exact (string_search_comparisons main_text main_pattern 27 7 29
           H1 H2 H3 H4 H5).
Defined.

End StringSearchProperties.

(** ** polynomial_eval.c *)

Section PolynomialProperties.

Import PolynomialEval.

(** On the operands of [main] no binary64 operation rounds: the loop
    run with IEEE arithmetic ends with the number [87.25], which is
    [6139672929501184 * 2^(-46)], the value found over the rationals. *)
Theorem polynomial_binary64_main :
  polynomial_binary64 5 2.5%float [1.0; 2.0; 3.0; 4.0]%float 3
    = Done 87.25%float /\
  Prim2SF 87.25%float = S754_finite false 6139672929501184 (-46) /\
  (inject_Z 6139672929501184 / inject_Z (2 ^ 46) == 87.25)%Q.
Proof. repeat split. Qed.

(** C3, as the claim states it: over the rationals the value is [87.25],
    which is not [86], and [main] prints [87.25], not [86.00]; this for
    every amount of fuel the evaluation finishes with. *)
Lemma polynomial_main_not_86 :
  (exists r : Q,
      polynomial 5 main_x main_coeffs 3 = Done r /\
      (r == 87.25)%Q /\ ~ (r == 86)%Q) /\
  main 5 = Done (String.append "Result: 87.25" nl, 0) /\
  (forall (fuel : nat) (r : Q),
      polynomial fuel main_x main_coeffs 3 = Done r -> ~ (r == 86)%Q) /\
  (forall fuel : nat,
      main fuel <> Done (String.append "Result: 86.00" nl, 0)).
Proof.
  split; [| split; [| split]].
  - eexists. split; [vm_compute; reflexivity |].
    split; vm_compute; [reflexivity | discriminate].
  - vm_compute. reflexivity.
  - intros fuel r H.
    destruct fuel as [| [| [| [| [| fuel]]]]]; vm_compute in H;
      try discriminate H.
    injection H as <-. vm_compute. discriminate.
  - intros fuel.
    destruct fuel as [| [| [| [| [| fuel]]]]]; vm_compute; discriminate.
Qed.

(** C3 (amended): [polynomial] evaluated with the coefficients
    [{1.0, 2.0, 3.0, 4.0}] (degree 3) at [x = 2.5] equals
    [1 + 2(2.5) + 3(2.5)^2 + 4(2.5)^3 = 87.25] over exact rational
    arithmetic, and the program prints [87.25]. *)
Theorem polynomial_main_result (fuel : nat) :
  (4 < fuel)%nat ->
  exists r : Q,
    polynomial fuel main_x main_coeffs 3 = Done r /\
    (r == 1 + 2 * 2.5 + 3 * 2.5 ^ 2 + 4 * 2.5 ^ 3)%Q /\
    (r == 87.25)%Q /\
    main fuel = Done (String.append "Result: 87.25" nl, 0).
Proof.
  intros Hf.
  destruct fuel as [| [| [| [| [| fuel]]]]]; try lia.
  eexists. split; [vm_compute; reflexivity |].
  split; [vm_compute; reflexivity |].
  split; vm_compute; reflexivity.
Qed.

Lemma polynomial_main_result_witness :
  (4 < 5)%nat /\
  exists r : Q,
    polynomial 5 main_x main_coeffs 3 = Done r /\
    (r == 1 + 2 * 2.5 + 3 * 2.5 ^ 2 + 4 * 2.5 ^ 3)%Q /\
    (r == 87.25)%Q /\
    main 5 = Done (String.append "Result: 87.25" nl, 0).
Proof.
  split; [lia |].
  apply (polynomial_main_result 5). lia.
Defined.

(** The loop, entered at [i] with [power] and [result]: it adds the terms
    of the coefficients [i .. degree], the first of them scaled by
    [power]. *)
Lemma polynomial_loop_spec (x : Q) (coeffs : list Q) (degree : Z)
    (fuel : nat) :
  degree < Z.of_nat (List.length coeffs) ->
  degree < Int32.INT_MAX ->
  forall (i : Z) (result power : Q),
    0 <= i <= degree + 1 ->
    (Z.to_nat (degree + 1 - i) < fuel)%nat ->
    exists r : Q,
      polynomial_loop Q Qplus Qmult fuel x coeffs degree i result power
        = Done r /\
      (r == result
            + poly_value x
                (firstn (Z.to_nat (degree + 1 - i)) (skipn (Z.to_nat i) coeffs))
                power)%Q.
Proof.
  intros Hlen Hdeg.
  induction fuel as [| fuel IH]; intros i result power Hi Hf; [lia |].
  cbn [polynomial_loop].
  destruct (Z.leb_spec i degree) as [Hle | Hgt].
  - destruct (array_read_skipn coeffs i ltac:(lia)) as (c & Hc & Hsk).
    rewrite Hc. cbn [bind].
    rewrite (add_small i 1 (degree + 1)) by lia.
    destruct (IH (i + 1) (result + c * power)%Q (power * x)%Q
                ltac:(lia) ltac:(lia)) as (r & Hr & Er).
    exists r. split; [exact Hr |].
    rewrite Er, Hsk.
    replace (Z.to_nat (degree + 1 - i))
      with (S (Z.to_nat (degree + 1 - (i + 1)))) by lia.
    cbn [firstn poly_value]. ring.
  - exists result. split; [reflexivity |].
    replace (Z.to_nat (degree + 1 - i)) with O by lia.
    cbn [firstn poly_value]. ring.
Qed.

(** With exact rational arithmetic in place of [double], and for every
    [degree] below [INT_MAX] from [-1] up to the last index of the array,
    the loop returns the value at [x] of the polynomial with the
    coefficients [coeffs[0 .. degree]]: the sum of [coeffs[k] * x^k]. *)
Lemma polynomial_evaluates (x : Q) (coeffs : list Q) (degree : Z)
    (fuel : nat) :
  -1 <= degree < Z.of_nat (List.length coeffs) ->
  degree < Int32.INT_MAX ->
  (Z.to_nat (degree + 1) < fuel)%nat ->
  exists r : Q,
    polynomial fuel x coeffs degree = Done r /\
    (r == poly_value x (firstn (Z.to_nat (degree + 1)) coeffs) 1)%Q.
Proof.
  intros Hd Hmax Hf.
  destruct (polynomial_loop_spec x coeffs degree fuel ltac:(lia) Hmax
              0 0%Q 1%Q ltac:(lia))
    as (r & Hr & Er).
  { rewrite Z.sub_0_r. exact Hf. }
  exists r. split; [exact Hr |].
  rewrite Er, Z.sub_0_r. cbn [Z.to_nat skipn]. ring.
Qed.

End PolynomialProperties.

(** ** embedded_systems.c, optimization_examples.c, tree_traversal.c *)

Section SumOfSquaresProperties.

Import SumOfSquares.

(** The first loop, entered at [i], keeps the elements below [i] and
    assigns [k * 2] to every element [k] from [i] on. *)
Lemma fill_loop_spec (n : nat) :
  forall (i : Z) (data : list Z),
    0 <= i ->
    Z.of_nat n = 100 - i ->
    List.length data = 100%nat ->
    fill_loop data i =
    Done (firstn (Z.to_nat i) data
            ++ map (fun k => Int32.mul (i + Z.of_nat k) 2) (seq 0 n)).
Proof.
  induction n as [| n IH]; intros i data Hi Hn Hlen;
    rewrite fill_loop_equation_1;
    destruct (Z_lt_dec i 100) as [Hlt | Hge]; try lia;
    cbn [fill_loop_unfold_clause_1].
  - rewrite firstn_all2 by lia. now rewrite app_nil_r.
  - unfold array_write.
    destruct (Z.ltb_spec i 0) as [| _]; [lia |].
    destruct (Nat.ltb_spec (Z.to_nat i) (List.length data)) as [_ |];
      [| lia].
    cbn [bind].
    rewrite (add_small i 1 100) by (unfold Int32.INT_MAX; lia).
    assert (Hfl : List.length (firstn (Z.to_nat i) data) = Z.to_nat i)
      by (rewrite length_firstn; lia).
    rewrite IH; try lia.
    + f_equal.
      replace (Z.to_nat (i + 1)) with (Z.to_nat i + 1)%nat by lia.
      rewrite firstn_app, Hfl, firstn_all2 by lia.
      replace (Z.to_nat i + 1 - Z.to_nat i)%nat with 1%nat by lia.
      cbn [firstn]. rewrite <- app_assoc. f_equal.
      cbn [seq map app]. rewrite Z.add_0_r. f_equal.
      rewrite <- seq_shift, map_map.
      apply map_ext. intros k. f_equal. lia.
    + rewrite length_app, Hfl. cbn [List.length].
      rewrite length_skipn. lia.
Qed.

(** The partial sums of a sequence of non-negative numbers lie between
    [0] and the sum of the whole sequence. *)
Lemma list_sum_firstn_bounds (l : list Z) :
  Forall (fun x => 0 <= x) l ->
  forall k : nat, 0 <= list_sum (firstn k l) <= list_sum l.
Proof.
  unfold list_sum.
  induction 1 as [| x l Hx Hl IH]; intros k.
  - destruct k; cbn [firstn fold_right]; lia.
  - destruct k as [| k]; cbn [firstn fold_right].
    + specialize (IH O). cbn [firstn fold_right] in IH. lia.
    + specialize (IH k). lia.
Qed.

(** X18: whatever the 100 elements of [data] hold before the first loop,
    that loop leaves [data[i] = i * 2] for every [i]; every square
    [data[i] * data[i]] and every partial sum of the squares lies within
    the range of [int], so that no operation of the second loop wraps
    around and its result is the sum of the squares over [Z], [1313400];
    each of the three programs prints this number and returns exit code
    [0]. *)
Theorem sum_of_squares_main_output (data : list Z) :
  List.length data = 100%nat ->
  fill_loop data 0 = Done doubles /\
  Forall Int32.in_range (squares doubles) /\
  (forall k : nat, Int32.in_range (list_sum (firstn k (squares doubles)))) /\
  square_loop doubles 0 0 = Done (list_sum (squares doubles)) /\
  list_sum (squares doubles) = 1313400 /\
  main data = Done (String.append "Result: 1313400" nl, 0).
Proof.
  intros Hlen.
  assert (Hfill : fill_loop data 0 = Done doubles).
  { rewrite (fill_loop_spec 100 0 data) by (try assumption; lia).
    cbn [Z.to_nat firstn app]. vm_compute. reflexivity. }
  assert (Hsum : list_sum (squares doubles) = 1313400) by reflexivity.
  assert (Hsq : forall d, In d (squares doubles) ->
                          0 <= d <= Int32.INT_MAX).
  { assert (Hb : forallb (fun d => (0 <=? d) && (d <=? Int32.INT_MAX))
                   (squares doubles) = true) by (vm_compute; reflexivity).
    rewrite forallb_forall in Hb. intros d Hd.
    specialize (Hb d Hd). apply andb_prop in Hb.
    destruct Hb as [H1 H2]. apply Z.leb_le in H1, H2. lia. }
  assert (Hrun : square_loop doubles 0 0 = Done (list_sum (squares doubles)))
    by (vm_compute; reflexivity).
  split; [exact Hfill |].
  split.
  { apply Forall_forall. intros d Hd. specialize (Hsq d Hd).
    unfold Int32.in_range, Int32.INT_MIN. lia. }
  split.
  { intros k.
    assert (Hpos : Forall (fun x => 0 <= x) (squares doubles)).
    { apply Forall_forall. intros d Hd. specialize (Hsq d Hd). lia. }
    pose proof (list_sum_firstn_bounds _ Hpos k) as Hb.
    rewrite Hsum in Hb.
    unfold Int32.in_range, Int32.INT_MIN, Int32.INT_MAX. lia. }
  split; [exact Hrun |].
  split; [exact Hsum |].
  unfold main. rewrite Hfill. cbn [bind]. rewrite Hrun. reflexivity.
Qed.

Lemma sum_of_squares_main_output_witness :
  List.length (repeat (-1) 100) = 100%nat /\
  fill_loop (repeat (-1) 100) 0 = Done doubles /\
  Forall Int32.in_range (squares doubles) /\
  (forall k : nat, Int32.in_range (list_sum (firstn k (squares doubles)))) /\
  square_loop doubles 0 0 = Done (list_sum (squares doubles)) /\
  list_sum (squares doubles) = 1313400 /\
  main (repeat (-1) 100) = Done (String.append "Result: 1313400" nl, 0).
Proof.
  assert (H : List.length (repeat (-1) 100) = 100%nat) by reflexivity.
  exact (conj H (sum_of_squares_main_output (repeat (-1) 100) H)).
Defined.

End SumOfSquaresProperties.

(** ** The programs as a whole *)

(** Each of these programs writes one line to standard output and
    returns exit code [0]: the maximum [12], the gcd [6], and the sum [15]
    computed both ways. *)
Theorem programs_print_one_line :
  ArrayOperations.main 10
    = Done (String.append "Maximum element: 12" nl, 0) /\
  GcdAlgorithm.main = (String.append "GCD of 48 and 18 is 6" nl, 0) /\
  New1.main 6 = Done (String.append "Sum (Unoptimized): 15" nl, 0) /\
  New2.main 6 = Done (String.append "Sum (Optimized): 15" nl, 0).
Proof. repeat split. Qed.

(* ===================================================================== *)
(** * Part III: edge cases, bounds and shapes of the runs                 *)
(* ===================================================================== *)

(** ** array_operations.c: [n] against the length of the array *)

Section FindMaxEdges.

Import ArrayOperations.

Lemma array_read_beyond {A : Type} (arr : list A) (i : Z) :
  Z.of_nat (List.length arr) <= i -> array_read arr i = Fault.
Proof.
  intros Hi. unfold array_read.
  destruct (Z.ltb_spec i 0) as [| _]; [reflexivity |].
  destruct (nth_error arr (Z.to_nat i)) as [x |] eqn:E; [| reflexivity].
  assert (Hlt : (Z.to_nat i < List.length arr)%nat)
    by (apply nth_error_Some; congruence).
  lia.
Qed.

(** The loop with any [n] up to the length: it folds [Z.max] over the
    elements [i .. n-1]. *)
Lemma find_max_loop_prefix (arr : list Z) (n : Z) (fuel : nat) :
  n <= Z.of_nat (List.length arr) ->
  n <= Int32.INT_MAX ->
  forall i max : Z,
    0 <= i ->
    (Z.to_nat (n - i) < fuel)%nat ->
    find_max_loop fuel arr n i max =
    Done (fold_left Z.max
            (firstn (Z.to_nat (n - i)) (skipn (Z.to_nat i) arr)) max).
Proof.
  intros Hn Hmax. induction fuel as [| fuel IH]; intros i max Hi Hf; [lia |].
  cbn [find_max_loop].
  destruct (Z.ltb_spec i n) as [Hlt | Hge].
  - destruct (array_read_skipn arr i ltac:(lia)) as (x & Hx & Hsk).
    rewrite Hx. cbn [bind].
    assert (Hm : (if x >? max then Done x else Done max)
                 = Done (Z.max max x)).
    { destruct (Z.gtb_spec x max); f_equal; lia. }
    rewrite Hm. cbn [bind].
    rewrite (add_small i 1 n) by lia.
    rewrite IH by lia. rewrite Hsk.
    replace (Z.to_nat (n - i)) with (S (Z.to_nat (n - (i + 1)))) by lia.
    reflexivity.
  - replace (Z.to_nat (n - i)) with O by lia. reflexivity.
Qed.

(** X3: called on a non-empty array with any [n] up to its length,
    [find_max] returns the greatest of the first [n] elements; with
    [n <= 1], zero and negative values included, the loop is not entered
    and it returns [arr[0]]. *)
Theorem find_max_prefix (arr : list Z) (n : Z) (fuel : nat) :
  arr <> [] ->
  n <= Z.of_nat (List.length arr) ->
  n <= Int32.INT_MAX ->
  (Z.to_nat (n - 1) < fuel)%nat ->
  exists m : Z,
    find_max fuel arr n = Done m /\
    In m (firstn (Z.to_nat (Z.max n 1)) arr) /\
    (forall x : Z, In x (firstn (Z.to_nat (Z.max n 1)) arr) -> x <= m) /\
    (n <= 1 -> Some m = nth_error arr 0).
Proof.
  intros Hne Hn Hmax Hf.
  destruct arr as [| a arr]; [contradiction |].
  exists (fold_left Z.max (firstn (Z.to_nat (n - 1)) arr) a).
  assert (Hfirst : firstn (Z.to_nat (Z.max n 1)) (a :: arr)
                   = a :: firstn (Z.to_nat (n - 1)) arr).
  { replace (Z.to_nat (Z.max n 1)) with (S (Z.to_nat (n - 1))) by lia.
    reflexivity. }
  rewrite Hfirst.
  split; [| split; [| split]].
  - unfold find_max.
    cbn [array_read Z.ltb Z.compare Z.to_nat nth_error bind].
    rewrite find_max_loop_prefix by (try assumption; lia).
    reflexivity.
  - destruct (fold_left_max_In (firstn (Z.to_nat (n - 1)) arr) a)
      as [-> | H]; [left | right]; auto.
  - destruct (fold_left_max_ge (firstn (Z.to_nat (n - 1)) arr) a)
      as [H1 H2].
    intros x [<- | Hx]; auto.
  - intros Hn1. replace (Z.to_nat (n - 1)) with O by lia. reflexivity.
Qed.

Lemma find_max_prefix_witness :
  ([5; 9; 2; 11] <> [] /\
   3 <= Z.of_nat (List.length [5; 9; 2; 11]) /\
   3 <= Int32.INT_MAX /\
   (Z.to_nat (3 - 1) < 3)%nat) /\
  exists m : Z,
    find_max 3 [5; 9; 2; 11] 3 = Done m /\
    In m (firstn (Z.to_nat (Z.max 3 1)) [5; 9; 2; 11]) /\
    (forall x : Z,
        In x (firstn (Z.to_nat (Z.max 3 1)) [5; 9; 2; 11]) -> x <= m) /\
    (3 <= 1 -> Some m = nth_error [5; 9; 2; 11] 0).
Proof.
  assert (H1 : [5; 9; 2; 11] <> []) by discriminate.
  assert (H2 : 3 <= Z.of_nat (List.length [5; 9; 2; 11]))
    by (vm_compute; discriminate).
  assert (H3 : 3 <= Int32.INT_MAX) by (vm_compute; discriminate).
  assert (H4 : (Z.to_nat (3 - 1) < 3)%nat) by (vm_compute; lia).
  split; [repeat split; assumption |].
  exact (find_max_prefix [5; 9; 2; 11] 3 3 H1 H2 H3 H4).
Defined.

(** The loop with an [n] beyond the length runs into the end of the
    array. *)
Lemma find_max_loop_beyond (arr : list Z) (n : Z) (fuel : nat) :
  Z.of_nat (List.length arr) < n <= Int32.INT_MAX ->
  forall i max : Z,
    0 <= i <= Z.of_nat (List.length arr) ->
    (Z.to_nat (Z.of_nat (List.length arr) - i) < fuel)%nat ->
    find_max_loop fuel arr n i max = Fault.
Proof.
  intros Hn. induction fuel as [| fuel IH]; intros i max Hi Hf; [lia |].
  cbn [find_max_loop].
  destruct (Z.ltb_spec i n) as [_ | Hge]; [| lia].
  destruct (Z.eq_dec i (Z.of_nat (List.length arr))) as [-> | Hd].
  - rewrite array_read_beyond by lia. reflexivity.
  - destruct (array_read_skipn arr i ltac:(lia)) as (x & Hx & _).
    rewrite Hx. cbn [bind].
    destruct (x >? max); cbn [bind];
      rewrite (add_small i 1 n) by lia; apply IH; lia.
Qed.

(** X4: [find_max] reads outside of the array when the array is empty
    (it reads [arr[0]] before it looks at [n]) and when [n] exceeds the
    length (the loop reaches [arr[length]]); neither case is checked. *)
Theorem find_max_out_of_bounds (arr : list Z) (n : Z) (fuel : nat) :
  arr = [] \/ Z.of_nat (List.length arr) < n <= Int32.INT_MAX ->
  (List.length arr <= fuel)%nat ->
  find_max fuel arr n = Fault.
Proof.
  intros [-> | Hn] Hf; [reflexivity |].
  destruct arr as [| a arr]; [reflexivity |].
  unfold find_max.
  cbn [array_read Z.ltb Z.compare Z.to_nat nth_error bind].
  apply find_max_loop_beyond; [exact Hn | |]; cbn [List.length] in *; lia.
Qed.

Lemma find_max_out_of_bounds_witness :
  (([5; 9] : list Z) = [] \/
   Z.of_nat (List.length [5; 9]) < 3 <= Int32.INT_MAX) /\
  (List.length [5; 9] <= 2)%nat /\
  find_max 2 [5; 9] 3 = Fault.
Proof.
  assert (H1 : ([5; 9] : list Z) = [] \/
               Z.of_nat (List.length [5; 9]) < 3 <= Int32.INT_MAX)
    by (right; vm_compute; split; [reflexivity | discriminate]).
  assert (H2 : (List.length [5; 9] <= 2)%nat) by (simpl; lia).
  exact (conj H1 (conj H2 (find_max_out_of_bounds [5; 9] 3 2 H1 H2))).
Defined.

End FindMaxEdges.

(** ** new1.c and new2.c: [size] against the length of the array *)

Section SumArrayEdges.

Import New1 New2.

Lemma sub_1_small (size : Z) :
  Int32.INT_MIN < size <= Int32.INT_MAX -> Int32.sub size 1 = size - 1.
Proof.
  intros H. apply Int32.wrap_small.
  unfold Int32.in_range, Int32.INT_MIN, Int32.INT_MAX in *. lia.
Qed.

Lemma list_sum_firstn_S (x : Z) (l : list Z) (k : nat) :
  list_sum (firstn (S k) (x :: l)) = x + list_sum (firstn k l).
Proof. reflexivity. Qed.

(** [sum_loop] with any [size] up to the length adds the elements
    [i .. size-1]. *)
Lemma sum_loop_prefix (arr : list Z) (size : Z) (fuel : nat) :
  size <= Z.of_nat (List.length arr) ->
  size <= Int32.INT_MAX ->
  forall i sum : Z,
    0 <= i ->
    Int32.in_range sum ->
    (Z.to_nat (size - i) < fuel)%nat ->
    sum_loop fuel arr size i sum =
    Done (Int32.wrap
            (sum + list_sum (firstn (Z.to_nat (size - i))
                                    (skipn (Z.to_nat i) arr)))).
Proof.
  intros Hn Hmax.
  induction fuel as [| fuel IH]; intros i sum Hi Hs Hf; [lia |].
  cbn [sum_loop].
  destruct (Z.ltb_spec i size) as [Hlt | Hge].
  - destruct (array_read_skipn arr i ltac:(lia)) as (x & Hx & Hsk).
    rewrite Hx, Hsk. cbn [bind].
    rewrite (add_small i 1 size) by lia.
    rewrite IH; [| lia | apply Int32.wrap_in_range | lia].
    replace (Z.to_nat (size - i)) with (S (Z.to_nat (size - (i + 1))))
      by lia.
    rewrite list_sum_firstn_S.
    unfold Int32.add, Int32.mul. f_equal.
    rewrite Z.mul_1_r, wrap_add_l, (Z.add_comm sum), <- Z.add_assoc,
      wrap_add_l.
    f_equal. lia.
  - replace (Z.to_nat (size - i)) with O by lia.
    cbn [firstn list_sum fold_right].
    rewrite Z.add_0_r, Int32.wrap_small; [reflexivity | assumption].
Qed.

Lemma leftover_loop_prefix (arr : list Z) (size : Z) (fuel : nat) :
  size <= Z.of_nat (List.length arr) ->
  size <= Int32.INT_MAX ->
  forall i sum : Z,
    0 <= i ->
    Int32.in_range sum ->
    (Z.to_nat (size - i) < fuel)%nat ->
    leftover_loop fuel arr size i sum =
    Done (Int32.wrap
            (sum + list_sum (firstn (Z.to_nat (size - i))
                                    (skipn (Z.to_nat i) arr)))).
Proof.
  intros Hn Hmax.
  induction fuel as [| fuel IH]; intros i sum Hi Hs Hf; [lia |].
  cbn [leftover_loop].
  destruct (Z.ltb_spec i size) as [Hlt | Hge].
  - destruct (array_read_skipn arr i ltac:(lia)) as (x & Hx & Hsk).
    rewrite Hx, Hsk. cbn [bind].
    rewrite (add_small i 1 size) by lia.
    rewrite IH; [| lia | apply Int32.wrap_in_range | lia].
    replace (Z.to_nat (size - i)) with (S (Z.to_nat (size - (i + 1))))
      by lia.
    rewrite list_sum_firstn_S.
    unfold Int32.add. f_equal. rewrite wrap_add_l. f_equal. lia.
  - replace (Z.to_nat (size - i)) with O by lia.
    cbn [firstn list_sum fold_right].
    rewrite Z.add_0_r, Int32.wrap_small; [reflexivity | assumption].
Qed.

Lemma unrolled_then_leftover_prefix (arr : list Z) (size : Z)
    (fuel2 fuel1 : nat) :
  Int32.INT_MIN < size ->
  size <= Z.of_nat (List.length arr) ->
  size <= Int32.INT_MAX ->
  forall i sum : Z,
    0 <= i ->
    Int32.in_range sum ->
    (Z.to_nat (size - i) < fuel1)%nat ->
    (Z.to_nat (size - i) < fuel2)%nat ->
    ('(i', sum') <- unrolled_loop fuel1 arr size i sum ;;
     leftover_loop fuel2 arr size i' sum') =
    Done (Int32.wrap
            (sum + list_sum (firstn (Z.to_nat (size - i))
                                    (skipn (Z.to_nat i) arr)))).
Proof.
  intros Hmin Hn Hmax.
  induction fuel1 as [| fuel1 IH]; intros i sum Hi Hs Hf1 Hf2; [lia |].
  cbn [unrolled_loop].
  rewrite sub_1_small by lia.
  destruct (Z.ltb_spec i (size - 1)) as [Hlt | Hge].
  - destruct (array_read_skipn arr i ltac:(lia)) as (x & Hx & Hsk).
    destruct (array_read_skipn arr (i + 1) ltac:(lia)) as (y & Hy & Hsk').
    rewrite (add_small i 1 size) by lia.
    rewrite (add_small i 2 size) by lia.
    rewrite Hx. cbn [bind]. rewrite Hy. cbn [bind].
    rewrite IH; [| lia | apply Int32.wrap_in_range | lia | lia].
    rewrite Hsk, Hsk'. replace (i + 1 + 1) with (i + 2) by lia.
    replace (Z.to_nat (size - i))
      with (S (S (Z.to_nat (size - (i + 2))))) by lia.
    rewrite !list_sum_firstn_S.
    unfold Int32.add. f_equal.
    rewrite wrap_add_l, (Z.add_comm sum), <- Z.add_assoc, wrap_add_l.
    f_equal. lia.
  - cbn [bind]. apply leftover_loop_prefix; assumption.
Qed.

(** X5: called with any [size] up to the length of the array, zero and
    negative values (above [INT_MIN]) included, both functions return the
    sum of the first [size] elements modulo 2^32; for [size <= 0] that
    is [0], and no element is read. *)
Theorem sum_array_prefix (arr : list Z) (size : Z) (fuel : nat) :
  Int32.INT_MIN < size <= Int32.INT_MAX ->
  size <= Z.of_nat (List.length arr) ->
  (Z.to_nat size < fuel)%nat ->
  sum_array_unoptimized fuel arr size =
    Done (Int32.wrap (list_sum (firstn (Z.to_nat size) arr))) /\
  sum_array_optimized fuel arr size =
    Done (Int32.wrap (list_sum (firstn (Z.to_nat size) arr))) /\
  (size <= 0 -> sum_array_unoptimized fuel arr size = Done 0 /\
                sum_array_optimized fuel arr size = Done 0).
Proof.
  intros Hr Hn Hf.
  assert (Hu : sum_array_unoptimized fuel arr size =
               Done (Int32.wrap (list_sum (firstn (Z.to_nat size) arr)))).
  { unfold sum_array_unoptimized.
    rewrite (sum_loop_prefix arr size fuel Hn (proj2 Hr) 0 0
               ltac:(lia) in_range_0)
      by (rewrite Z.sub_0_r; exact Hf).
    rewrite Z.sub_0_r. reflexivity. }
  assert (Ho : sum_array_optimized fuel arr size =
               Done (Int32.wrap (list_sum (firstn (Z.to_nat size) arr)))).
  { unfold sum_array_optimized.
    rewrite (unrolled_then_leftover_prefix arr size fuel fuel
               (proj1 Hr) Hn (proj2 Hr) 0 0 ltac:(lia) in_range_0)
      by (rewrite Z.sub_0_r; exact Hf).
    rewrite Z.sub_0_r. reflexivity. }
  split; [exact Hu |]. split; [exact Ho |].
  intros H0. rewrite Hu, Ho.
  replace (Z.to_nat size) with O by lia. split; reflexivity.
Qed.

Lemma sum_array_prefix_witness :
  (Int32.INT_MIN < 2 <= Int32.INT_MAX /\
   2 <= Z.of_nat (List.length [4; 5; 6]) /\
   (Z.to_nat 2 < 3)%nat) /\
  sum_array_unoptimized 3 [4; 5; 6] 2 =
    Done (Int32.wrap (list_sum (firstn (Z.to_nat 2) [4; 5; 6]))) /\
  sum_array_optimized 3 [4; 5; 6] 2 =
    Done (Int32.wrap (list_sum (firstn (Z.to_nat 2) [4; 5; 6]))).
Proof.
  assert (H1 : Int32.INT_MIN < 2 <= Int32.INT_MAX)
    by (vm_compute; split; [reflexivity | discriminate]).
  assert (H2 : 2 <= Z.of_nat (List.length [4; 5; 6]))
    by (vm_compute; discriminate).
  assert (H3 : (Z.to_nat 2 < 3)%nat) by (vm_compute; lia).
  destruct (sum_array_prefix [4; 5; 6] 2 3 H1 H2 H3) as (Hu & Ho & _).
  exact (conj (conj H1 (conj H2 H3)) (conj Hu Ho)).
Defined.

End SumArrayEdges.

Section SumArrayBeyond.

Import New1 New2.

Lemma sum_loop_beyond (arr : list Z) (size : Z) (fuel : nat) :
  Z.of_nat (List.length arr) < size <= Int32.INT_MAX ->
  forall i sum : Z,
    0 <= i <= Z.of_nat (List.length arr) ->
    (Z.to_nat (Z.of_nat (List.length arr) - i) < fuel)%nat ->
    sum_loop fuel arr size i sum = Fault.
Proof.
  intros Hn. induction fuel as [| fuel IH]; intros i sum Hi Hf; [lia |].
  cbn [sum_loop].
  destruct (Z.ltb_spec i size) as [_ | Hge]; [| lia].
  destruct (Z.eq_dec i (Z.of_nat (List.length arr))) as [-> | Hd].
  - rewrite array_read_beyond by lia. reflexivity.
  - destruct (array_read_skipn arr i ltac:(lia)) as (x & Hx & _).
    rewrite Hx. cbn [bind].
    rewrite (add_small i 1 size) by lia. apply IH; lia.
Qed.

Lemma leftover_loop_beyond (arr : list Z) (size : Z) (fuel : nat) :
  Z.of_nat (List.length arr) < size <= Int32.INT_MAX ->
  forall i sum : Z,
    0 <= i <= Z.of_nat (List.length arr) ->
    (Z.to_nat (Z.of_nat (List.length arr) - i) < fuel)%nat ->
    leftover_loop fuel arr size i sum = Fault.
Proof.
  intros Hn. induction fuel as [| fuel IH]; intros i sum Hi Hf; [lia |].
  cbn [leftover_loop].
  destruct (Z.ltb_spec i size) as [_ | Hge]; [| lia].
  destruct (Z.eq_dec i (Z.of_nat (List.length arr))) as [-> | Hd].
  - rewrite array_read_beyond by lia. reflexivity.
  - destruct (array_read_skipn arr i ltac:(lia)) as (x & Hx & _).
    rewrite Hx. cbn [bind].
    rewrite (add_small i 1 size) by lia. apply IH; lia.
Qed.

(** The unrolled loop whose bound [size - 1], as the [int] subtraction
    gives it, is not below the length: it reads past the end, unless the
    bound is the length itself and the loop leaves with [i] there. *)
Lemma unrolled_loop_beyond (arr : list Z) (size : Z) (fuel : nat) :
  Z.of_nat (List.length arr) <= Int32.sub size 1 ->
  forall i sum : Z,
    0 <= i <= Z.of_nat (List.length arr) ->
    (Z.to_nat (Z.of_nat (List.length arr) - i) < fuel)%nat ->
    unrolled_loop fuel arr size i sum = Fault \/
    (Int32.sub size 1 = Z.of_nat (List.length arr) /\
     exists sum' : Z,
       unrolled_loop fuel arr size i sum
       = Done (Z.of_nat (List.length arr), sum')).
Proof.
  intros HB.
  assert (HBmax : Int32.sub size 1 <= Int32.INT_MAX)
    by apply Int32.wrap_in_range.
  induction fuel as [| fuel IH]; intros i sum Hi Hf; [lia |].
  cbn [unrolled_loop].
  destruct (Z.ltb_spec i (Int32.sub size 1)) as [Hlt | Hge].
  - destruct (Z.eq_dec i (Z.of_nat (List.length arr))) as [-> | Hd].
    { left. rewrite array_read_beyond by lia. reflexivity. }
    destruct (array_read_skipn arr i ltac:(lia)) as (x & Hx & _).
    rewrite Hx. cbn [bind].
    rewrite (add_small i 1 (Int32.sub size 1)) by lia.
    destruct (Z.eq_dec (i + 1) (Z.of_nat (List.length arr))) as [E | Hd'].
    { left. rewrite array_read_beyond by lia. reflexivity. }
    destruct (array_read_skipn arr (i + 1) ltac:(lia)) as (y & Hy & _).
    rewrite Hy. cbn [bind].
    rewrite (add_small i 2 (Int32.sub size 1)) by lia.
    apply IH; lia.
  - right. split; [lia |]. exists sum. f_equal. f_equal. lia.
Qed.

(** X6: called with a [size] above the length of the array, both
    functions read outside of the array: the bound is taken on trust. *)
Theorem sum_array_out_of_bounds (arr : list Z) (size : Z) (fuel : nat) :
  Z.of_nat (List.length arr) < size <= Int32.INT_MAX ->
  (List.length arr < fuel)%nat ->
  sum_array_unoptimized fuel arr size = Fault /\
  sum_array_optimized fuel arr size = Fault.
Proof.
  intros Hn Hf. split.
  - unfold sum_array_unoptimized. apply sum_loop_beyond; [exact Hn | |]; lia.
  - unfold sum_array_optimized.
    assert (HB : Z.of_nat (List.length arr) <= Int32.sub size 1).
    { rewrite sub_1_small; unfold Int32.INT_MIN in *; lia. }
    destruct (unrolled_loop_beyond arr size fuel HB 0 0 ltac:(lia)
                ltac:(lia)) as [-> | (_ & sum' & ->)].
    + reflexivity.
    + cbn [bind]. apply leftover_loop_beyond; [exact Hn | |]; lia.
Qed.

Lemma sum_array_out_of_bounds_witness :
  (Z.of_nat (List.length [4; 5; 6]) < 4 <= Int32.INT_MAX /\
   (List.length [4; 5; 6] < 4)%nat) /\
  sum_array_unoptimized 4 [4; 5; 6] 4 = Fault /\
  sum_array_optimized 4 [4; 5; 6] 4 = Fault.
Proof.
  assert (H1 : Z.of_nat (List.length [4; 5; 6]) < 4 <= Int32.INT_MAX)
    by (vm_compute; split; [reflexivity | discriminate]).
  assert (H2 : (List.length [4; 5; 6] < 4)%nat) by (simpl; lia).
  exact (conj (conj H1 H2) (sum_array_out_of_bounds [4; 5; 6] 4 4 H1 H2)).
Defined.

(** X7: the two functions part at [size = INT_MIN]: [size - 1] wraps
    around to [INT_MAX], so [sum_array_optimized] enters its unrolled loop
    and reads past the end of the array, while [sum_array_unoptimized]
    returns [0] without a read. *)
Theorem sum_array_int_min (arr : list Z) (fuel : nat) :
  Z.of_nat (List.length arr) < Int32.INT_MAX ->
  (List.length arr < fuel)%nat ->
  Int32.sub Int32.INT_MIN 1 = Int32.INT_MAX /\
  sum_array_unoptimized fuel arr Int32.INT_MIN = Done 0 /\
  sum_array_optimized fuel arr Int32.INT_MIN = Fault.
Proof.
  intros Hn Hf. split; [reflexivity |]. split.
  - destruct fuel as [| fuel]; [lia |]. reflexivity.
  - unfold sum_array_optimized.
    assert (HB : Z.of_nat (List.length arr)
                 <= Int32.sub Int32.INT_MIN 1).
    { change (Int32.sub Int32.INT_MIN 1) with Int32.INT_MAX. lia. }
    destruct (unrolled_loop_beyond arr Int32.INT_MIN fuel HB 0 0
                ltac:(lia) ltac:(lia)) as [-> | (E & _)].
    + reflexivity.
    + change (Int32.sub Int32.INT_MIN 1) with Int32.INT_MAX in E. lia.
Qed.

Lemma sum_array_int_min_witness :
  (Z.of_nat (List.length [4; 5; 6]) < Int32.INT_MAX /\
   (List.length [4; 5; 6] < 4)%nat) /\
  Int32.sub Int32.INT_MIN 1 = Int32.INT_MAX /\
  sum_array_unoptimized 4 [4; 5; 6] Int32.INT_MIN = Done 0 /\
  sum_array_optimized 4 [4; 5; 6] Int32.INT_MIN = Fault.
Proof.
  assert (H1 : Z.of_nat (List.length [4; 5; 6]) < Int32.INT_MAX)
    by (vm_compute; reflexivity).
  assert (H2 : (List.length [4; 5; 6] < 4)%nat) by (simpl; lia).
  exact (conj (conj H1 H2) (sum_array_int_min [4; 5; 6] 4 H1 H2)).
Defined.

End SumArrayBeyond.

(** ** gcd_algorithm.c: operands of either sign *)

Section GcdSigns.

Import GcdAlgorithm.

Lemma rem_abs_bound (a b : Z) : Z.abs (Int32.rem a b) <= Z.abs a.
Proof.
  unfold Int32.rem. destruct (Z.eq_dec b 0) as [-> | Hb].
  - destruct a; simpl; lia.
  - rewrite <- Z.rem_abs by assumption. apply Z.rem_le; lia.
Qed.

(** The absolute value of the result is the gcd of the Standard Library,
    whatever the signs of the operands. *)
Lemma gcd_abs_Zgcd (a b : Z) : Z.abs (gcd a b) = Z.gcd a b.
Proof.
  remember (Z.abs_nat b) as n eqn:En. revert a b En.
  induction n as [n IH] using lt_wf_ind. intros a b En.
  destruct (Z.eq_dec b 0) as [-> | Hb].
  - now rewrite gcd_zero, Z.gcd_0_r.
  - rewrite gcd_step by assumption.
    pose proof (Z.rem_bound_abs a b Hb) as Hr.
    rewrite (IH (Z.abs_nat (Int32.rem a b))) by (unfold Int32.rem; lia).
    unfold Int32.rem. rewrite (Z.rem_eq a b Hb).
    replace (a - b * (a ÷ b)) with (a + (- (a ÷ b)) * b) by ring.
    rewrite Z.gcd_add_mult_diag_r. apply Z.gcd_comm.
Qed.

(** The loop returns with any fuel above [|b|]. *)
Lemma gcd_while_any_sign (fuel : nat) :
  forall a b : Z,
    (Z.abs_nat b < fuel)%nat -> gcd_while fuel a b = Done (gcd a b).
Proof.
  induction fuel as [| fuel IH]; intros a b Hf; [lia |].
  cbn [gcd_while gcd_body].
  destruct (Z.eqb_spec b 0) as [-> | Hb]; cbn [negb].
  - now rewrite gcd_zero.
  - pose proof (Z.rem_bound_abs a b Hb) as Hr.
    rewrite IH by (unfold Int32.rem; lia).
    now rewrite <- gcd_step.
Qed.

(** Along the run no operand exceeds in absolute value the [bound] the
    two inputs are within. *)
Lemma gcd_run_bound (bound : Z) (k : nat) :
  forall a b : Z,
    Z.abs a <= bound -> Z.abs b <= bound ->
    Z.abs (fst (Nat.iter k gcd_body (a, b))) <= bound /\
    Z.abs (snd (Nat.iter k gcd_body (a, b))) <= bound.
Proof.
  induction k as [| k IH]; intros a b Ha Hb; [split; assumption |].
  change (Nat.iter (S k) gcd_body (a, b))
    with (gcd_body (Nat.iter k gcd_body (a, b))).
  destruct (IH a b Ha Hb) as [H1 H2].
  destruct (Nat.iter k gcd_body (a, b)) as [x y]. cbn [fst snd gcd_body] in *.
  split; [exact H2 |].
  pose proof (rem_abs_bound x y). lia.
Qed.

(** X8: for operands of either sign other than [INT_MIN], the loop
    terminates; no pass sees the operand [INT_MIN], so [INT_MIN % -1] is
    never evaluated; the absolute value of the result is the greatest
    common divisor, and the result is an [int] other than [INT_MIN].  Its
    sign is not normalised: [gcd(48, -18)] is [-6]. *)
Theorem gcd_any_sign (a b : Z) (fuel : nat) :
  Int32.INT_MIN < a <= Int32.INT_MAX ->
  Int32.INT_MIN < b <= Int32.INT_MAX ->
  (Z.abs_nat b < fuel)%nat ->
  gcd_while fuel a b = Done (gcd a b) /\
  Z.abs (gcd a b) = Z.gcd a b /\
  Int32.INT_MIN < gcd a b <= Int32.INT_MAX /\
  (forall k : nat,
      Int32.INT_MIN < fst (Nat.iter k gcd_body (a, b)) /\
      Int32.INT_MIN < snd (Nat.iter k gcd_body (a, b))) /\
  gcd 48 (-18) = -6.
Proof.
  intros Ha Hb Hf.
  assert (Hrun : forall k : nat,
             Int32.INT_MIN < fst (Nat.iter k gcd_body (a, b)) /\
             Int32.INT_MIN < snd (Nat.iter k gcd_body (a, b))).
  { intros k.
    destruct (gcd_run_bound Int32.INT_MAX k a b) as [H1 H2];
      unfold Int32.INT_MIN, Int32.INT_MAX in *; lia. }
  split; [apply gcd_while_any_sign; exact Hf |].
  split; [apply gcd_abs_Zgcd |].
  split; [| split; [exact Hrun | reflexivity]].
  pose proof (gcd_abs_Zgcd a b) as Habs.
  assert (Hle : Z.gcd a b <= Z.max (Z.abs a) (Z.abs b)).
  { destruct (Z.eq_dec a 0) as [-> | Ha0].
    - rewrite Z.gcd_0_l. lia.
    - assert (Hd : (Z.gcd a b | Z.abs a))
        by (apply Z.divide_abs_r, Z.gcd_divide_l).
      apply Z.divide_pos_le in Hd; lia. }
  unfold Int32.INT_MIN, Int32.INT_MAX in *. lia.
Qed.

Lemma gcd_any_sign_witness :
  (Int32.INT_MIN < -48 <= Int32.INT_MAX /\
   Int32.INT_MIN < 18 <= Int32.INT_MAX /\
   (Z.abs_nat 18 < 19)%nat) /\
  gcd_while 19 (-48) 18 = Done (gcd (-48) 18) /\
  Z.abs (gcd (-48) 18) = Z.gcd (-48) 18 /\
  Int32.INT_MIN < gcd (-48) 18 <= Int32.INT_MAX /\
  (forall k : nat,
      Int32.INT_MIN < fst (Nat.iter k gcd_body (-48, 18)) /\
      Int32.INT_MIN < snd (Nat.iter k gcd_body (-48, 18))) /\
  gcd 48 (-18) = -6.
Proof.
  assert (H1 : Int32.INT_MIN < -48 <= Int32.INT_MAX)
    by (vm_compute; split; [reflexivity | discriminate]).
  assert (H2 : Int32.INT_MIN < 18 <= Int32.INT_MAX)
    by (vm_compute; split; [reflexivity | discriminate]).
  assert (H3 : (Z.abs_nat 18 < 19)%nat) by (vm_compute; lia).
  exact (conj (conj H1 (conj H2 H3)) (gcd_any_sign (-48) 18 19 H1 H2 H3)).
Defined.

End GcdSigns.

(** ** fibonacci_recursive.c: the recursion against a forward iteration *)

Section FibonacciIterative.

Import FibonacciRecursive.

(** [fibonacci] agrees with the forward iteration in [int] arithmetic at
    every index an [int] can hold. *)
Lemma fibonacci_fib_int_pair (k : nat) :
  Z.of_nat (S k) <= Int32.INT_MAX ->
  fibonacci (Z.of_nat k) = fst (fib_int_pair k) /\
  fibonacci (Z.of_nat (S k)) = snd (fib_int_pair k).
Proof.
  induction k as [| k IH]; intros Hk.
  - change (Z.of_nat 0) with 0. change (Z.of_nat 1) with 1.
    split; rewrite fibonacci_base by lia; reflexivity.
  - destruct IH as [IH0 IH1]; [lia |].
    cbn [fib_int_pair]. destruct (fib_int_pair k) as [x y].
    cbn [fst snd] in *. split; [exact IH1 |].
    rewrite fibonacci_rec by lia.
    rewrite (sub_small (Z.of_nat (S (S k))) 1),
      (sub_small (Z.of_nat (S (S k))) 2)
      by (unfold Int32.INT_MAX in *; lia).
    replace (Z.of_nat (S (S k)) - 1) with (Z.of_nat (S k)) by lia.
    replace (Z.of_nat (S (S k)) - 2) with (Z.of_nat k) by lia.
    rewrite IH0, IH1. reflexivity.
Qed.

Lemma fib_int_pair_exact (k : nat) :
  (k <= 45)%nat -> fib_int_pair k = fib_pair k.
Proof.
  induction k as [| k IH]; intros Hk; [reflexivity |].
  cbn [fib_int_pair fib_pair]. rewrite IH by lia.
  pose proof (fib_pair_order k) as Ho.
  pose proof (fib_pair_order (S k)) as Ho'.
  pose proof (fib_pair_mono (S k) 45 ltac:(lia)) as Hm.
  change (snd (fib_pair 45)) with 1836311903 in Hm.
  cbn [fib_pair] in Ho', Hm. destruct (fib_pair k) as [x y].
  cbn [fst snd] in *. f_equal.
  unfold Int32.add. rewrite Int32.wrap_small; [lia |].
  unfold Int32.in_range, Int32.INT_MIN, Int32.INT_MAX. lia.
Qed.

(** X9: for every [int] [n >= 0], the doubly recursive [fibonacci]
    returns what the forward iteration [(x, y) -> (y, y + x)] from
    [(0, 1)] yields after [n] steps in [int] arithmetic.  Up to [n = 46]
    that is the Fibonacci number itself, non-negative; at [n = 47] the
    addition wraps around for the first time and the result is
    negative. *)
Theorem fibonacci_iterative (n : Z) :
  0 <= n <= Int32.INT_MAX ->
  fibonacci n = fst (fib_int_pair (Z.to_nat n)) /\
  (n <= 46 -> fibonacci n = fst (fib_pair (Z.to_nat n)) /\
              0 <= fibonacci n <= 1836311903) /\
  fibonacci 46 = 1836311903 /\
  fibonacci 47 = -1323752223.
Proof.
  intros Hn.
  assert (Hit : forall m : Z,
             0 <= m <= Int32.INT_MAX ->
             fibonacci m = fst (fib_int_pair (Z.to_nat m))).
  { intros m Hm. destruct (Z.eq_dec m 0) as [-> | Hm0].
    - rewrite fibonacci_base by lia. reflexivity.
    - destruct (fibonacci_fib_int_pair (Z.to_nat (m - 1))) as [_ E];
        [lia |].
      replace (S (Z.to_nat (m - 1))) with (Z.to_nat m) in E by lia.
      rewrite Z2Nat.id in E by lia. rewrite E.
      replace (Z.to_nat m) with (S (Z.to_nat (m - 1))) by lia.
      cbn [fib_int_pair]. destruct (fib_int_pair (Z.to_nat (m - 1))).
      reflexivity. }
  assert (H46 : forall m : Z,
             0 <= m <= 46 -> fibonacci m = fst (fib_pair (Z.to_nat m))).
  { intros m Hm. rewrite Hit by (unfold Int32.INT_MAX; lia).
    destruct (Z.eq_dec m 46) as [-> | Hd]; [reflexivity |].
    rewrite fib_int_pair_exact by lia. reflexivity. }
  split; [apply Hit; exact Hn |].
  split; [| split].
  - intros Hle. split; [apply H46; lia |].
    rewrite H46 by lia.
    destruct (Z.to_nat n) as [| k] eqn:Ek; [cbn; lia |].
    pose proof (fib_pair_order k) as Ho.
    pose proof (fib_pair_mono k 45 ltac:(lia)) as Hm.
    change (snd (fib_pair 45)) with 1836311903 in Hm.
    cbn [fib_pair]. destruct (fib_pair k) as [x y]. cbn [fst snd] in *.
    lia.
  - rewrite Hit by (unfold Int32.INT_MAX; lia). reflexivity.
  - rewrite Hit by (unfold Int32.INT_MAX; lia). reflexivity.
Qed.

Lemma fibonacci_iterative_witness :
  (0 <= 30 <= Int32.INT_MAX /\ 30 <= 46) /\
  fibonacci 30 = fst (fib_int_pair (Z.to_nat 30)) /\
  fibonacci 30 = fst (fib_pair (Z.to_nat 30)) /\
  0 <= fibonacci 30 <= 1836311903.
Proof.
  assert (H1 : 0 <= 30 <= Int32.INT_MAX)
    by (vm_compute; split; discriminate).
  assert (H2 : 30 <= 46) by (vm_compute; discriminate).
  destruct (fibonacci_iterative 30 H1) as (E1 & E2 & _).
  destruct (E2 H2) as (E3 & E4).
  exact (conj (conj H1 H2) (conj E1 (conj E3 E4))).
Defined.

End FibonacciIterative.

(** ** polynomial_eval.c: the evaluation in binary64 arithmetic *)

Section PolynomialBinary64.

Import PolynomialEval.

(** The loop in binary64 arithmetic, entered at [i] with [result] and
    [power]: it adds to [result], from the left, the terms of the
    coefficients [i .. degree]. *)
Lemma polynomial_binary64_loop (x : float) (coeffs : list float)
    (degree : Z) (fuel : nat) :
  degree < Z.of_nat (List.length coeffs) ->
  degree < Int32.INT_MAX ->
  forall (i : Z) (result power : float),
    0 <= i <= degree + 1 ->
    (Z.to_nat (degree + 1 - i) < fuel)%nat ->
    polynomial_loop float PrimFloat.add PrimFloat.mul fuel x coeffs degree
                    i result power
    = Done (fold_left PrimFloat.add
              (terms_binary64 x
                 (firstn (Z.to_nat (degree + 1 - i))
                         (skipn (Z.to_nat i) coeffs))
                 power)
              result).
Proof.
  intros Hlen Hdeg.
  induction fuel as [| fuel IH]; intros i result power Hi Hf; [lia |].
  cbn [polynomial_loop].
  destruct (Z.leb_spec i degree) as [Hle | Hgt].
  - destruct (array_read_skipn coeffs i ltac:(lia)) as (c & Hc & Hsk).
    rewrite Hc. cbn [bind].
    rewrite (add_small i 1 (degree + 1)) by lia.
    rewrite IH by lia.
    rewrite Hsk.
    replace (Z.to_nat (degree + 1 - i))
      with (S (Z.to_nat (degree + 1 - (i + 1)))) by lia.
    reflexivity.
  - replace (Z.to_nat (degree + 1 - i)) with O by lia.
    reflexivity.
Qed.

(** X2: in binary64 arithmetic, for every [x], every array of
    coefficients and every [degree] below [INT_MAX] from [-1] up to the
    last index of the array, [polynomial], given enough fuel, returns the
    sum, added up from the left starting with [0.0], of the terms
    [coeffs[k] * p_k] for [k = 0 .. degree], where [p_0 = 1.0] and
    [p_(k+1) = p_k * x], each operation rounded.  The order matters: on
    the coefficients [{1, 2, 3, 4}] at the double nearest to [1.1] the
    result differs in its last bit from Horner's nested form. *)
Theorem polynomial_binary64_evaluates (x : float) (coeffs : list float)
    (degree : Z) (fuel : nat) :
  -1 <= degree < Z.of_nat (List.length coeffs) ->
  degree < Int32.INT_MAX ->
  (Z.to_nat (degree + 1) < fuel)%nat ->
  polynomial_binary64 fuel x coeffs degree
  = Done (sum_binary64
            (terms_binary64 x (firstn (Z.to_nat (degree + 1)) coeffs)
                            1%float)) /\
  (exists r : float,
      polynomial_binary64 5 near_1_1 [1; 2; 3; 4]%float 3 = Done r /\
      Prim2SF r = S754_finite false 6842093733882628 (-49) /\
      Prim2SF (horner_binary64 near_1_1 [1; 2; 3; 4]%float)
      = S754_finite false 6842093733882627 (-49) /\
      r <> horner_binary64 near_1_1 [1; 2; 3; 4]%float).
Proof.
  intros Hd Hmax Hf. split.
  - unfold polynomial_binary64, polynomial_over.
    rewrite (polynomial_binary64_loop x coeffs degree fuel)
      by (rewrite ?Z.sub_0_r; (exact Hf || lia)).
    rewrite Z.sub_0_r. reflexivity.
  - eexists. split; [vm_compute; reflexivity |].
    split; [vm_compute; reflexivity |].
    split; [vm_compute; reflexivity |].
    intros E. apply (f_equal Prim2SF) in E. vm_compute in E.
    discriminate E.
Qed.

Lemma polynomial_binary64_evaluates_witness :
  (-1 <= 3 < Z.of_nat (List.length [1; 2; 3; 4]%float) /\
   3 < Int32.INT_MAX /\
   (Z.to_nat (3 + 1) < 5)%nat) /\
  polynomial_binary64 5 2.5%float [1; 2; 3; 4]%float 3
  = Done (sum_binary64
            (terms_binary64 2.5%float
               (firstn (Z.to_nat (3 + 1)) [1; 2; 3; 4]%float) 1%float)) /\
  (exists r : float,
      polynomial_binary64 5 near_1_1 [1; 2; 3; 4]%float 3 = Done r /\
      Prim2SF r = S754_finite false 6842093733882628 (-49) /\
      Prim2SF (horner_binary64 near_1_1 [1; 2; 3; 4]%float)
      = S754_finite false 6842093733882627 (-49) /\
      r <> horner_binary64 near_1_1 [1; 2; 3; 4]%float).
Proof.
  assert (H1 : -1 <= 3 < Z.of_nat (List.length [1; 2; 3; 4]%float))
    by (vm_compute; split; [discriminate | reflexivity]).
  assert (H2 : 3 < Int32.INT_MAX) by reflexivity.
  assert (H3 : (Z.to_nat (3 + 1) < 5)%nat) by (vm_compute; lia).
  exact (conj (conj H1 (conj H2 H3))
              (polynomial_binary64_evaluates 2.5%float [1; 2; 3; 4]%float
                 3 5 H1 H2 H3)).
Defined.

(** A NaN operand makes a binary64 product or sum NaN. *)
Lemma mul_nan_l (y : float) : PrimFloat.mul nan y = nan.
Proof.
  apply Prim2SF_inj. rewrite mul_spec.
  change (Prim2SF nan) with S754_nan. reflexivity.
Qed.

Lemma mul_nan_r (x : float) : PrimFloat.mul x nan = nan.
Proof.
  apply Prim2SF_inj. rewrite mul_spec.
  change (Prim2SF nan) with S754_nan.
  destruct (Prim2SF x); reflexivity.
Qed.

Lemma add_nan_l (y : float) : PrimFloat.add nan y = nan.
Proof.
  apply Prim2SF_inj. rewrite add_spec.
  change (Prim2SF nan) with S754_nan. reflexivity.
Qed.

Lemma add_nan_r (x : float) : PrimFloat.add x nan = nan.
Proof.
  apply Prim2SF_inj. rewrite add_spec.
  change (Prim2SF nan) with S754_nan.
  destruct (Prim2SF x); reflexivity.
Qed.

(** A sum from the left that meets a NaN term is NaN. *)
Lemma fold_add_nan (l : list float) : fold_left PrimFloat.add l nan = nan.
Proof.
  induction l as [| t l IH]; cbn [fold_left]; [reflexivity |].
  rewrite add_nan_l. exact IH.
Qed.

Lemma fold_add_In_nan (l : list float) (z : float) :
  In nan l -> fold_left PrimFloat.add l z = nan.
Proof.
  revert z. induction l as [| t l IH]; intros z Hin; [destruct Hin |].
  cbn [fold_left]. destruct Hin as [-> | Hin].
  - rewrite add_nan_r. apply fold_add_nan.
  - apply IH. exact Hin.
Qed.

(** A NaN coefficient gives a NaN term. *)
Lemma terms_binary64_nan_coeff (x : float) (coeffs : list float) (k : nat) :
  forall power : float,
    nth_error coeffs k = Some nan ->
    In nan (terms_binary64 x coeffs power).
Proof.
  revert k. induction coeffs as [| c coeffs IH]; intros k power Hk.
  - destruct k; discriminate Hk.
  - cbn [terms_binary64]. destruct k as [| k]; cbn [nth_error] in Hk.
    + injection Hk as ->. left. apply mul_nan_l.
    + right. eapply IH. exact Hk.
Qed.

(** X10: NaN is absorbing in binary64 arithmetic: for every [degree]
    below [INT_MAX] from [0] up to the last index of the array, if one of
    the coefficients [coeffs[0 .. degree]] is NaN, or if [x] is NaN and
    [degree] is at least [1], then [polynomial], given enough fuel,
    returns NaN. *)
Theorem polynomial_binary64_nan (x : float) (coeffs : list float)
    (degree : Z) (fuel : nat) :
  0 <= degree < Z.of_nat (List.length coeffs) ->
  degree < Int32.INT_MAX ->
  (Z.to_nat (degree + 1) < fuel)%nat ->
  (exists k : nat,
      Z.of_nat k <= degree /\ nth_error coeffs k = Some nan) \/
  (x = nan /\ 1 <= degree) ->
  polynomial_binary64 fuel x coeffs degree = Done nan.
Proof.
  intros Hd Hmax Hf Hnan.
  unfold polynomial_binary64, polynomial_over.
  rewrite (polynomial_binary64_loop x coeffs degree fuel)
    by (rewrite ?Z.sub_0_r; (exact Hf || lia)).
  rewrite Z.sub_0_r. cbn [Z.to_nat skipn]. f_equal.
  apply fold_add_In_nan.
  destruct Hnan as [(k & Hk & Hc) | [-> Hdeg]].
  - apply (terms_binary64_nan_coeff x _ k).
    rewrite nth_error_firstn.
    destruct (Nat.ltb_spec k (Z.to_nat (degree + 1))); [exact Hc | lia].
  - destruct coeffs as [| c0 [| c1 coeffs]]; cbn [List.length] in Hd;
      try lia.
    replace (Z.to_nat (degree + 1)) with (S (S (Z.to_nat (degree - 1))))
      by lia.
    cbn [firstn terms_binary64]. right. left.
    rewrite (mul_nan_r 1%float). apply mul_nan_r.
Qed.

Lemma polynomial_binary64_nan_witness :
  (0 <= 2 < Z.of_nat (List.length [1; nan; 3]%float) /\
   2 < Int32.INT_MAX /\
   (Z.to_nat (2 + 1) < 4)%nat /\
   ((exists k : nat,
        Z.of_nat k <= 2 /\ nth_error [1; nan; 3]%float k = Some nan) \/
    (2%float = nan /\ 1 <= 2))) /\
  polynomial_binary64 4 2%float [1; nan; 3]%float 2 = Done nan.
Proof.
  assert (H1 : 0 <= 2 < Z.of_nat (List.length [1; nan; 3]%float))
    by (vm_compute; split; [discriminate | reflexivity]).
  assert (H2 : 2 < Int32.INT_MAX) by reflexivity.
  assert (H3 : (Z.to_nat (2 + 1) < 4)%nat) by (vm_compute; lia).
  assert (H4 : (exists k : nat,
                   Z.of_nat k <= 2 /\
                   nth_error [1; nan; 3]%float k = Some nan) \/
               (2%float = nan /\ 1 <= 2)).
  { left. exists 1%nat. split; [vm_compute; discriminate | reflexivity]. }
  exact (conj (conj H1 (conj H2 (conj H3 H4)))
              (polynomial_binary64_nan 2%float [1; nan; 3]%float 2 4
                 H1 H2 H3 H4)).
Defined.

End PolynomialBinary64.

(** ** polynomial_eval.c: when the evaluation in binary64 is exact *)

Section PolynomialExact.

Import PolynomialEval.

(** The number of binary digits, as [SpecFloat] counts them, in terms of
    [Z.log2]. *)
Lemma digits2_pos_log2 (p : positive) :
  Z.pos (digits2_pos p) = Z.log2 (Z.pos p) + 1.
Proof.
  assert (H : forall q, digits2_pos q = Pos.size q).
  { induction q; cbn; congruence. }
  rewrite H. destruct p; cbn; lia.
Qed.

(** Shifting a mantissa to the left multiplies it by a power of two, and
    shifting to the right a multiple of that power gives the quotient
    back, with nothing lost. *)
Lemma pos_iter_xO (m d : positive) :
  Z.pos (Pos.iter xO m d) = Z.pos m * 2 ^ Z.pos d.
Proof.
  induction d as [| d IH] using Pos.peano_ind.
  - cbn [Pos.iter]. lia.
  - rewrite Pos.iter_succ, Pos2Z.inj_succ, Z.pow_succ_r by lia.
    rewrite Pos2Z.inj_xO, IH. lia.
Qed.

Lemma iter_pos_nat {A : Type} (f : A -> A) (p : positive) (x : A) :
  iter_pos f p x = Nat.iter (Pos.to_nat p) f x.
Proof.
  revert x. induction p as [p IH | p IH |]; intros x; cbn [iter_pos].
  - rewrite !IH, Pos2Nat.inj_xI.
    replace (S (2 * Pos.to_nat p))
      with (Pos.to_nat p + (Pos.to_nat p + 1))%nat by lia.
    rewrite !Nat.iter_add. reflexivity.
  - rewrite !IH, Pos2Nat.inj_xO.
    replace (2 * Pos.to_nat p)%nat
      with (Pos.to_nat p + Pos.to_nat p)%nat by lia.
    rewrite Nat.iter_add. reflexivity.
  - reflexivity.
Qed.

Lemma shr_1_exact (n : nat) (z : Z) :
  0 < z ->
  Nat.iter n shr_1 (Build_shr_record (z * 2 ^ Z.of_nat n) false false)
  = Build_shr_record z false false.
Proof.
  intros Hz. induction n as [| n IH].
  - change (Z.of_nat 0) with 0. rewrite Z.pow_0_r, Z.mul_1_r. reflexivity.
  - rewrite Nat.iter_succ_r.
    replace (z * 2 ^ Z.of_nat (S n)) with (2 * (z * 2 ^ Z.of_nat n))
      by (rewrite Nat2Z.inj_succ, Z.pow_succ_r by lia; lia).
    assert (Hp : 0 < z * 2 ^ Z.of_nat n) by (apply Z.mul_pos_pos; lia).
    destruct (z * 2 ^ Z.of_nat n) as [| p | p] eqn:E; try lia.
    exact IH.
Qed.

Lemma bit_length_bounds (z : Z) :
  z <> 0 -> 2 ^ (bit_length z - 1) <= Z.abs z < 2 ^ bit_length z.
Proof.
  intros Hz. unfold bit_length.
  pose proof (Z.log2_spec (Z.abs z) ltac:(lia)) as H.
  replace (Z.log2 (Z.abs z) + 1 - 1) with (Z.log2 (Z.abs z)) by lia.
  replace (Z.log2 (Z.abs z) + 1) with (Z.succ (Z.log2 (Z.abs z))) by lia.
  exact H.
Qed.

Lemma bit_length_range (z : Z) :
  z <> 0 -> Z.abs z < 2 ^ 53 -> 1 <= bit_length z <= 53.
Proof.
  intros Hz Hb. pose proof (bit_length_bounds z Hz) as [H1 H2].
  unfold bit_length in *. pose proof (Z.log2_nonneg (Z.abs z)).
  split; [lia |].
  destruct (Z_le_gt_dec (Z.log2 (Z.abs z) + 1) 53) as [| Hgt]; [assumption |].
  assert (2 ^ 53 <= 2 ^ (Z.log2 (Z.abs z) + 1 - 1))
    by (apply Z.pow_le_mono_r; lia).
  lia.
Qed.

Lemma bit_length_mul_pow2 (z k : Z) :
  z <> 0 -> 0 <= k -> bit_length (z * 2 ^ k) = bit_length z + k.
Proof.
  intros Hz Hk. unfold bit_length.
  rewrite Z.abs_mul, (Z.abs_eq (2 ^ k)) by (apply Z.pow_nonneg; lia).
  rewrite Z.log2_mul_pow2 by lia. lia.
Qed.

(** The exponent of the format in the range of the normal numbers. *)
Lemma fexp_normal (e : Z) : -1021 <= e -> fexp prec emax e = e - 53.
Proof. intros H. unfold fexp, emin, prec, emax. lia. Qed.

(** Rounding is exact on [z * 2^k] with exponent [- k - s] when [z] has at
    most 53 bits: the result is the canonical form of [z / 2^s]. *)
Lemma round_aux_exact (sg : bool) (z k s : Z) :
  0 < z < 2 ^ 53 ->
  0 <= k -> 53 - bit_length z <= k ->
  0 <= s <= 1000 ->
  binary_round_aux prec emax sg (z * 2 ^ k) (- k - s) loc_Exact
  = S754_finite sg (Z.to_pos (z * 2 ^ (53 - bit_length z)))
                (bit_length z - 53 - s).
Proof.
  intros Hz Hk Hkd Hs.
  pose proof (bit_length_range z ltac:(lia) ltac:(lia)) as Hd.
  assert (Hzk : 0 < z * 2 ^ k) by (apply Z.mul_pos_pos; lia).
  assert (Hdig : forall j, 0 <= j -> Zdigits2 (z * 2 ^ j) = bit_length z + j).
  { intros j Hj. rewrite <- bit_length_mul_pow2 by lia.
    assert (0 < z * 2 ^ j) by (apply Z.mul_pos_pos; lia).
    destruct (z * 2 ^ j) as [| p | p] eqn:E; try lia.
    cbn [Zdigits2]. rewrite digits2_pos_log2. reflexivity. }
  unfold binary_round_aux, shr_fexp.
  rewrite Hdig by lia.
  replace (bit_length z + k + (- k - s)) with (bit_length z - s) by lia.
  rewrite fexp_normal by lia.
  cbn [shr_record_of_loc].
  remember (bit_length z - s - 53 - (- k - s)) as n eqn:En.
  assert (Hn : n = k - (53 - bit_length z)) by lia.
  assert (Hshr : shr (Build_shr_record (z * 2 ^ k) false false) (- k - s) n
                 = (Build_shr_record (z * 2 ^ (53 - bit_length z)) false false,
                    bit_length z - 53 - s)).
  { destruct n as [| p | p]; cbn [shr]; try lia.
    - f_equal; [f_equal; f_equal; f_equal; lia | lia].
    - rewrite iter_pos_nat.
      replace (z * 2 ^ k)
        with (z * 2 ^ (53 - bit_length z) * 2 ^ Z.of_nat (Pos.to_nat p)).
      2:{ rewrite positive_nat_Z, <- Z.mul_assoc, <- Z.pow_add_r by lia.
          f_equal. f_equal. lia. }
      rewrite shr_1_exact by (apply Z.mul_pos_pos; lia).
      f_equal. lia. }
  rewrite Hshr. cbn [shr_m loc_of_shr_record round_nearest_even].
  rewrite Hdig by lia.
  replace (bit_length z + (53 - bit_length z) + (bit_length z - 53 - s))
    with (bit_length z - s) by lia.
  rewrite fexp_normal by lia.
  replace (bit_length z - s - 53 - (bit_length z - 53 - s)) with 0 by lia.
  cbn [shr shr_record_of_loc shr_m].
  assert (Hm : 0 < z * 2 ^ (53 - bit_length z)) by (apply Z.mul_pos_pos; lia).
  destruct (z * 2 ^ (53 - bit_length z)) as [| m | m] eqn:E; try lia.
  cbn [Z.to_pos].
  destruct (Z.leb_spec (bit_length z - 53 - s) (emax - prec)) as [| Hgt];
    [reflexivity |].
  unfold emax, prec in Hgt. lia.
Qed.

Lemma round_exact (sg : bool) (z k s : Z) :
  0 < z < 2 ^ 53 ->
  0 <= k ->
  0 <= s <= 1000 ->
  binary_round prec emax sg (Z.to_pos (z * 2 ^ k)) (- k - s)
  = S754_finite sg (Z.to_pos (z * 2 ^ (53 - bit_length z)))
                (bit_length z - 53 - s).
Proof.
  intros Hz Hk Hs.
  pose proof (bit_length_range z ltac:(lia) ltac:(lia)) as Hd.
  assert (Hzk : 0 < z * 2 ^ k) by (apply Z.mul_pos_pos; lia).
  unfold binary_round.
  rewrite digits2_pos_log2, Z2Pos.id by exact Hzk.
  change (Z.log2 (z * 2 ^ k) + 1) with (Z.log2 (z * 2 ^ k) + 1).
  assert (Hlog : Z.log2 (z * 2 ^ k) + 1 = bit_length z + k).
  { rewrite <- bit_length_mul_pow2 by lia. unfold bit_length.
    rewrite Z.abs_eq by lia. reflexivity. }
  rewrite Hlog.
  replace (bit_length z + k + (- k - s)) with (bit_length z - s) by lia.
  rewrite fexp_normal by lia.
  unfold shl_align.
  destruct (bit_length z - s - 53 - (- k - s)) as [| p | p] eqn:E.
  - rewrite Z2Pos.id by exact Hzk. apply round_aux_exact; lia.
  - rewrite Z2Pos.id by exact Hzk. apply round_aux_exact; lia.
  - rewrite pos_iter_xO, Z2Pos.id by exact Hzk.
    replace (z * 2 ^ k * 2 ^ Z.pos p) with (z * 2 ^ (53 - bit_length z))
      by (rewrite <- Z.mul_assoc, <- Z.pow_add_r by lia; f_equal; f_equal; lia).
    replace (bit_length z - s - 53) with (- (53 - bit_length z) - s) by lia.
    rewrite round_aux_exact by lia.
    reflexivity.
Qed.

Lemma shl_align_fst (m : positive) (e ez : Z) :
  ez <= e ->
  Z.pos (fst (shl_align m e ez)) = Z.pos m * 2 ^ (e - ez).
Proof.
  intros H. unfold shl_align.
  destruct (ez - e) as [| p | p] eqn:E; cbn [fst].
  - replace (e - ez) with 0 by lia. lia.
  - lia.
  - rewrite pos_iter_xO. f_equal. f_equal. lia.
Qed.

Lemma dyadic_nonzero (z s : Z) :
  z <> 0 ->
  dyadic_SF z s = S754_finite (z <? 0)
                 (Z.to_pos (Z.abs z * 2 ^ (53 - bit_length z)))
                 (bit_length z - 53 - s).
Proof.
  intros H. unfold dyadic_SF.
  destruct (Z.eqb_spec z 0); [contradiction | reflexivity].
Qed.

Lemma bit_length_abs (z : Z) : bit_length (Z.abs z) = bit_length z.
Proof. unfold bit_length. now rewrite Z.abs_idemp. Qed.

Lemma cond_Zopp_abs (z c : Z) :
  cond_Zopp (z <? 0) (Z.abs z * c) = z * c.
Proof.
  unfold cond_Zopp. destruct (Z.ltb_spec z 0); lia.
Qed.

(** The product and the sum of two canonical forms are the canonical forms
    of the product and of the sum, as long as these fit 53 bits. *)
Lemma SFmul_dyadic (z1 s1 z2 s2 : Z) :
  z1 <> 0 -> z2 <> 0 ->
  Z.abs z1 < 2 ^ 53 -> Z.abs z2 < 2 ^ 53 -> Z.abs (z1 * z2) < 2 ^ 53 ->
  0 <= s1 -> 0 <= s2 -> s1 + s2 <= 1000 ->
  SFmul prec emax (dyadic_SF z1 s1) (dyadic_SF z2 s2)
  = dyadic_SF (z1 * z2) (s1 + s2).
Proof.
  intros H1 H2 B1 B2 B12 S1 S2 S12.
  assert (H12 : z1 * z2 <> 0) by nia.
  pose proof (bit_length_range _ H1 B1) as D1.
  pose proof (bit_length_range _ H2 B2) as D2.
  pose proof (bit_length_range _ H12 B12) as D12.
  pose proof (bit_length_bounds _ H1) as [L1 U1].
  pose proof (bit_length_bounds _ H2) as [L2 U2].
  pose proof (bit_length_bounds _ H12) as [L12 U12].
  assert (P1 : 0 < Z.abs z1 * 2 ^ (53 - bit_length z1))
    by (apply Z.mul_pos_pos; [lia | apply Z.pow_pos_nonneg; lia]).
  assert (P2 : 0 < Z.abs z2 * 2 ^ (53 - bit_length z2))
    by (apply Z.mul_pos_pos; [lia | apply Z.pow_pos_nonneg; lia]).
  (* bit_length of the product *)
  assert (Dmul : bit_length z1 + bit_length z2 - 1 <= bit_length (z1 * z2)).
  { destruct (Z_le_gt_dec (bit_length z1 + bit_length z2 - 1)
                          (bit_length (z1 * z2)))
      as [| Hgt]; [assumption |].
    assert (2 ^ bit_length (z1 * z2)
            <= 2 ^ (bit_length z1 - 1 + (bit_length z2 - 1)))
      by (apply Z.pow_le_mono_r; lia).
    rewrite Z.pow_add_r in * by lia.
    rewrite Z.abs_mul in *.
    assert (2 ^ (bit_length z1 - 1) * 2 ^ (bit_length z2 - 1)
            <= Z.abs z1 * Z.abs z2)
      by (apply Z.mul_le_mono_nonneg; try lia;
          apply Z.pow_nonneg; lia).
    lia. }
  rewrite !dyadic_nonzero by assumption.
  cbn [SFmul].
  rewrite Pos2Z.inj_mul, !Z2Pos.id by assumption.
  replace (Z.abs z1 * 2 ^ (53 - bit_length z1)
           * (Z.abs z2 * 2 ^ (53 - bit_length z2)))
    with (Z.abs (z1 * z2) * 2 ^ (106 - bit_length z1 - bit_length z2)).
  2:{ rewrite Z.abs_mul.
      replace (106 - bit_length z1 - bit_length z2)
        with ((53 - bit_length z1) + (53 - bit_length z2)) by lia.
      rewrite Z.pow_add_r by lia. ring. }
  replace (bit_length z1 - 53 - s1 + (bit_length z2 - 53 - s2))
    with (- (106 - bit_length z1 - bit_length z2) - (s1 + s2)) by lia.
  rewrite round_aux_exact; rewrite ?bit_length_abs; try lia.
  f_equal.
  destruct (Z.ltb_spec z1 0), (Z.ltb_spec z2 0), (Z.ltb_spec (z1 * z2) 0);
    try reflexivity; nia.
Qed.

Lemma SFadd_dyadic (z1 s1 z2 s2 : Z) :
  z1 <> 0 -> z2 <> 0 ->
  Z.abs z1 < 2 ^ 53 -> Z.abs z2 < 2 ^ 53 ->
  0 <= s1 <= s2 -> s2 <= 1000 ->
  Z.abs (z1 * 2 ^ (s2 - s1) + z2) < 2 ^ 53 ->
  SFadd prec emax (dyadic_SF z1 s1) (dyadic_SF z2 s2)
  = dyadic_SF (z1 * 2 ^ (s2 - s1) + z2) s2.
Proof.
  intros H1 H2 B1 B2 S1 S2 B.
  pose proof (bit_length_range _ H1 B1) as D1.
  pose proof (bit_length_range _ H2 B2) as D2.
  assert (P1 : 0 < Z.abs z1 * 2 ^ (53 - bit_length z1))
    by (apply Z.mul_pos_pos; [lia | apply Z.pow_pos_nonneg; lia]).
  assert (P2 : 0 < Z.abs z2 * 2 ^ (53 - bit_length z2))
    by (apply Z.mul_pos_pos; [lia | apply Z.pow_pos_nonneg; lia]).
  rewrite (dyadic_nonzero z1), (dyadic_nonzero z2) by assumption.
  cbn [SFadd].
  set (e1 := bit_length z1 - 53 - s1). set (e2 := bit_length z2 - 53 - s2).
  set (ez := Z.min e1 e2).
  assert (Hez1 : ez <= e1) by (unfold ez; lia).
  assert (Hez2 : ez <= e2) by (unfold ez; lia).
  rewrite !shl_align_fst, !Z2Pos.id by assumption.
  rewrite <- !Z.mul_assoc, !cond_Zopp_abs.
  set (k := - s2 - ez).
  assert (Hk : 0 <= k) by (unfold k, e2 in *; lia).
  set (Z0' := z1 * 2 ^ (s2 - s1) + z2) in *.
  replace (z1 * (2 ^ (53 - bit_length z1) * 2 ^ (e1 - ez))
           + z2 * (2 ^ (53 - bit_length z2) * 2 ^ (e2 - ez)))
    with (Z0' * 2 ^ k).
  2:{ unfold Z0'. rewrite <- !Z.pow_add_r by lia.
      rewrite Z.mul_add_distr_r, <- Z.mul_assoc, <- Z.pow_add_r by lia.
      f_equal; f_equal; f_equal; unfold k, e1, e2; lia. }
  replace ez with (- k - s2) by (unfold k; lia).
  assert (Hpk : 0 < 2 ^ k) by (apply Z.pow_pos_nonneg; lia).
  unfold dyadic_SF.
  destruct (Z.eqb_spec Z0' 0) as [E0 | N0].
  - rewrite E0. reflexivity.
  - destruct (Z.ltb_spec Z0' 0) as [Hneg | Hpos].
    + assert (Hm : Z0' * 2 ^ k < 0) by nia.
      destruct (Z0' * 2 ^ k) as [| p | p] eqn:E; try lia.
      cbn [binary_normalize].
      replace p with (Z.to_pos (Z.abs Z0' * 2 ^ k)).
      2:{ rewrite Z.abs_neq by lia.
          replace (- Z0' * 2 ^ k) with (- (Z0' * 2 ^ k)) by ring.
          rewrite E. reflexivity. }
      rewrite round_exact; rewrite ?bit_length_abs; try lia. reflexivity.
    + assert (Hm : 0 < Z0' * 2 ^ k) by nia.
      destruct (Z0' * 2 ^ k) as [| p | p] eqn:E; try lia.
      cbn [binary_normalize].
      replace p with (Z.to_pos (Z.abs Z0' * 2 ^ k)).
      2:{ rewrite Z.abs_eq by lia. rewrite E. reflexivity. }
      rewrite round_exact; rewrite ?bit_length_abs; try lia. reflexivity.
Qed.

(** The value of a canonical form, and the canonical form of a value. *)
Lemma Q2_nonzero : ~ (2 == 0)%Q.
Proof. intros H. inversion H. Qed.

Lemma inject_pow2_nonzero (k : Z) : 0 <= k -> ~ (inject_Z (2 ^ k) == 0)%Q.
Proof.
  intros Hk. change 0%Q with (inject_Z 0). rewrite inject_Z_injective.
  pose proof (Z.pow_pos_nonneg 2 k ltac:(lia) Hk). lia.
Qed.

Lemma Qpow2_split (e K : Z) :
  0 <= K -> 0 <= e + K ->
  (2 ^ e == inject_Z (2 ^ (e + K)) / inject_Z (2 ^ K))%Q.
Proof.
  intros HK HeK. rewrite !Zpower_Qpower by lia. change (inject_Z 2) with 2%Q.
  rewrite Qpower_plus by exact Q2_nonzero. field.
  apply Qpower_not_0. exact Q2_nonzero.
Qed.

Lemma SF_value_dyadic (z s : Z) :
  z <> 0 -> Z.abs z < 2 ^ 53 -> 0 <= s ->
  exists v : Q,
    SF_value (dyadic_SF z s) = Some v /\
    (v == inject_Z z / inject_Z (2 ^ s))%Q.
Proof.
  intros Hz Hb Hs.
  pose proof (bit_length_range z Hz Hb) as Hd.
  rewrite dyadic_nonzero by exact Hz. cbn [SF_value].
  eexists. split; [reflexivity |].
  assert (P : 0 < Z.abs z * 2 ^ (53 - bit_length z))
    by (apply Z.mul_pos_pos; [lia | apply Z.pow_pos_nonneg; lia]).
  rewrite Z2Pos.id, cond_Zopp_abs by exact P.
  rewrite (Qpow2_split (bit_length z - 53 - s) (53 - bit_length z + s)) by lia.
  replace (bit_length z - 53 - s + (53 - bit_length z + s)) with 0 by lia.
  rewrite Z.pow_add_r, !inject_Z_mult by lia.
  change (inject_Z (2 ^ 0)) with 1%Q.
  field. split; apply inject_pow2_nonzero; lia.
Qed.

Lemma canon_Z (sg : bool) (m : positive) (e z s : Z) :
  bounded prec emax m e = true ->
  z <> 0 -> Z.abs z < 2 ^ 53 -> 0 <= s <= 1000 ->
  cond_Zopp sg (Z.pos m) * 2 ^ (e + 1074) * 2 ^ s = z * 2 ^ 1074 ->
  S754_finite sg m e = dyadic_SF z s.
Proof.
  intros Hv Hz Hb Hs E.
  pose proof (bit_length_range z Hz Hb) as Hd.
  unfold bounded, canonical_mantissa in Hv.
  apply andb_prop in Hv. destruct Hv as [Hc _].
  apply Z.eqb_eq in Hc. rewrite digits2_pos_log2 in Hc.
  assert (He : -1074 <= e)
    by (unfold fexp, emin, prec, emax in Hc; lia).
  assert (Eabs : Z.pos m * 2 ^ (e + 1074 + s) = Z.abs z * 2 ^ 1074).
  { rewrite Z.pow_add_r, Z.mul_assoc by lia.
    assert (HK : 0 < 2 ^ 1074) by (apply Z.pow_pos_nonneg; lia).
    assert (HE : 0 < 2 ^ (e + 1074)) by (apply Z.pow_pos_nonneg; lia).
    assert (HS : 0 < 2 ^ s) by (apply Z.pow_pos_nonneg; lia).
    revert E HK HE HS.
    generalize (2 ^ 1074) (2 ^ (e + 1074)) (2 ^ s). intros K A B E HK HA HB.
    destruct sg; cbn [cond_Zopp] in E; nia. }
  assert (Hlog : Z.log2 (Z.pos m) + (e + 1074 + s) = Z.log2 (Z.abs z) + 1074).
  { pose proof (Z.log2_mul_pow2 (Z.pos m) (e + 1074 + s) ltac:(lia)
                  ltac:(lia)) as L1.
    pose proof (Z.log2_mul_pow2 (Z.abs z) 1074 ltac:(lia) ltac:(lia)) as L2.
    rewrite Eabs in L1. lia. }
  assert (Hsum : Z.log2 (Z.pos m) + 1 + e = bit_length z - s)
    by (unfold bit_length; lia).
  rewrite Hsum in Hc. rewrite fexp_normal in Hc by lia.
  assert (Hexp : e = bit_length z - 53 - s) by lia.
  assert (Hm : Z.pos m = Z.abs z * 2 ^ (53 - bit_length z)).
  { replace (e + 1074 + s) with (bit_length z + 1021) in Eabs by lia.
    replace 1074 with ((53 - bit_length z) + (bit_length z + 1021)) in Eabs at 1
      by lia.
    rewrite (Z.pow_add_r 2 (53 - bit_length z)), Z.mul_assoc in Eabs by lia.
    apply Z.mul_reg_r in Eabs; [exact Eabs |].
    pose proof (Z.pow_pos_nonneg 2 (bit_length z + 1021) ltac:(lia) ltac:(lia)).
    lia. }
  rewrite dyadic_nonzero by exact Hz.
  f_equal.
  - assert (HK : 0 < 2 ^ 1074) by (apply Z.pow_pos_nonneg; lia).
    assert (HE : 0 < 2 ^ (e + 1074)) by (apply Z.pow_pos_nonneg; lia).
    assert (HS : 0 < 2 ^ s) by (apply Z.pow_pos_nonneg; lia).
    revert E HK HE HS.
    generalize (2 ^ 1074) (2 ^ (e + 1074)) (2 ^ s). intros K A B E HK HA HB.
    destruct sg, (Z.ltb_spec z 0); cbn [cond_Zopp] in E; try reflexivity; nia.
  - rewrite <- Hm. reflexivity.
  - exact Hexp.
Qed.

Lemma is_dyadic_canon (f : float) (z s : Z) :
  is_dyadic f z s ->
  z <> 0 -> Z.abs z < 2 ^ 53 -> 0 <= s <= 1000 ->
  Prim2SF f = dyadic_SF z s.
Proof.
  intros (v & Hv & E) Hz Hb Hs.
  unfold binary64_value in Hv.
  pose proof (Prim2SF_valid f) as Hvalid.
  destruct (Prim2SF f) as [b | b | | sg m e]; cbn [SF_value] in Hv;
    try discriminate Hv.
  - injection Hv as <-. exfalso. apply Hz.
    assert (H : (inject_Z z == 0)%Q).
    { setoid_replace (inject_Z z)
        with (inject_Z z / inject_Z (2 ^ s) * inject_Z (2 ^ s))%Q
        by (field; apply inject_pow2_nonzero; lia).
      rewrite <- E. ring. }
    change 0%Q with (inject_Z 0) in H. rewrite inject_Z_injective in H. exact H.
  - injection Hv as <-. cbn [valid_binary] in Hvalid.
    apply canon_Z; try assumption.
    assert (He : -1074 <= e).
    { unfold bounded, canonical_mantissa in Hvalid.
      apply andb_prop in Hvalid. destruct Hvalid as [Hc _].
      apply Z.eqb_eq in Hc.
      unfold fexp, emin, prec, emax in Hc. lia. }
    apply (proj1 (inject_Z_injective _ _)). rewrite !inject_Z_mult.
    setoid_replace (inject_Z z)
      with (inject_Z z / inject_Z (2 ^ s) * inject_Z (2 ^ s))%Q
      by (field; apply inject_pow2_nonzero; lia).
    rewrite <- E.
    rewrite (Qpow2_split e 1074) by lia.
    field. apply inject_pow2_nonzero. lia.
Qed.

Lemma is_dyadic_zero (f : float) (s : Z) :
  0 <= s -> is_dyadic f 0 s -> exists b : bool, Prim2SF f = S754_zero b.
Proof.
  intros Hs (v & Hv & E). unfold binary64_value in Hv.
  pose proof (Prim2SF_valid f) as Hvalid.
  destruct (Prim2SF f) as [b | b | | sg m e]; cbn [SF_value] in Hv;
    try discriminate Hv.
  - exists b. reflexivity.
  - injection Hv as <-. exfalso.
    assert (H0 : (inject_Z (cond_Zopp sg (Z.pos m)) * 2 ^ e == 0)%Q).
    { rewrite E. unfold Qdiv. change (inject_Z 0) with 0%Q. ring. }
    apply Qmult_integral in H0. destruct H0 as [H0 | H0].
    + change 0%Q with (inject_Z 0) in H0. rewrite inject_Z_injective in H0.
      destruct sg; cbn [cond_Zopp] in H0; lia.
    + revert H0. apply Qpower_not_0. exact Q2_nonzero.
Qed.

(** The same on binary64 numbers, through the specification of the
    primitive operations. *)
Lemma is_dyadic_zero_intro (f : float) (s : Z) (b : bool) :
  Prim2SF f = S754_zero b -> is_dyadic f 0 s.
Proof.
  intros H. exists 0%Q. unfold binary64_value. rewrite H.
  split; [reflexivity |].
  unfold Qdiv. change (inject_Z 0) with 0%Q. ring.
Qed.

Lemma is_dyadic_of_SF (f : float) (z s : Z) :
  Prim2SF f = dyadic_SF z s -> Z.abs z < 2 ^ 53 -> 0 <= s -> is_dyadic f z s.
Proof.
  intros H Hb Hs. destruct (Z.eq_dec z 0) as [-> | Hz].
  - apply (is_dyadic_zero_intro f s false). exact H.
  - unfold is_dyadic, binary64_value. rewrite H.
    apply SF_value_dyadic; assumption.
Qed.

Lemma is_dyadic_SF (f g : float) (z s : Z) :
  Prim2SF g = Prim2SF f -> is_dyadic f z s -> is_dyadic g z s.
Proof.
  intros H (v & Hv & E). exists v. unfold binary64_value in *.
  rewrite H. auto.
Qed.

Lemma is_dyadic_rescale (f : float) (z s t : Z) :
  0 <= s -> 0 <= t -> is_dyadic f z s -> is_dyadic f (z * 2 ^ t) (s + t).
Proof.
  intros Hs Ht (v & Hv & E). exists v. split; [exact Hv |].
  rewrite E, Z.pow_add_r, !inject_Z_mult by lia.
  field. split; apply inject_pow2_nonzero; lia.
Qed.

Lemma is_dyadic_shape (f : float) (z s : Z) :
  0 <= s ->
  is_dyadic f z s ->
  (z = 0 /\ exists b, Prim2SF f = S754_zero b) \/
  (z <> 0 /\ exists sg m e, Prim2SF f = S754_finite sg m e).
Proof.
  intros Hs H. destruct (Z.eq_dec z 0) as [-> | Hz].
  - left. split; [reflexivity |]. eapply is_dyadic_zero; eauto.
  - right. split; [exact Hz |].
    destruct H as (v & Hv & E). unfold binary64_value in Hv.
    destruct (Prim2SF f) as [b | b | | sg m e]; cbn [SF_value] in Hv;
      try discriminate Hv.
    + injection Hv as <-. exfalso. apply Hz.
      assert (H : (inject_Z z == 0)%Q).
      { setoid_replace (inject_Z z)
          with (inject_Z z / inject_Z (2 ^ s) * inject_Z (2 ^ s))%Q
          by (field; apply inject_pow2_nonzero; lia).
        rewrite <- E. ring. }
      change 0%Q with (inject_Z 0) in H.
      rewrite inject_Z_injective in H. exact H.
    + eauto.
Qed.

Lemma is_dyadic_mul (f1 f2 : float) (z1 z2 s1 s2 : Z) :
  is_dyadic f1 z1 s1 -> is_dyadic f2 z2 s2 ->
  0 <= s1 -> 0 <= s2 -> s1 + s2 <= 1000 ->
  (z1 * z2 = 0 \/
   (Z.abs z1 < 2 ^ 53 /\ Z.abs z2 < 2 ^ 53 /\ Z.abs (z1 * z2) < 2 ^ 53)) ->
  is_dyadic (PrimFloat.mul f1 f2) (z1 * z2) (s1 + s2).
Proof.
  intros H1 H2 S1 S2 S12 Hb.
  pose proof (is_dyadic_shape f1 z1 s1 S1 H1) as Sh1.
  pose proof (is_dyadic_shape f2 z2 s2 S2 H2) as Sh2.
  destruct Sh1 as [(-> & b1 & E1) | (N1 & sg1 & m1 & e1 & E1)].
  - rewrite Z.mul_0_l.
    destruct Sh2 as [(_ & b2 & E2) | (_ & sg2 & m2 & e2 & E2)].
    + eapply is_dyadic_zero_intro. rewrite mul_spec, E1, E2. reflexivity.
    + eapply is_dyadic_zero_intro. rewrite mul_spec, E1, E2. reflexivity.
  - destruct Sh2 as [(-> & b2 & E2) | (N2 & _)].
    + rewrite Z.mul_0_r.
      eapply is_dyadic_zero_intro. rewrite mul_spec, E1, E2. reflexivity.
    + destruct Hb as [Hb | (B1 & B2 & B12)]; [nia |].
      apply is_dyadic_of_SF; [| exact B12 | lia].
      rewrite mul_spec.
      rewrite (is_dyadic_canon f1 z1 s1), (is_dyadic_canon f2 z2 s2)
        by (assumption || lia).
      apply SFmul_dyadic; assumption || lia.
Qed.

Lemma is_dyadic_add (f1 f2 : float) (z1 z2 s1 s2 : Z) :
  is_dyadic f1 z1 s1 -> is_dyadic f2 z2 s2 ->
  0 <= s1 <= s2 -> s2 <= 1000 ->
  Z.abs z1 < 2 ^ 53 -> Z.abs z2 < 2 ^ 53 ->
  Z.abs (z1 * 2 ^ (s2 - s1) + z2) < 2 ^ 53 ->
  is_dyadic (PrimFloat.add f1 f2) (z1 * 2 ^ (s2 - s1) + z2) s2.
Proof.
  intros H1 H2 S1 S2 B1 B2 B.
  pose proof (is_dyadic_shape f1 z1 s1 ltac:(lia) H1) as Sh1.
  pose proof (is_dyadic_shape f2 z2 s2 ltac:(lia) H2) as Sh2.
  destruct Sh1 as [(-> & b1 & E1) | (N1 & sg1 & m1 & e1 & E1)].
  - rewrite Z.mul_0_l, Z.add_0_l.
    destruct Sh2 as [(-> & b2 & E2) | (_ & sg2 & m2 & e2 & E2)].
    + assert (exists b, Prim2SF (PrimFloat.add f1 f2) = S754_zero b)
        as (b & Eb).
      { rewrite add_spec, E1, E2. destruct b1, b2; cbn; eauto. }
      eapply is_dyadic_zero_intro. exact Eb.
    + apply (is_dyadic_SF f2); [| exact H2].
      rewrite add_spec, E1, E2. reflexivity.
  - destruct Sh2 as [(-> & b2 & E2) | (N2 & _)].
    + rewrite Z.add_0_r.
      replace s2 with (s1 + (s2 - s1)) at 2 by lia.
      apply is_dyadic_rescale; try lia.
      apply (is_dyadic_SF f1); [| exact H1].
      rewrite add_spec, E1, E2. reflexivity.
    + apply is_dyadic_of_SF; [| exact B | lia].
      rewrite add_spec.
      rewrite (is_dyadic_canon f1 z1 s1), (is_dyadic_canon f2 z2 s2)
        by (assumption || lia).
      apply SFadd_dyadic; assumption || lia.
Qed.

(** The evaluation over the integers grows with its operands. *)
Lemma scaled_eval_mono (q a : Z) (zcs : list Z) :
  0 <= q -> 0 <= a ->
  forall R P R' P' : Z,
    0 <= R <= R' -> 0 <= P <= P' ->
    scaled_eval q a (map Z.abs zcs) R P
    <= scaled_eval q a (map Z.abs zcs) R' P'.
Proof.
  intros Hq Ha. induction zcs as [| c zcs IH]; intros R P R' P' HR HP;
    cbn [map scaled_eval]; [lia |].
  assert (H2 : 0 < 2 ^ q) by (apply Z.pow_pos_nonneg; lia).
  apply IH; nia.
Qed.

Lemma scaled_eval_ge (q a : Z) (zcs : list Z) :
  0 <= q -> 0 <= a ->
  forall R P : Z,
    0 <= R -> 0 <= P ->
    R <= scaled_eval q a (map Z.abs zcs) R P.
Proof.
  intros Hq Ha. induction zcs as [| c zcs IH]; intros R P HR HP;
    cbn [map scaled_eval]; [lia |].
  assert (H2 : 0 < 2 ^ q) by (apply Z.pow_pos_nonneg; lia).
  etransitivity; [| apply IH; nia]. nia.
Qed.

Lemma abs_mul_bounds (z P B : Z) :
  z * P <> 0 -> Z.abs z * Z.abs P < B ->
  Z.abs z < B /\ Z.abs P < B /\ Z.abs (z * P) < B.
Proof.
  intros Hne Hb. rewrite Z.abs_mul.
  apply Z.neq_mul_0 in Hne. destruct Hne as [Hz HP].
  assert (1 <= Z.abs z) by lia. assert (1 <= Z.abs P) by lia.
  nia.
Qed.

(** The sum of the terms from the left: every product and every sum is
    exact as long as the evaluation over the integers with absolute
    values stays below [2^53]. *)
Lemma fold_terms_exact (q zx : Z) (x : float) :
  0 <= q ->
  is_dyadic x zx q ->
  forall (cs : list float) (zcs : list Z),
    Forall2 (fun c z => is_dyadic c z q) cs zcs ->
    forall (result power : float) (R P s : Z),
      is_dyadic result R s ->
      is_dyadic power P s ->
      0 <= s ->
      s + q * Z.of_nat (List.length cs) <= 1000 ->
      (forall j, 0 <= j < Z.of_nat (List.length cs) ->
                 Z.abs (P * zx ^ j) < 2 ^ 53) ->
      scaled_eval q (Z.abs zx) (map Z.abs zcs) (Z.abs R) (Z.abs P) < 2 ^ 53 ->
      is_dyadic (fold_left PrimFloat.add (terms_binary64 x cs power) result)
                (scaled_eval q zx zcs R P)
                (s + q * Z.of_nat (List.length cs)).
Proof.
  intros Hq Hx. induction 1 as [| c z cs zcs Hc Hcs IH];
    intros result power R P s HR HP Hs Hscale Hpow Hb.
  - cbn [terms_binary64 fold_left scaled_eval List.length].
    change (Z.of_nat 0) with 0. rewrite Z.mul_0_r, Z.add_0_r. exact HR.
  - cbn [terms_binary64 fold_left scaled_eval].
    cbn [map scaled_eval] in Hb.
    cbn [List.length] in Hscale, Hpow.
    rewrite Nat2Z.inj_succ, Z.mul_succ_r in Hscale.
    assert (Hlen : 0 <= q * Z.of_nat (List.length cs)) by nia.
    assert (H2 : 0 < 2 ^ q) by (apply Z.pow_pos_nonneg; lia).
    assert (HaR : 0 <= Z.abs R) by lia.
    assert (HaP : 0 <= Z.abs P) by lia.
    assert (Haz : 0 <= Z.abs z) by lia.
    assert (Hax : 0 <= Z.abs zx) by lia.
    assert (HRq : Z.abs R <= Z.abs R * 2 ^ q)
      by (rewrite <- (Z.mul_1_r (Z.abs R)) at 1;
          apply Z.mul_le_mono_nonneg_l; lia).
    assert (Hzp : 0 <= Z.abs z * Z.abs P)
      by (apply Z.mul_nonneg_nonneg; lia).
    pose proof (scaled_eval_ge q (Z.abs zx) zcs Hq (Z.abs_nonneg zx)
                  (Z.abs R * 2 ^ q + Z.abs z * Z.abs P)
                  (Z.abs P * Z.abs zx) ltac:(nia) ltac:(nia)) as Hge.
    assert (Hterm : is_dyadic (PrimFloat.mul c power) (z * P) (q + s)).
    { apply is_dyadic_mul; try assumption; try lia.
      destruct (Z.eq_dec (z * P) 0) as [| Hne]; [left; assumption | right].
      apply abs_mul_bounds; [exact Hne | lia]. }
    assert (Hres : is_dyadic (PrimFloat.add result (PrimFloat.mul c power))
                     (R * 2 ^ q + z * P) (s + q)).
    { pose proof (Z.abs_triangle (R * 2 ^ q) (z * P)) as T.
      rewrite !Z.abs_mul, (Z.abs_eq (2 ^ q)) in T by lia.
      assert (A : is_dyadic (PrimFloat.add result (PrimFloat.mul c power))
                    (R * 2 ^ (q + s - s) + z * P) (q + s)).
      { apply is_dyadic_add; try assumption; try lia.
        replace (q + s - s) with q by lia. lia. }
      replace (q + s - s) with q in A by lia.
      replace (q + s) with (s + q) in A by lia. exact A. }
    destruct Hcs as [| c' z' cs zcs Hc' Hcs].
    + cbn [terms_binary64 fold_left scaled_eval List.length].
      change (Z.of_nat 1) with 1. rewrite Z.mul_1_r. exact Hres.
    + change (List.length (c :: c' :: cs))
        with (S (List.length (c' :: cs))).
      rewrite Nat2Z.inj_succ, Z.mul_succ_r, Z.add_assoc.
      rewrite <- (Z.add_assoc s), (Z.add_comm _ q), Z.add_assoc.
      assert (Hpw : is_dyadic (PrimFloat.mul power x) (P * zx) (s + q)).
      { apply is_dyadic_mul; try assumption; try lia.
        destruct (Z.eq_dec (P * zx) 0) as [| Hne]; [left; assumption |].
        right.
        pose proof (Hpow 1 ltac:(cbn [List.length]; lia)) as P1.
        rewrite Z.pow_1_r, Z.abs_mul in P1.
        apply abs_mul_bounds; assumption. }
      apply IH; try assumption; try lia.
      * intros j Hj.
        specialize (Hpow (j + 1) ltac:(lia)).
        rewrite Z.pow_add_r, Z.pow_1_r in Hpow by lia.
        replace (P * zx * zx ^ j) with (P * (zx ^ j * zx)) by ring.
        exact Hpow.
      * eapply Z.le_lt_trans; [| exact Hb].
        pose proof (Z.abs_triangle (R * 2 ^ q) (z * P)) as T.
        rewrite !Z.abs_mul, (Z.abs_eq (2 ^ q)) in T by lia.
        apply scaled_eval_mono; rewrite ?Z.abs_mul; lia.
Qed.

(** The evaluation over the integers is the numerator of the value over
    the rationals. *)
Lemma poly_value_proper (x : Q) (cs : list Q) :
  forall p p' : Q, (p == p')%Q -> (poly_value x cs p == poly_value x cs p')%Q.
Proof.
  induction cs as [| c cs IH]; intros p p' E; cbn [poly_value].
  - reflexivity.
  - rewrite (IH (p * x)%Q (p' * x)%Q) by (rewrite E; reflexivity).
    rewrite E. reflexivity.
Qed.

Lemma scaled_eval_value (q zx : Z) (zcs : list Z) :
  0 <= q ->
  forall R P s : Z,
    0 <= s ->
    (inject_Z (scaled_eval q zx zcs R P)
       / inject_Z (2 ^ (s + q * Z.of_nat (List.length zcs)))
     == inject_Z R / inject_Z (2 ^ s)
        + poly_value (inject_Z zx / inject_Z (2 ^ q))
            (map (fun z => inject_Z z / inject_Z (2 ^ q)) zcs)
            (inject_Z P / inject_Z (2 ^ s)))%Q.
Proof.
  intros Hq. induction zcs as [| c zcs IH]; intros R P s Hs;
    cbn [scaled_eval map poly_value List.length].
  - change (Z.of_nat 0) with 0. rewrite Z.mul_0_r, Z.add_0_r. ring.
  - rewrite Nat2Z.inj_succ, Z.mul_succ_r.
    replace (s + (q * Z.of_nat (List.length zcs) + q))
      with (s + q + q * Z.of_nat (List.length zcs)) by lia.
    rewrite IH by lia.
    rewrite (poly_value_proper _ _
               (inject_Z (P * zx) / inject_Z (2 ^ (s + q)))
               (inject_Z P / inject_Z (2 ^ s)
                * (inject_Z zx / inject_Z (2 ^ q)))).
    + rewrite Z.pow_add_r, !inject_Z_plus, !inject_Z_mult by lia.
      field. split; apply inject_pow2_nonzero; lia.
    + rewrite Z.pow_add_r, !inject_Z_mult by lia.
      field. split; apply inject_pow2_nonzero; lia.
Qed.

Lemma pow_abs_bound (zx n j : Z) :
  0 <= j <= n -> Z.abs zx ^ n < 2 ^ 53 -> Z.abs (1 * zx ^ j) < 2 ^ 53.
Proof.
  intros Hj Hb. rewrite Z.mul_1_l, Z.abs_pow.
  destruct (Z.eq_dec (Z.abs zx) 0) as [E | N].
  - rewrite E. destruct (Z.eq_dec j 0) as [-> | Hj0].
    + rewrite Z.pow_0_r. reflexivity.
    + rewrite Z.pow_0_l by lia. reflexivity.
  - eapply Z.le_lt_trans; [| exact Hb].
    apply Z.pow_le_mono_r; lia.
Qed.

Lemma is_dyadic_0 : is_dyadic 0%float 0 0.
Proof. apply (is_dyadic_zero_intro _ _ false). reflexivity. Qed.

Lemma is_dyadic_1 : is_dyadic 1%float 1 0.
Proof.
  eexists. split; [vm_compute; reflexivity |]. vm_compute. reflexivity.
Qed.

(** X19: on operands that are multiples of [2^(-q)] the evaluation in
    binary64 arithmetic is exact.  Let [x = zx / 2^q] and
    [coeffs[k] = zcs[k] / 2^q] for [k = 0 .. degree], with integers [zx]
    and [zcs[k]], [0 <= q] and [q * (degree + 1) <= 1000]; let [degree]
    be below [INT_MAX] and within the array.  If [|zx|^degree] and
    [2^(q * (degree + 1))] times the sum of [|coeffs[k]| * |x|^k] are
    below [2^53], then [polynomial], given enough fuel, returns the
    finite binary64 number whose value is exactly the sum of
    [coeffs[k] * x^k], the value that the evaluation over the rationals
    returns: the rounding of the products and sums loses nothing. *)
Theorem polynomial_binary64_exact (x : float) (coeffs : list float)
    (degree : Z) (fuel : nat) (q zx : Z) (zcs : list Z) :
  -1 <= degree < Z.of_nat (List.length coeffs) ->
  degree < Int32.INT_MAX ->
  (Z.to_nat (degree + 1) < fuel)%nat ->
  0 <= q ->
  q * (degree + 1) <= 1000 ->
  is_dyadic x zx q ->
  Forall2 (fun c z => is_dyadic c z q)
          (firstn (Z.to_nat (degree + 1)) coeffs) zcs ->
  Z.abs zx ^ degree < 2 ^ 53 ->
  scaled_eval q (Z.abs zx) (map Z.abs zcs) 0 1 < 2 ^ 53 ->
  (inject_Z (scaled_eval q (Z.abs zx) (map Z.abs zcs) 0 1)
   == inject_Z (2 ^ (q * (degree + 1)))
      * poly_value (inject_Z (Z.abs zx) / inject_Z (2 ^ q))
          (map (fun z => inject_Z (Z.abs z) / inject_Z (2 ^ q)) zcs) 1)%Q /\
  exists (r : float) (v v' : Q),
    polynomial_binary64 fuel x coeffs degree = Done r /\
    binary64_value r = Some v /\
    (v == poly_value (inject_Z zx / inject_Z (2 ^ q))
            (map (fun z => inject_Z z / inject_Z (2 ^ q)) zcs) 1)%Q /\
    polynomial fuel (inject_Z zx / inject_Z (2 ^ q))%Q
               (map (fun z => inject_Z z / inject_Z (2 ^ q))%Q zcs) degree
    = Done v' /\
    (v == v')%Q.
Proof.
  intros Hd Hmax Hf Hq Hscale Hx Hcs Hpow Hb.
  assert (Hlen : Z.of_nat (List.length
                             (firstn (Z.to_nat (degree + 1)) coeffs))
                 = degree + 1) by (rewrite length_firstn; lia).
  assert (Hlz : Z.of_nat (List.length zcs) = degree + 1)
    by (rewrite <- (Forall2_length Hcs); exact Hlen).
  assert (Hone : forall a : Q,
             (inject_Z 0 / inject_Z (2 ^ 0) + a == a)%Q).
  { intros a. change (inject_Z 0 / inject_Z (2 ^ 0))%Q with (0 / 1)%Q.
    field. }
  assert (Hone' : (inject_Z 1 / inject_Z (2 ^ 0) == 1)%Q) by reflexivity.
  split.
  - pose proof (scaled_eval_value q (Z.abs zx) (map Z.abs zcs) Hq 0 1 0
                  ltac:(lia)) as V.
    rewrite Hone, length_map, Hlz, Z.add_0_l, map_map in V.
    rewrite (poly_value_proper _ _ _ 1%Q Hone') in V.
    rewrite <- V. field. apply inject_pow2_nonzero. lia.
  - pose proof (fold_terms_exact q zx x Hq Hx _ _ Hcs 0%float 1%float
                  0 1 0 is_dyadic_0 is_dyadic_1 ltac:(lia)) as H.
    rewrite Hlen, Z.add_0_l in H.
    destruct H as (v & Hv & Ev).
    + exact Hscale.
    + intros j Hj. apply (pow_abs_bound zx degree); [lia | exact Hpow].
    + exact Hb.
    + pose proof (scaled_eval_value q zx zcs Hq 0 1 0 ltac:(lia)) as V.
      rewrite Hone, Hlz, Z.add_0_l in V.
      rewrite (poly_value_proper _ _ _ 1%Q Hone') in V.
      destruct (polynomial_evaluates
                  (inject_Z zx / inject_Z (2 ^ q))%Q
                  (map (fun z => inject_Z z / inject_Z (2 ^ q))%Q zcs)
                  degree fuel) as (v' & Hv' & Ev'); try assumption.
      { rewrite length_map. lia. }
      rewrite firstn_all2 in Ev' by (rewrite length_map; lia).
      exists (fold_left PrimFloat.add
                (terms_binary64 x (firstn (Z.to_nat (degree + 1)) coeffs)
                                1%float) 0%float), v, v'.
      split.
      { unfold polynomial_binary64, polynomial_over.
        rewrite (polynomial_binary64_loop x coeffs degree fuel)
          by (rewrite ?Z.sub_0_r; (exact Hf || lia)).
        rewrite Z.sub_0_r. reflexivity. }
      split; [exact Hv |].
      split; [rewrite Ev; exact V |].
      split; [exact Hv' |].
      rewrite Ev, V, Ev'. reflexivity.
Qed.

Lemma polynomial_binary64_exact_witness :
  (-1 <= 3 < Z.of_nat (List.length [1; 2; 3; 4]%float) /\
   3 < Int32.INT_MAX /\
   (Z.to_nat (3 + 1) < 5)%nat /\
   0 <= 1 /\
   1 * (3 + 1) <= 1000 /\
   is_dyadic 2.5%float 5 1 /\
   Forall2 (fun c z => is_dyadic c z 1)
           (firstn (Z.to_nat (3 + 1)) [1; 2; 3; 4]%float) [2; 4; 6; 8]%Z /\
   Z.abs 5 ^ 3 < 2 ^ 53 /\
   scaled_eval 1 (Z.abs 5) (map Z.abs [2; 4; 6; 8]%Z) 0 1 < 2 ^ 53) /\
  (inject_Z (scaled_eval 1 (Z.abs 5) (map Z.abs [2; 4; 6; 8]%Z) 0 1)
   == inject_Z (2 ^ (1 * (3 + 1)))
      * poly_value (inject_Z (Z.abs 5) / inject_Z (2 ^ 1))
          (map (fun z => inject_Z (Z.abs z) / inject_Z (2 ^ 1))
               [2; 4; 6; 8]%Z) 1)%Q /\
  exists (r : float) (v v' : Q),
    polynomial_binary64 5 2.5%float [1; 2; 3; 4]%float 3 = Done r /\
    binary64_value r = Some v /\
    (v == poly_value (inject_Z 5 / inject_Z (2 ^ 1))
            (map (fun z => inject_Z z / inject_Z (2 ^ 1))
                 [2; 4; 6; 8]%Z) 1)%Q /\
    polynomial 5 (inject_Z 5 / inject_Z (2 ^ 1))%Q
               (map (fun z => inject_Z z / inject_Z (2 ^ 1))%Q
                    [2; 4; 6; 8]%Z) 3
    = Done v' /\
    (v == v')%Q.
Proof.
  assert (D : forall (f : float) (z : Z) (v : Q),
             binary64_value f = Some v ->
             (v == inject_Z z / inject_Z (2 ^ 1))%Q ->
             is_dyadic f z 1)
    by (intros f z v Hv E; exists v; split; assumption).
  assert (H1 : -1 <= 3 < Z.of_nat (List.length [1; 2; 3; 4]%float))
    by (vm_compute; split; [discriminate | reflexivity]).
  assert (H2 : 3 < Int32.INT_MAX) by reflexivity.
  assert (H3 : (Z.to_nat (3 + 1) < 5)%nat) by (vm_compute; lia).
  assert (H4 : 0 <= 1) by lia.
  assert (H5 : 1 * (3 + 1) <= 1000) by lia.
  assert (H6 : is_dyadic 2.5%float 5 1)
    by (eapply D; vm_compute; reflexivity).
  assert (H7 : Forall2 (fun c z => is_dyadic c z 1)
                 (firstn (Z.to_nat (3 + 1)) [1; 2; 3; 4]%float)
                 [2; 4; 6; 8]%Z)
    by (repeat constructor; eapply D; vm_compute; reflexivity).
  assert (H8 : Z.abs 5 ^ 3 < 2 ^ 53) by reflexivity.
  assert (H9 : scaled_eval 1 (Z.abs 5) (map Z.abs [2; 4; 6; 8]%Z) 0 1 < 2 ^ 53)
    by reflexivity.
  exact (conj
           (conj H1 (conj H2 (conj H3 (conj H4 (conj H5 (conj H6
              (conj H7 (conj H8 H9))))))))
           (polynomial_binary64_exact 2.5%float [1; 2; 3; 4]%float 3 5 1 5
              [2; 4; 6; 8]%Z H1 H2 H3 H4 H5 H6 H7 H8 H9)).
Defined.

End PolynomialExact.

(** ** polynomial_eval.c: [degree] against the array *)

Section PolynomialEdges.

Import PolynomialEval.

(** The loop with a [degree] that is not an index of the array runs into
    the end of the array. *)
Lemma polynomial_loop_beyond (x : Q) (coeffs : list Q) (degree : Z)
    (fuel : nat) :
  Z.of_nat (List.length coeffs) <= degree <= Int32.INT_MAX ->
  forall (i : Z) (result power : Q),
    0 <= i <= Z.of_nat (List.length coeffs) ->
    (Z.to_nat (Z.of_nat (List.length coeffs) - i) < fuel)%nat ->
    polynomial_loop Q Qplus Qmult fuel x coeffs degree i result power
    = Fault.
Proof.
  intros Hd.
  induction fuel as [| fuel IH]; intros i result power Hi Hf; [lia |].
  cbn [polynomial_loop].
  destruct (Z.leb_spec i degree) as [_ | Hgt]; [| lia].
  destruct (Z.eq_dec i (Z.of_nat (List.length coeffs))) as [-> | Hne].
  - rewrite array_read_beyond by lia. reflexivity.
  - destruct (array_read_skipn coeffs i ltac:(lia)) as (c & Hc & _).
    rewrite Hc. cbn [bind].
    rewrite (add_small i 1 degree) by lia. apply IH; lia.
Qed.

(** X11: [polynomial] trusts [degree]: with a [degree] that is not below
    the number of coefficients it reads [coeffs[length]], outside of the
    array; with a negative [degree] it reads nothing and returns [0]. *)
Theorem polynomial_degree_unchecked (x : Q) (coeffs : list Q)
    (degree : Z) (fuel : nat) :
  degree < 0 \/ Z.of_nat (List.length coeffs) <= degree <= Int32.INT_MAX ->
  (List.length coeffs < fuel)%nat ->
  (degree < 0 -> polynomial fuel x coeffs degree = Done 0%Q) /\
  (0 <= degree -> polynomial fuel x coeffs degree = Fault).
Proof.
  intros Hd Hf. split; intros Hs.
  - destruct fuel as [| fuel]; [lia |].
    unfold polynomial, polynomial_over. cbn [polynomial_loop].
    destruct (Z.leb_spec 0 degree); [lia | reflexivity].
  - destruct Hd as [Hd | Hd]; [lia |].
    unfold polynomial, polynomial_over.
    apply polynomial_loop_beyond; [exact Hd | |]; lia.
Qed.

Lemma polynomial_degree_unchecked_witness :
  ((4 < 0 \/ Z.of_nat (List.length main_coeffs) <= 4 <= Int32.INT_MAX) /\
   (List.length main_coeffs < 5)%nat /\
   0 <= 4) /\
  polynomial 5 main_x main_coeffs 4 = Fault.
Proof.
  assert (H1 : 4 < 0 \/
               Z.of_nat (List.length main_coeffs) <= 4 <= Int32.INT_MAX)
    by (right; vm_compute; split; discriminate).
  assert (H2 : (List.length main_coeffs < 5)%nat) by (vm_compute; lia).
  assert (H3 : 0 <= 4) by (vm_compute; discriminate).
  exact (conj (conj H1 (conj H2 H3))
              (proj2 (polynomial_degree_unchecked main_x main_coeffs 4 5
                        H1 H2) H3)).
Defined.

End PolynomialEdges.

(** ** string_search.c: the shape of a run *)

Section StringSearchRuns.

Import StringSearch.

Lemma trace_in_bounds_app (T P : Z) (tr1 tr2 : list event) :
  trace_in_bounds T P tr1 -> trace_in_bounds T P tr2 ->
  trace_in_bounds T P (tr1 ++ tr2).
Proof. intros H1 H2. apply Forall_app. split; assumption. Qed.

Lemma candidates_app (tr1 tr2 : list event) :
  candidates (tr1 ++ tr2) = candidates tr1 ++ candidates tr2.
Proof. unfold candidates. apply flat_map_app. Qed.

Lemma offsets_S (lo : Z) (n : nat) :
  offsets lo (S n) = lo :: offsets (lo + 1) n.
Proof.
  unfold offsets. cbn [seq map]. rewrite Z.add_0_r. f_equal.
  rewrite <- seq_shift, map_map. apply map_ext. intros k. lia.
Qed.

Section Run.

Variables (text pattern : list ascii) (T P : Z).
Hypothesis text_length : strlen text = Done T.
Hypothesis text_fits : T <= Int32.INT_MAX.
Hypothesis pattern_fits : P <= Int32.INT_MAX.
Hypothesis pattern_nonempty : 0 < P.

(** What the inner loop adds to the record: comparisons only, each of them
    inside the text and the pattern. *)
Lemma match_loop_run (i : Z) (fuel : nat) :
  0 <= i <= T - P ->
  forall (j : Z) (trace : list event) (j1 : Z) (trace1 : list event),
    0 <= j <= P ->
    match_loop fuel text pattern P i j trace = Done (j1, trace1) ->
    candidates trace1 = candidates trace /\
    (trace_in_bounds T P trace -> trace_in_bounds T P trace1).
Proof.
  intros Hi.
  induction fuel as [| fuel IH]; intros j trace j1 trace1 Hj Hrun;
    [discriminate |].
  cbn [match_loop] in Hrun.
  destruct (Z.ltb_spec j P) as [Hlt | Hge].
  - destruct (array_read text (Int32.add i j)) as [t | |];
      try discriminate.
    destruct (array_read pattern j) as [p | |]; try discriminate.
    cbn [bind] in Hrun.
    assert (Hstep : candidates (trace ++ [Compare i j]) = candidates trace
                    /\ (trace_in_bounds T P trace ->
                        trace_in_bounds T P (trace ++ [Compare i j]))).
    { split.
      - rewrite candidates_app. cbn. apply app_nil_r.
      - intros Hb. apply trace_in_bounds_app; [exact Hb |].
        repeat constructor; lia. }
    destruct Hstep as [Hc Hb].
    destruct (negb (Ascii.eqb t p)).
    + injection Hrun as <- <-. split; assumption.
    + rewrite (add_small j 1 P) in Hrun by lia.
      apply IH in Hrun; [| lia]. destruct Hrun as [Hc' Hb'].
      split; [congruence | auto].
  - injection Hrun as <- <-. split; auto.
Qed.

(** What the outer loop adds: the candidate offsets from [i] on, one by
    one, up to the one it returns or, failing that, up to [T - P]. *)
Lemma search_loop_run (fuel : nat) :
  forall (i : Z) (trace : list event) (r : Z) (trace1 : list event),
    0 <= i ->
    search_loop fuel text pattern T P i trace = Done (r, trace1) ->
    (r = -1 \/ i <= r <= T - P) /\
    candidates trace1 =
      candidates trace
      ++ offsets i (Z.to_nat ((if r =? -1 then T - P else r) + 1 - i)) /\
    (trace_in_bounds T P trace -> trace_in_bounds T P trace1).
Proof.
  pose proof (strlen_bound _ _ text_length) as HT.
  induction fuel as [| fuel IH]; intros i trace r trace1 Hi Hrun;
    [discriminate |].
  cbn [search_loop] in Hrun.
  rewrite sub_small in Hrun by lia.
  destruct (Z.leb_spec i (T - P)) as [Hle | Hgt].
  - destruct (match_loop fuel text pattern P i 0 (trace ++ [Candidate i]))
      as [[j1 tr] | |] eqn:Hm; try discriminate.
    cbn [bind] in Hrun.
    apply match_loop_run in Hm; try lia. destruct Hm as [Hc Hb].
    rewrite candidates_app in Hc. cbn [candidates flat_map app] in Hc.
    assert (Hb' : trace_in_bounds T P trace -> trace_in_bounds T P tr).
    { intros H. apply Hb, trace_in_bounds_app; [exact H |].
      repeat constructor; lia. }
    destruct (j1 =? P).
    + injection Hrun as <- <-.
      split; [right; lia |]. split; [| exact Hb'].
      destruct (Z.eqb_spec i (-1)) as [| _]; [lia |].
      replace (Z.to_nat (i + 1 - i)) with 1%nat by lia.
      rewrite Hc. unfold offsets. cbn. now rewrite Z.add_0_r.
    + rewrite (add_small i 1 T) in Hrun by lia.
      apply IH in Hrun; [| lia].
      destruct Hrun as (Hr & Hcs & Hbs).
      split; [lia |]. split; [| auto].
      rewrite Hcs, Hc, <- app_assoc. f_equal.
      set (last := if r =? -1 then T - P else r) in *.
      assert (Hlast : i + 1 <= last + 1).
      { unfold last. destruct (Z.eqb_spec r (-1)); lia. }
      replace (Z.to_nat (last + 1 - i))
        with (S (Z.to_nat (last + 1 - (i + 1)))) by lia.
      rewrite offsets_S. reflexivity.
  - injection Hrun as <- <-.
    split; [left; reflexivity |]. split; [| auto].
    change (-1 =? -1) with true. cbv iota.
    replace (Z.to_nat (T - P + 1 - i)) with O by lia.
    unfold offsets. cbn [seq map]. now rewrite app_nil_r.
Qed.

End Run.

(** The run on a text of length [T] and a pattern of length [P]: its
    result, the candidate offsets it entered, and the bounds of what it
    read. *)
Lemma string_search_run
    (text pattern : list ascii) (T P : Z) (fuel : nat) :
  strlen text = Done T ->
  strlen pattern = Done P ->
  T <= Int32.INT_MAX ->
  P <= Int32.INT_MAX ->
  (Z.to_nat T + 1 < fuel)%nat ->
  exists (r : Z) (trace : list event),
    string_search_traced fuel text pattern = Done (r, trace) /\
    (r = -1 \/ 0 <= r <= T - P) /\
    candidates trace =
      offsets 0 (Z.to_nat ((if r =? -1 then T - P else r) + 1)) /\
    trace_in_bounds T P trace.
Proof.
  intros HT HP HfT HfP Hf.
  pose proof (strlen_bound _ _ HT) as HTb.
  pose proof (strlen_bound _ _ HP) as HPb.
  rewrite (string_search_traced_unfold text pattern T P HT HP HfT HfP).
  destruct (Z.eq_dec P 0) as [HP0 | HP0].
  - destruct fuel as [| [| fuel]]; try lia.
    exists 0, [Candidate 0]. split.
    + eapply search_loop_pattern_empty; eauto.
    + split; [right; lia |]. split; [reflexivity |].
      repeat constructor; lia.
  - destruct (search_loop_spec text pattern T P HT HP HfT HfP fuel
                ltac:(lia) 0 [])
      as (r & trace & Hrun & _); try lia.
    { intros i' [Hr _]. lia. }
    exists r, trace. split; [exact Hrun |].
    eapply search_loop_run in Hrun; eauto; try lia.
    destruct Hrun as (Hr & Hc & Hb).
    rewrite Z.sub_0_r in Hc. cbn [candidates flat_map app] in Hc.
    split; [exact Hr |]. split; [exact Hc |].
    apply Hb. constructor.
Qed.

(** X12: on every text of length [T] and pattern of length [P], both
    representable as [int] (at most [INT_MAX]), [string_search], given
    enough fuel, reads [text[i + j]] and [pattern[j]] only with [j] below
    [P] and [i + j] below [T]: no comparison touches a terminator or
    anything behind it, and every candidate offset leaves room for the
    whole pattern. *)
Theorem string_search_reads_in_bounds
    (text pattern : list ascii) (T P : Z) (fuel : nat) :
  strlen text = Done T ->
  strlen pattern = Done P ->
  T <= Int32.INT_MAX ->
  P <= Int32.INT_MAX ->
  (Z.to_nat T + 1 < fuel)%nat ->
  exists (r : Z) (trace : list event),
    string_search_traced fuel text pattern = Done (r, trace) /\
    trace_in_bounds T P trace.
Proof.
  intros HT HP HfT HfP Hf.
  destruct (string_search_run text pattern T P fuel HT HP HfT HfP Hf)
    as (r & trace & Hrun & _ & _ & Hb).
  exists r, trace. split; assumption.
Qed.

Lemma string_search_reads_in_bounds_witness :
  (strlen main_text = Done 27 /\
   strlen main_pattern = Done 7 /\
   27 <= Int32.INT_MAX /\
   7 <= Int32.INT_MAX /\
   (Z.to_nat 27 + 1 < 29)%nat) /\
  exists (r : Z) (trace : list event),
    string_search_traced 29 main_text main_pattern = Done (r, trace) /\
    trace_in_bounds 27 7 trace.
Proof.
  assert (H1 : strlen main_text = Done 27) by reflexivity.
  assert (H2 : strlen main_pattern = Done 7) by reflexivity.
  assert (H3 : 27 <= Int32.INT_MAX) by (vm_compute; discriminate).
  assert (H4 : 7 <= Int32.INT_MAX) by (vm_compute; discriminate).
  assert (H5 : (Z.to_nat 27 + 1 < 29)%nat) by (vm_compute; lia).
  exact (conj (conj H1 (conj H2 (conj H3 (conj H4 H5))))
              (string_search_reads_in_bounds main_text main_pattern 27 7 29
                 H1 H2 H3 H4 H5)).
Defined.

(** X13: on every text of length [T] and pattern of length [P], both
    representable as [int] (at most [INT_MAX]), [string_search], given
    enough fuel, enters the candidate offsets [0, 1, 2, ...] in this
    order, each once; it enters none after the offset it returns, and when
    it returns [-1] it has entered every offset up to [T - P] (none at all
    when the pattern is longer than the text).  The result is [-1] or an
    offset in [0 .. T - P]. *)
Theorem string_search_candidates_in_order
    (text pattern : list ascii) (T P : Z) (fuel : nat) :
  strlen text = Done T ->
  strlen pattern = Done P ->
  T <= Int32.INT_MAX ->
  P <= Int32.INT_MAX ->
  (Z.to_nat T + 1 < fuel)%nat ->
  exists (r : Z) (trace : list event),
    string_search_traced fuel text pattern = Done (r, trace) /\
    (r = -1 \/ 0 <= r <= T - P) /\
    candidates trace =
      offsets 0 (Z.to_nat ((if r =? -1 then T - P else r) + 1)).
Proof.
  intros HT HP HfT HfP Hf.
  destruct (string_search_run text pattern T P fuel HT HP HfT HfP Hf)
    as (r & trace & Hrun & Hr & Hc & _).
  exists r, trace. repeat split; assumption.
Qed.

Lemma string_search_candidates_in_order_witness :
  (strlen main_text = Done 27 /\
   strlen main_pattern = Done 7 /\
   27 <= Int32.INT_MAX /\
   7 <= Int32.INT_MAX /\
   (Z.to_nat 27 + 1 < 29)%nat) /\
  exists (r : Z) (trace : list event),
    string_search_traced 29 main_text main_pattern = Done (r, trace) /\
    (r = -1 \/ 0 <= r <= 27 - 7) /\
    candidates trace =
      offsets 0 (Z.to_nat ((if r =? -1 then 27 - 7 else r) + 1)).
Proof.
  assert (H1 : strlen main_text = Done 27) by reflexivity.
  assert (H2 : strlen main_pattern = Done 7) by reflexivity.
  assert (H3 : 27 <= Int32.INT_MAX) by (vm_compute; discriminate).
  assert (H4 : 7 <= Int32.INT_MAX) by (vm_compute; discriminate).
  assert (H5 : (Z.to_nat 27 + 1 < 29)%nat) by (vm_compute; lia).
  exact (conj (conj H1 (conj H2 (conj H3 (conj H4 H5))))
              (string_search_candidates_in_order main_text main_pattern
                 27 7 29 H1 H2 H3 H4 H5)).
Defined.

End StringSearchRuns.

(** ** string_search.c: the result in terms of lists *)

Section StringSearchSublist.

Import StringSearch.

Lemma strlen_terminated (s rest : list ascii) :
  ~ In NUL s -> strlen (s ++ NUL :: rest) = Done (Z.of_nat (List.length s)).
Proof.
  induction s as [| c s IH]; intros Hs.
  - reflexivity.
  - cbn [app strlen].
    destruct (Ascii.eqb_spec c NUL) as [-> | _].
    + exfalso. apply Hs. left. reflexivity.
    + rewrite IH by (intros H; apply Hs; right; exact H).
      cbn [bind List.length]. f_equal. lia.
Qed.

(** An occurrence at offset [i], as the search sees it in the two arrays,
    is a splitting of the text around the pattern with [i] characters in
    front. *)
Lemma occurs_at_splits (s pat : list ascii) (i : Z) :
  occurs_at (s ++ [NUL]) (pat ++ [NUL])
            (Z.of_nat (List.length s)) (Z.of_nat (List.length pat)) i
  <->
  exists pre post : list ascii,
    s = pre ++ pat ++ post /\ Z.of_nat (List.length pre) = i.
Proof.
  split.
  - intros [Hr Hm].
    assert (Hpat : firstn (List.length pat) (skipn (Z.to_nat i) s) = pat).
    { apply nth_error_ext. intros n.
      rewrite nth_error_firstn.
      destruct (Nat.ltb_spec n (List.length pat)) as [Hlt | Hge].
      - rewrite nth_error_skipn.
        specialize (Hm (Z.of_nat n) ltac:(lia)).
        replace (Z.to_nat (i + Z.of_nat n)) with (Z.to_nat i + n)%nat
          in Hm by lia.
        rewrite Nat2Z.id in Hm.
        rewrite !nth_error_app1 in Hm by lia. exact Hm.
      - symmetry. apply nth_error_None. exact Hge. }
    exists (firstn (Z.to_nat i) s),
           (skipn (List.length pat) (skipn (Z.to_nat i) s)).
    split.
    + rewrite <- Hpat at 1. now rewrite !firstn_skipn.
    + rewrite length_firstn. lia.
  - intros (pre & post & -> & <-).
    rewrite !length_app. split; [lia |].
    intros j Hj.
    replace (Z.to_nat (Z.of_nat (List.length pre) + j))
      with (List.length pre + Z.to_nat j)%nat by lia.
    rewrite <- !app_assoc.
    rewrite nth_error_app2 by lia.
    replace (List.length pre + Z.to_nat j - List.length pre)%nat
      with (Z.to_nat j) by lia.
    rewrite !nth_error_app1 by lia. reflexivity.
Qed.

(** The result for a pattern of any length, the empty one included: the
    first occurrence, or [-1] when there is none. *)
Lemma string_search_result
    (text pattern : list ascii) (T P : Z) (fuel : nat) :
  strlen text = Done T ->
  strlen pattern = Done P ->
  T <= Int32.INT_MAX ->
  P <= Int32.INT_MAX ->
  (Z.to_nat T + 1 < fuel)%nat ->
  exists r : Z,
    string_search fuel text pattern = Done r /\
    ((occurs_at text pattern T P r /\
      forall i, occurs_at text pattern T P i -> r <= i) \/
     (r = -1 /\ forall i, ~ occurs_at text pattern T P i)).
Proof.
  intros HT HP HfT HfP Hf.
  pose proof (strlen_bound _ _ HT) as HTb.
  pose proof (strlen_bound _ _ HP) as HPb.
  unfold string_search.
  rewrite (string_search_traced_unfold text pattern T P HT HP HfT HfP).
  destruct (Z.eq_dec P 0) as [HP0 | HP0].
  - destruct fuel as [| [| fuel]]; try lia.
    exists 0. split.
    + erewrite search_loop_pattern_empty; eauto.
    + left. subst P. split.
      * split; [lia |]. intros j Hj. lia.
      * intros i [Hi _]. lia.
  - destruct (search_loop_spec text pattern T P HT HP HfT HfP fuel
                ltac:(lia) 0 [])
      as (r & trace & Hrun & Hspec); try lia.
    { intros i' [Hr _]. lia. }
    exists r. rewrite Hrun. split; [reflexivity | exact Hspec].
Qed.

(** X14: for every text [s] and pattern [pat] without [NUL], of at most
    [INT_MAX] characters each and held in terminated arrays,
    [string_search], given enough fuel, returns the number of characters
    in front of the leftmost place where [pat] occurs in [s] as a
    contiguous block, and [-1] exactly when [s] cannot be split as
    [pre ++ pat ++ post]; the empty pattern occurs in front of
    everything. *)
Theorem string_search_leftmost_split
    (s pat : list ascii) (fuel : nat) :
  ~ In NUL s ->
  ~ In NUL pat ->
  Z.of_nat (List.length s) <= Int32.INT_MAX ->
  Z.of_nat (List.length pat) <= Int32.INT_MAX ->
  (List.length s + 1 < fuel)%nat ->
  exists r : Z,
    string_search fuel (s ++ [NUL]) (pat ++ [NUL]) = Done r /\
    ((r = -1 /\ forall pre post : list ascii, s <> pre ++ pat ++ post) \/
     (exists pre post : list ascii,
         s = pre ++ pat ++ post /\
         r = Z.of_nat (List.length pre) /\
         forall pre' post' : list ascii,
           s = pre' ++ pat ++ post' ->
           (List.length pre <= List.length pre')%nat)).
Proof.
  intros Hs Hp HfT HfP Hf.
  pose proof (strlen_terminated s [] Hs) as HT.
  pose proof (strlen_terminated pat [] Hp) as HP.
  destruct (string_search_result _ _ _ _ fuel HT HP HfT HfP)
    as (r & Hrun & Hspec); [lia |].
  exists r. split; [exact Hrun |].
  destruct Hspec as [[Hocc Hmin] | [-> Hnone]].
  - right. apply occurs_at_splits in Hocc.
    destruct Hocc as (pre & post & E & Hlen).
    exists pre, post. split; [exact E |]. split; [lia |].
    intros pre' post' E'.
    assert (Hocc' : occurs_at (s ++ [NUL]) (pat ++ [NUL])
                      (Z.of_nat (List.length s))
                      (Z.of_nat (List.length pat))
                      (Z.of_nat (List.length pre')))
      by (apply occurs_at_splits; exists pre', post'; auto).
    apply Hmin in Hocc'. lia.
  - left. split; [reflexivity |]. intros pre post E.
    apply (Hnone (Z.of_nat (List.length pre))).
    apply occurs_at_splits. exists pre, post. auto.
Qed.

Lemma string_search_leftmost_split_witness :
  (~ In NUL (list_ascii_of_string "abcabd") /\
   ~ In NUL (list_ascii_of_string "abd") /\
   Z.of_nat (List.length (list_ascii_of_string "abcabd"))
     <= Int32.INT_MAX /\
   Z.of_nat (List.length (list_ascii_of_string "abd")) <= Int32.INT_MAX /\
   (List.length (list_ascii_of_string "abcabd") + 1 < 8)%nat) /\
  exists r : Z,
    string_search 8 (list_ascii_of_string "abcabd" ++ [NUL])
                    (list_ascii_of_string "abd" ++ [NUL]) = Done r /\
    ((r = -1 /\
      forall pre post : list ascii,
        list_ascii_of_string "abcabd"
        <> pre ++ list_ascii_of_string "abd" ++ post) \/
     (exists pre post : list ascii,
         list_ascii_of_string "abcabd"
         = pre ++ list_ascii_of_string "abd" ++ post /\
         r = Z.of_nat (List.length pre) /\
         forall pre' post' : list ascii,
           list_ascii_of_string "abcabd"
           = pre' ++ list_ascii_of_string "abd" ++ post' ->
           (List.length pre <= List.length pre')%nat)).
Proof.
  assert (H1 : ~ In NUL (list_ascii_of_string "abcabd"))
    by (cbn; intros H; repeat destruct H as [H | H]; discriminate || auto).
  assert (H2 : ~ In NUL (list_ascii_of_string "abd"))
    by (cbn; intros H; repeat destruct H as [H | H]; discriminate || auto).
  assert (H3 : Z.of_nat (List.length (list_ascii_of_string "abcabd"))
               <= Int32.INT_MAX) by (vm_compute; discriminate).
  assert (H4 : Z.of_nat (List.length (list_ascii_of_string "abd"))
               <= Int32.INT_MAX) by (vm_compute; discriminate).
  assert (H5 : (List.length (list_ascii_of_string "abcabd") + 1 < 8)%nat)
    by (vm_compute; lia).
  exact (conj (conj H1 (conj H2 (conj H3 (conj H4 H5))))
              (string_search_leftmost_split _ _ 8 H1 H2 H3 H4 H5)).
Defined.

End StringSearchSublist.

(** ** How the reductions compose *)

Section Composition.

Import GcdAlgorithm ArrayOperations New1 New2.

(** X15: on non-negative operands [gcd] does not depend on the order of
    its arguments and can be folded over three values in either grouping;
    on operands of mixed sign the order matters: [gcd(5, -5)] is [-5] and
    [gcd(-5, 5)] is [5]. *)
Theorem gcd_commutes_and_associates (a b c : Z) :
  0 <= a -> 0 <= b -> 0 <= c ->
  gcd a b = gcd b a /\
  gcd (gcd a b) c = gcd a (gcd b c) /\
  gcd 5 (-5) = -5 /\
  gcd (-5) 5 = 5.
Proof.
  intros Ha Hb Hc.
  pose proof (Z.gcd_nonneg a b) as Hab.
  pose proof (Z.gcd_nonneg b c) as Hbc.
  split; [| split; [| split; reflexivity]].
  - rewrite !gcd_is_Zgcd by assumption. apply Z.gcd_comm.
  - rewrite (gcd_is_Zgcd a b), (gcd_is_Zgcd b c) by assumption.
    rewrite !gcd_is_Zgcd by assumption.
    symmetry. apply Z.gcd_assoc.
Qed.

Lemma gcd_commutes_and_associates_witness :
  (0 <= 48 /\ 0 <= 18 /\ 0 <= 27) /\
  gcd 48 18 = gcd 18 48 /\
  gcd (gcd 48 18) 27 = gcd 48 (gcd 18 27) /\
  gcd 5 (-5) = -5 /\
  gcd (-5) 5 = 5.
Proof.
  assert (H1 : 0 <= 48) by (vm_compute; discriminate).
  assert (H2 : 0 <= 18) by (vm_compute; discriminate).
  assert (H3 : 0 <= 27) by (vm_compute; discriminate).
  exact (conj (conj H1 (conj H2 H3))
              (gcd_commutes_and_associates 48 18 27 H1 H2 H3)).
Defined.

Lemma list_sum_app (l1 l2 : list Z) :
  list_sum (l1 ++ l2) = list_sum l1 + list_sum l2.
Proof.
  unfold list_sum. induction l1 as [| x l1 IH]; cbn [app fold_right]; lia.
Qed.

Lemma list_sum_permutation (l1 l2 : list Z) :
  Permutation l1 l2 -> list_sum l1 = list_sum l2.
Proof.
  unfold list_sum.
  induction 1; cbn [fold_right] in *; lia.
Qed.

(** Both functions on an array passed with its length: the sum modulo
    2^32. *)
Lemma sum_array_value (arr : list Z) (fuel : nat) :
  Z.of_nat (List.length arr) <= Int32.INT_MAX ->
  (List.length arr < fuel)%nat ->
  sum_array_unoptimized fuel arr (Z.of_nat (List.length arr)) =
    Done (Int32.wrap (list_sum arr)) /\
  sum_array_optimized fuel arr (Z.of_nat (List.length arr)) =
    Done (Int32.wrap (list_sum arr)).
Proof.
  intros Hlen Hf. split.
  - unfold sum_array_unoptimized.
    rewrite sum_loop_spec; try assumption; try lia;
      [reflexivity | apply in_range_0].
  - unfold sum_array_optimized.
    rewrite unrolled_then_leftover_spec; try assumption; try lia;
      [reflexivity | apply in_range_0].
Qed.

(** X16: the result of either sum function does not depend on the order
    of the elements, and the result on two arrays laid end to end is the
    [int] sum of the two results, overflow or not. *)
Theorem sum_array_rearranged (l1 l2 arr' : list Z) (fuel : nat) :
  Permutation (l1 ++ l2) arr' ->
  Z.of_nat (List.length (l1 ++ l2)) <= Int32.INT_MAX ->
  (List.length (l1 ++ l2) < fuel)%nat ->
  exists s1 s2 : Z,
    sum_array_optimized fuel l1 (Z.of_nat (List.length l1)) = Done s1 /\
    sum_array_optimized fuel l2 (Z.of_nat (List.length l2)) = Done s2 /\
    sum_array_optimized fuel (l1 ++ l2) (Z.of_nat (List.length (l1 ++ l2)))
      = Done (Int32.add s1 s2) /\
    sum_array_optimized fuel arr' (Z.of_nat (List.length arr'))
      = Done (Int32.add s1 s2) /\
    sum_array_unoptimized fuel arr' (Z.of_nat (List.length arr'))
      = Done (Int32.add s1 s2).
Proof.
  intros Hperm Hlen Hf.
  pose proof (Permutation_length Hperm) as Hl.
  pose proof (length_app l1 l2) as Happ.
  exists (Int32.wrap (list_sum l1)), (Int32.wrap (list_sum l2)).
  assert (Hadd : Int32.add (Int32.wrap (list_sum l1))
                           (Int32.wrap (list_sum l2))
                 = Int32.wrap (list_sum (l1 ++ l2))).
  { unfold Int32.add.
    rewrite wrap_add_l, Z.add_comm, wrap_add_l, list_sum_app.
    f_equal. lia. }
  rewrite Hadd.
  split; [apply sum_array_value; lia |].
  split; [apply sum_array_value; lia |].
  split; [apply sum_array_value; lia |].
  rewrite (list_sum_permutation _ _ Hperm).
  split; apply sum_array_value; lia.
Qed.

Lemma sum_array_rearranged_witness :
  (Permutation ([1; 2] ++ [3]) [3; 1; 2] /\
   Z.of_nat (List.length ([1; 2] ++ [3])) <= Int32.INT_MAX /\
   (List.length ([1; 2] ++ [3]) < 4)%nat) /\
  exists s1 s2 : Z,
    sum_array_optimized 4 [1; 2] (Z.of_nat (List.length [1; 2]))
      = Done s1 /\
    sum_array_optimized 4 [3] (Z.of_nat (List.length [3])) = Done s2 /\
    sum_array_optimized 4 ([1; 2] ++ [3])
      (Z.of_nat (List.length ([1; 2] ++ [3]))) = Done (Int32.add s1 s2) /\
    sum_array_optimized 4 [3; 1; 2] (Z.of_nat (List.length [3; 1; 2]))
      = Done (Int32.add s1 s2) /\
    sum_array_unoptimized 4 [3; 1; 2] (Z.of_nat (List.length [3; 1; 2]))
      = Done (Int32.add s1 s2).
Proof.
  assert (H1 : Permutation ([1; 2] ++ [3]) [3; 1; 2]).
  { cbn [app].
    apply (Permutation_trans (l' := [1; 3; 2]));
      [apply perm_skip, perm_swap | apply perm_swap]. }
  assert (H2 : Z.of_nat (List.length ([1; 2] ++ [3])) <= Int32.INT_MAX)
    by (vm_compute; discriminate).
  assert (H3 : (List.length ([1; 2] ++ [3]) < 4)%nat) by (cbn; lia).
  exact (conj (conj H1 (conj H2 H3))
              (sum_array_rearranged [1; 2] [3] [3; 1; 2] 4 H1 H2 H3)).
Defined.

(** [find_max] on a non-empty array passed with its length: the fold of
    [Z.max] over it. *)
Lemma find_max_value (a : Z) (rest : list Z) (fuel : nat) :
  Z.of_nat (List.length (a :: rest)) <= Int32.INT_MAX ->
  (List.length (a :: rest) <= fuel)%nat ->
  find_max fuel (a :: rest) (Z.of_nat (List.length (a :: rest)))
  = Done (fold_left Z.max rest a).
Proof.
  intros Hlen Hf. unfold find_max.
  cbn [array_read Z.ltb Z.compare Z.to_nat nth_error bind].
  rewrite find_max_loop_spec; try assumption.
  - reflexivity.
  - cbn [List.length]. lia.
  - cbn [List.length] in *. lia.
Qed.

(** The greatest element of a list is one value, however it is found. *)
Lemma greatest_unique (l : list Z) (m m' : Z) :
  In m l -> (forall x, In x l -> x <= m) ->
  In m' l -> (forall x, In x l -> x <= m') ->
  m = m'.
Proof.
  intros Hm Hub Hm' Hub'.
  pose proof (Hub m' Hm'). pose proof (Hub' m Hm). lia.
Qed.

Lemma fold_left_max_greatest (a : Z) (rest : list Z) :
  In (fold_left Z.max rest a) (a :: rest) /\
  forall x, In x (a :: rest) -> x <= fold_left Z.max rest a.
Proof.
  split.
  - destruct (fold_left_max_In rest a) as [-> | H]; [left | right]; auto.
  - destruct (fold_left_max_ge rest a) as [H1 H2].
    intros x [<- | Hx]; auto.
Qed.

(** X17: the result of [find_max] does not depend on the order of the
    elements, and the result on two non-empty arrays laid end to end is
    the greater of the two results. *)
Theorem find_max_rearranged (l1 l2 arr' : list Z) (fuel : nat) :
  l1 <> [] ->
  l2 <> [] ->
  Permutation (l1 ++ l2) arr' ->
  Z.of_nat (List.length (l1 ++ l2)) <= Int32.INT_MAX ->
  (List.length (l1 ++ l2) <= fuel)%nat ->
  exists m1 m2 : Z,
    find_max fuel l1 (Z.of_nat (List.length l1)) = Done m1 /\
    find_max fuel l2 (Z.of_nat (List.length l2)) = Done m2 /\
    find_max fuel (l1 ++ l2) (Z.of_nat (List.length (l1 ++ l2)))
      = Done (Z.max m1 m2) /\
    find_max fuel arr' (Z.of_nat (List.length arr')) = Done (Z.max m1 m2).
Proof.
  intros H1 H2 Hperm Hlen Hf.
  pose proof (Permutation_length Hperm) as Hl.
  pose proof (length_app l1 l2) as Happ.
  destruct l1 as [| a1 r1]; [contradiction |].
  destruct l2 as [| a2 r2]; [contradiction |].
  destruct arr' as [| a' r'];
    [apply Permutation_sym, Permutation_nil in Hperm; discriminate |].
  exists (fold_left Z.max r1 a1), (fold_left Z.max r2 a2).
  destruct (fold_left_max_greatest a1 r1) as [Hin1 Hub1].
  destruct (fold_left_max_greatest a2 r2) as [Hin2 Hub2].
  set (m1 := fold_left Z.max r1 a1) in *.
  set (m2 := fold_left Z.max r2 a2) in *.
  assert (Hin : In (Z.max m1 m2) ((a1 :: r1) ++ a2 :: r2)).
  { apply in_or_app.
    destruct (Z.max_spec m1 m2) as [[_ ->] | [_ ->]]; [right | left];
      assumption. }
  assert (Hub : forall x, In x ((a1 :: r1) ++ a2 :: r2) -> x <= Z.max m1 m2).
  { intros x Hx. apply in_app_or in Hx. destruct Hx as [Hx | Hx].
    - specialize (Hub1 x Hx). lia.
    - specialize (Hub2 x Hx). lia. }
  split; [apply find_max_value; cbn [List.length] in *; lia |].
  split; [apply find_max_value; cbn [List.length] in *; lia |].
  split.
  - change ((a1 :: r1) ++ a2 :: r2) with (a1 :: (r1 ++ a2 :: r2)) in *.
    rewrite find_max_value by (cbn [List.length] in *; lia).
    f_equal.
    destruct (fold_left_max_greatest a1 (r1 ++ a2 :: r2)) as [Hi Hu].
    apply (greatest_unique (a1 :: r1 ++ a2 :: r2)); assumption.
  - rewrite find_max_value by (cbn [List.length] in *; lia).
    f_equal.
    destruct (fold_left_max_greatest a' r') as [Hi Hu].
    apply (greatest_unique (a' :: r')); try assumption.
    + apply (Permutation_in _ Hperm). exact Hin.
    + intros x Hx. apply Hub.
      apply (Permutation_in _ (Permutation_sym Hperm)). exact Hx.
Qed.

Lemma find_max_rearranged_witness :
  (([4; 9] : list Z) <> [] /\
   ([7] : list Z) <> [] /\
   Permutation ([4; 9] ++ [7]) [7; 4; 9] /\
   Z.of_nat (List.length ([4; 9] ++ [7])) <= Int32.INT_MAX /\
   (List.length ([4; 9] ++ [7]) <= 3)%nat) /\
  exists m1 m2 : Z,
    find_max 3 [4; 9] (Z.of_nat (List.length [4; 9])) = Done m1 /\
    find_max 3 [7] (Z.of_nat (List.length [7])) = Done m2 /\
    find_max 3 ([4; 9] ++ [7]) (Z.of_nat (List.length ([4; 9] ++ [7])))
      = Done (Z.max m1 m2) /\
    find_max 3 [7; 4; 9] (Z.of_nat (List.length [7; 4; 9]))
      = Done (Z.max m1 m2).
Proof.
  assert (H1 : ([4; 9] : list Z) <> []) by discriminate.
  assert (H2 : ([7] : list Z) <> []) by discriminate.
  assert (H3 : Permutation ([4; 9] ++ [7]) [7; 4; 9]).
  { cbn [app].
    apply (Permutation_trans (l' := [4; 7; 9]));
      [apply perm_skip, perm_swap | apply perm_swap]. }
  assert (H4 : Z.of_nat (List.length ([4; 9] ++ [7])) <= Int32.INT_MAX)
    by (vm_compute; discriminate).
  assert (H5 : (List.length ([4; 9] ++ [7]) <= 3)%nat) by (cbn; lia).
  exact (conj (conj H1 (conj H2 (conj H3 (conj H4 H5))))
              (find_max_rearranged [4; 9] [7] [7; 4; 9] 3 H1 H2 H3 H4 H5)).
Defined.

End Composition.
